(** * yosys-slang: lowering of SystemVerilog to RTLIL, a shallow embedding

    The development follows the two translation units of the frontend:
    - [src/builder.cc]  (the constant-folding IR builder, [RTLILBuilder]);
    - [slang_frontend.cc] (signal evaluation, procedural lowering and
      module population).

    Signals are lists of bits, least significant bit first.  Dictionaries
    ([Yosys::dict]) are finite maps, bit pools are finite sets, the netlist
    under construction is threaded through a state and error monad.

    Conventions of the embedding:
    - C++ [int] sizes and widths are natural numbers (no design reaches the
      overflow of a 32 bit width); the [result_len] argument of the IR's
      constant folds is an integer because the source passes [-1];
    - source locations and attributes ([transfer_attrs]) carry no bits and
      are left out;
    - the constant folds of the IR library ([RTLIL::const_*]) are not part of
      this repository: the builder is parametrised by them ([IRFold]). *)

From Stdlib Require Import ZArith Lia.
From stdpp Require Import base option list gmap sets strings sorting.

Set Warnings "-register-all,-clear-no-such-hyp".

Local Open Scope Z_scope.
Local Open Scope nat_scope.

(** ** RTLIL values *)

Module RTLIL.

(** [RTLIL::State] *)
Inductive State := S0 | S1 | Sx | Sz | Sa | Sm.

Global Instance State_eq_dec : EqDecision State.
Proof. solve_decision. Defined.

Definition State_to_nat (s : State) : nat :=
  match s with S0 => 0 | S1 => 1 | Sx => 2 | Sz => 3 | Sa => 4 | Sm => 5 end.

Definition State_of_nat (n : nat) : State :=
  match n with 0 => S0 | 1 => S1 | 2 => Sx | 3 => Sz | 4 => Sa | _ => Sm end.

Global Instance State_countable : Countable State.
Proof. by apply (inj_countable' State_to_nat State_of_nat); intros []. Defined.

(** [RTLIL::IdString] as used for the names of wires, cells and processes:
    either the escaped hierarchical path of a symbol ([net_id], [id]) or a
    fresh name made by [NEW_ID] from the running [autoidx]. *)
Inductive IdString :=
  | Public (n : nat)
  | Auto (idx : nat).

Global Instance IdString_eq_dec : EqDecision IdString.
Proof. solve_decision. Defined.

Global Instance IdString_countable : Countable IdString.
Proof.
  apply (inj_countable'
    (fun i => match i with Public n => inl n | Auto n => inr n end)
    (fun s => match s with inl n => Public n | inr n => Auto n end)).
  by intros [].
Defined.

(** [RTLIL::SigBit]: a constant, or bit [offset] of a wire.  A wire pointer
    is identified by the name of the wire in its module. *)
Inductive SigBit :=
  | BConst (data : State)
  | BWire (wire : IdString) (offset : nat).

Global Instance SigBit_eq_dec : EqDecision SigBit.
Proof. solve_decision. Defined.

Global Instance SigBit_countable : Countable SigBit.
Proof.
  apply (inj_countable'
    (fun b => match b with BConst s => inl s | BWire w o => inr (w, o) end)
    (fun s => match s with inl s => BConst s | inr (w, o) => BWire w o end)).
  by intros [].
Defined.

Global Instance SigBit_inhabited : Inhabited SigBit := populate (BConst Sx).

(** [RTLIL::Const] (the bits; the string flag is not needed) and
    [RTLIL::SigSpec], both least significant bit first. *)
Abbreviation Const := (list State) (only parsing).
Abbreviation SigSpec := (list SigBit) (only parsing).
Abbreviation SigSig := (list SigBit * list SigBit)%type (only parsing).

Definition sig_of_const (c : Const) : SigSpec := BConst <$> c.

(** [SigSpec(State bit, int width)] *)
Definition sig_fill (s : State) (width : nat) : SigSpec :=
  replicate width (BConst s).

(** [SigSpec(Wire* w)]: all the bits of a wire of the given width. *)
Definition sig_of_wire (w : IdString) (width : nat) : SigSpec :=
  BWire w <$> seq 0 width.

(** [RTLIL::Const(int val, int width)] *)
Definition const_of_int (val : Z) (width : nat) : Const :=
  (fun i => if Z.testbit val (Z.of_nat i) then S1 else S0) <$> seq 0 width.

Definition is_wire (b : SigBit) : bool :=
  match b with BWire _ _ => true | BConst _ => false end.

Definition bit_is (s : State) (b : SigBit) : bool :=
  match b with BConst d => bool_decide (d = s) | BWire _ _ => false end.

Definition is_fully_const (sig : SigSpec) : bool :=
  forallb (fun b => negb (is_wire b)) sig.

Definition is_fully_zero (sig : SigSpec) : bool := forallb (bit_is S0) sig.

Definition is_fully_ones (sig : SigSpec) : bool := forallb (bit_is S1) sig.

Definition is_fully_def (sig : SigSpec) : bool :=
  forallb (fun b => bit_is S0 b || bit_is S1 b) sig.

Definition is_fully_undef (c : Const) : bool :=
  forallb (fun s => bool_decide (s = Sx) || bool_decide (s = Sz)) c.

(** [SigSpec::as_const], called by the builder only under
    [is_fully_const]. *)
Definition as_const (sig : SigSpec) : Const :=
  omap (fun b => match b with BConst s => Some s | BWire _ _ => None end) sig.

(** [Const::as_int]: the low 32 bits, two's complement. *)
Definition wrap32 (z : Z) : Z := ((z + 2 ^ 31) mod 2 ^ 32 - 2 ^ 31)%Z.

Fixpoint bits_value (c : Const) : Z :=
  match c with
  | [] => 0%Z
  | s :: c' => ((if bool_decide (s = S1) then 1 else 0) + 2 * bits_value c')%Z
  end.

Definition const_as_int (c : Const) (is_signed : bool) : Z :=
  let low := bits_value (take 32 c) in
  if is_signed && bool_decide (last c = Some S1) && bool_decide (length c < 32) then
    wrap32 (low + (2 ^ 32 - 2 ^ Z.of_nat (length c)))%Z
  else wrap32 low.

Definition const_as_bool (c : Const) : bool :=
  existsb (fun s => bool_decide (s = S1)) c.

Definition as_int (sig : SigSpec) (is_signed : bool) : Z :=
  const_as_int (as_const sig) is_signed.

Definition as_bool (sig : SigSpec) : bool := const_as_bool (as_const sig).

(** [SigSpec::msb] *)
Definition msb (sig : SigSpec) : SigBit := sig !!! (length sig - 1).

(** [SigSpec::extend_u0] *)
Definition extend_u0 (sig : SigSpec) (width : nat) (is_signed : bool) : SigSpec :=
  if decide (width < length sig) then take width sig
  else
    let padding :=
      if is_signed then (if decide (0 < length sig) then msb sig else BConst Sx)
      else BConst S0 in
    sig ++ replicate (width - length sig) padding.

(** [SigSpec::repeat] *)
Fixpoint sig_repeat (sig : SigSpec) (num : nat) : SigSpec :=
  match num with
  | O => []
  | S n => sig ++ sig_repeat sig n
  end.

(** [SigSpec::remove(offset, length)] *)
Definition sig_remove (sig : SigSpec) (offset len : nat) : SigSpec :=
  take offset sig ++ drop (offset + len) sig.

(** [SigSpec::replace(dict)]: one step of substitution per bit. *)
Definition sig_replace (rules : gmap SigBit SigBit) (sig : SigSpec) : SigSpec :=
  (fun b => default b (rules !! b)) <$> sig.

End RTLIL.

Import RTLIL.

(** ** The state and error monad of the frontend

    [log_error] (through [unimplemented] and [require]) and a failing
    [log_assert] end the run; everything else updates the netlist. *)

(** The places where the code asserts. *)
Inductive Assertion :=
  | A_rhs_fixed_size      (* evaluate_rhs: expr.type->isFixedSize() *)
  | A_rhs_width           (* evaluate_rhs: ret.size() == getBitstreamWidth() *)
  | A_lhs_fixed_size
  | A_lhs_width
  | A_wire                (* log_assert(wire) *)
  | A_stride              (* width % range.width() == 0, size % stride == 0 *)
  | A_bmux_pad            (* stride * (1 << raw_idx.size()) >= base_value.size() *)
  | A_extract             (* SigSpec::extract bounds *)
  | A_size                (* size equalities of builder and visitor *)
  | A_demux_width         (* s.size() < 24 *)
  | A_const               (* b.is_fully_const() *)
  | A_nonempty            (* !a.empty() *)
  | A_mixed_assign        (* blocking and nonblocking on one bit *)
  | A_staging_wire        (* log_assert(bit.wire) *)
  | A_trigger             (* set_cell_trigger *)
  | A_abort               (* log_abort() *)
  | A_args.               (* call.arguments().size() == subr arguments *)

(** [Unimplemented]: [unimplemented] and a failed [require];
    [Exception]: a C++ exception of the front end's accessors (a constant
    that is not an integer, an integer that does not fit [int]), reported by
    [log_error] at the top;
    [OutOfFuel]: the bound on the depth of function inlining was reached. *)
Inductive Error :=
  | Unimplemented
  | AssertFailed (a : Assertion)
  | Exception
  | OutOfFuel.

Inductive Result (A : Type) :=
  | Ok (a : A)
  | Fail (e : Error).
Arguments Ok {A} a.
Arguments Fail {A} e.

Definition M (St A : Type) : Type := St -> Result (A * St).

Definition ret {St A} (a : A) : M St A := fun s => Ok (a, s).

Definition bind {St A B} (c : M St A) (k : A -> M St B) : M St B :=
  fun s => match c s with
           | Ok (a, s') => k a s'
           | Fail e => Fail e
           end.

Definition fail {St A} (e : Error) : M St A := fun _ => Fail e.

Definition get {St} : M St St := fun s => Ok (s, s).
Definition modify {St} (f : St -> St) : M St unit := fun s => Ok (tt, f s).

Declare Scope frontend_scope.
Delimit Scope frontend_scope with fe.
Notation "x <- c ;; k" := (bind c (fun x => k))
  (at level 100, c at next level, right associativity) : frontend_scope.
Notation "c ;; k" := (bind c (fun _ => k))
  (at level 100, right associativity) : frontend_scope.
Local Open Scope frontend_scope.

(** [log_assert(cond)] and [require(obj, cond)] *)
Definition log_assert {St} (a : Assertion) (cond : bool) : M St unit :=
  if cond then ret tt else fail (AssertFailed a).

Definition require {St} (cond : bool) : M St unit :=
  if cond then ret tt else fail Unimplemented.

(** A loop over a list, in order. *)
Fixpoint for_each {St A} (l : list A) (body : A -> M St unit) : M St unit :=
  match l with
  | [] => ret tt
  | x :: l' => body x ;; for_each l' body
  end.

Fixpoint map_M {St A B} (f : A -> M St B) (l : list A) : M St (list B) :=
  match l with
  | [] => ret []
  | x :: l' => y <- f x ;; ys <- map_M f l' ;; ret (y :: ys)
  end.

(** ** The netlist under construction *)

(** Cell types the frontend names with [ID($...)]; [ID_other] stands for
    every other identifier (the type of a submodule instance). *)
Inductive CellType :=
  | ID_add | ID_sub | ID_mul | ID_divfloor | ID_div | ID_mod
  | ID_and | ID_or | ID_xor | ID_xnor
  | ID_eq | ID_ne | ID_nex | ID_eqx | ID_ge | ID_gt | ID_le | ID_lt
  | ID_logic_and | ID_logic_or
  | ID_sshl | ID_sshr | ID_shl | ID_shr | ID_pow
  | ID_pos | ID_neg | ID_logic_not | ID_not
  | ID_reduce_or | ID_reduce_and | ID_reduce_xor | ID_reduce_xnor
  | ID_reduce_bool
  | ID_shift | ID_shiftx | ID_mux | ID_bwmux | ID_bmux | ID_demux
  | ID_print
  | ID_other (name : nat).

Global Instance CellType_eq_dec : EqDecision CellType.
Proof. solve_decision. Defined.

Inductive PortId :=
  | P_A | P_B | P_S | P_Y | P_TRG | P_EN
  | P_port (name : IdString).

Global Instance PortId_eq_dec : EqDecision PortId.
Proof. solve_decision. Defined.

Inductive ParamId :=
  | A_SIGNED | B_SIGNED | A_WIDTH | B_WIDTH | Y_WIDTH | WIDTH | S_WIDTH
  | TRG_ENABLE | TRG_WIDTH | TRG_POLARITY | PRIORITY.

Global Instance ParamId_eq_dec : EqDecision ParamId.
Proof. solve_decision. Defined.

Inductive ParamVal :=
  | PInt (z : Z)
  | PBool (b : bool)
  | PConst (c : Const).

(** Assignment [d[k] = v] on a dictionary kept in insertion order. *)
Fixpoint dict_set {K V} `{EqDecision K} (k : K) (v : V) (d : list (K * V)) : list (K * V) :=
  match d with
  | [] => [(k, v)]
  | (k', v') :: d' => if decide (k' = k) then (k, v) :: d' else (k', v') :: dict_set k v d'
  end.

Fixpoint dict_get {K V} `{EqDecision K} (k : K) (d : list (K * V)) : option V :=
  match d with
  | [] => None
  | (k', v') :: d' => if decide (k' = k) then Some v' else dict_get k d'
  end.

Record Cell := mkCell {
  cell_type : CellType;
  connections : list (PortId * SigSpec);
  parameters : list (ParamId * ParamVal)
}.

Record Wire := mkWire {
  width : nat;
  port_input : bool;
  port_output : bool;
  init : option Const
}.

Inductive SyncType := ST0 | ST1 | STp | STn | STe | STa | STg | STi.

Global Instance SyncType_eq_dec : EqDecision SyncType.
Proof. solve_decision. Defined.

Record SyncRule := mkSyncRule {
  sync_type : SyncType;
  sync_signal : SigSpec;
  sync_actions : list SigSig
}.

(** Case and switch rules are heap objects ([new RTLIL::CaseRule]) that the
    visitor keeps pointers to and updates in place: they live in a store
    addressed by [nat], a rule holds the addresses of its children. *)
Record CaseRule := mkCaseRule {
  compare : list SigSpec;
  actions : list SigSig;
  switches : list nat
}.

Record SwitchRule := mkSwitchRule {
  signal : SigSpec;
  cases : list nat
}.

Record Process := mkProcess {
  root_case : nat;
  syncs : list SyncRule
}.

Record Module := mkModule {
  autoidx : nat;
  wires_ : gmap IdString Wire;
  cells_ : gmap IdString Cell;
  connections_ : list SigSig;
  processes : gmap IdString Process;
  case_rules : gmap nat CaseRule;
  switch_rules : gmap nat SwitchRule;
  heap_top : nat
}.

Definition empty_module : Module :=
  mkModule 0 ∅ ∅ [] ∅ ∅ ∅ 0.

Definition set_autoidx (n : nat) (m : Module) : Module :=
  mkModule n (wires_ m) (cells_ m) (connections_ m) (processes m)
           (case_rules m) (switch_rules m) (heap_top m).
Definition set_wires (w : gmap IdString Wire) (m : Module) : Module :=
  mkModule (autoidx m) w (cells_ m) (connections_ m) (processes m)
           (case_rules m) (switch_rules m) (heap_top m).
Definition set_cells (c : gmap IdString Cell) (m : Module) : Module :=
  mkModule (autoidx m) (wires_ m) c (connections_ m) (processes m)
           (case_rules m) (switch_rules m) (heap_top m).
Definition set_connections (c : list SigSig) (m : Module) : Module :=
  mkModule (autoidx m) (wires_ m) (cells_ m) c (processes m)
           (case_rules m) (switch_rules m) (heap_top m).
Definition set_processes (p : gmap IdString Process) (m : Module) : Module :=
  mkModule (autoidx m) (wires_ m) (cells_ m) (connections_ m) p
           (case_rules m) (switch_rules m) (heap_top m).
Definition set_case_rules (c : gmap nat CaseRule) (m : Module) : Module :=
  mkModule (autoidx m) (wires_ m) (cells_ m) (connections_ m) (processes m)
           c (switch_rules m) (heap_top m).
Definition set_switch_rules (s : gmap nat SwitchRule) (m : Module) : Module :=
  mkModule (autoidx m) (wires_ m) (cells_ m) (connections_ m) (processes m)
           (case_rules m) s (heap_top m).
Definition set_heap_top (n : nat) (m : Module) : Module :=
  mkModule (autoidx m) (wires_ m) (cells_ m) (connections_ m) (processes m)
           (case_rules m) (switch_rules m) n.

(** [NEW_ID]: a fresh name from the running counter. *)
Definition NEW_ID : M Module IdString :=
  fun m => Ok (Auto (autoidx m), set_autoidx (S (autoidx m)) m).

(** [Module::addWire(name, width)], read back as the signal of all its bits. *)
Definition addWire (name : IdString) (w : nat) : M Module SigSpec :=
  modify (fun m => set_wires (<[name := mkWire w false false None]> (wires_ m)) m) ;;
  ret (sig_of_wire name w).

(** [Module::wire(name)] *)
Definition wire (name : IdString) : M Module (option Wire) :=
  fun m => Ok (wires_ m !! name, m).

(** [Module::addCell(name, type)]; the cell pointer is the cell's name. *)
Definition addCell (name : IdString) (type : CellType) : M Module IdString :=
  modify (fun m => set_cells (<[name := mkCell type [] []]> (cells_ m)) m) ;;
  ret name.

Definition setPort (cell : IdString) (port : PortId) (sig : SigSpec) : M Module unit :=
  modify (fun m => set_cells
    (alter (fun c => mkCell (cell_type c) (dict_set port sig (connections c)) (parameters c))
           cell (cells_ m)) m).

Definition setParam (cell : IdString) (p : ParamId) (v : ParamVal) : M Module unit :=
  modify (fun m => set_cells
    (alter (fun c => mkCell (cell_type c) (connections c) (dict_set p v (parameters c)))
           cell (cells_ m)) m).

Definition PSize (sig : SigSpec) : ParamVal := PInt (Z.of_nat (length sig)).

(** The cell-emitting methods of [RTLIL::Module] the frontend calls
    ([DEF_METHOD] in the IR library): the output wire is made first, then the
    cell with its parameters and ports. *)
Definition add_unary (type : CellType) (name : IdString) (sig_a sig_y : SigSpec)
    (is_signed : bool) : M Module IdString :=
  cell <- addCell name type ;;
  setParam cell A_SIGNED (PBool is_signed) ;;
  setParam cell A_WIDTH (PSize sig_a) ;;
  setParam cell Y_WIDTH (PSize sig_y) ;;
  setPort cell P_A sig_a ;;
  setPort cell P_Y sig_y ;;
  ret cell.

Definition mod_unary (type : CellType) (y_size : nat) (name : IdString) (sig_a : SigSpec)
    (is_signed : bool) : M Module SigSpec :=
  yname <- NEW_ID ;;
  sig_y <- addWire yname y_size ;;
  add_unary type name sig_a sig_y is_signed ;;
  ret sig_y.

Definition add_binary (type : CellType) (name : IdString) (sig_a sig_b sig_y : SigSpec)
    (a_signed b_signed : bool) : M Module IdString :=
  cell <- addCell name type ;;
  setParam cell A_SIGNED (PBool a_signed) ;;
  setParam cell B_SIGNED (PBool b_signed) ;;
  setParam cell A_WIDTH (PSize sig_a) ;;
  setParam cell B_WIDTH (PSize sig_b) ;;
  setParam cell Y_WIDTH (PSize sig_y) ;;
  setPort cell P_A sig_a ;;
  setPort cell P_B sig_b ;;
  setPort cell P_Y sig_y ;;
  ret cell.

Definition mod_binary (type : CellType) (y_size : nat) (name : IdString)
    (sig_a sig_b : SigSpec) (is_signed : bool) : M Module SigSpec :=
  yname <- NEW_ID ;;
  sig_y <- addWire yname y_size ;;
  add_binary type name sig_a sig_b sig_y is_signed is_signed ;;
  ret sig_y.

Definition mod_Not := mod_unary ID_not.
Definition mod_ReduceBool := mod_unary ID_reduce_bool 1.
Definition mod_LogicNot := mod_unary ID_logic_not 1.
Definition addLogicNot := add_unary ID_logic_not.
Definition addNeg := add_unary ID_neg.
Definition mod_Sub name a b := mod_binary ID_sub (max (length a) (length b)) name a b.
Definition mod_Le := mod_binary ID_le 1.
Definition mod_Ge := mod_binary ID_ge 1.
Definition mod_Lt := mod_binary ID_lt 1.
Definition mod_Eq name a b := mod_binary ID_eq 1 name a b false.
Definition mod_LogicAnd name a b := mod_binary ID_logic_and 1 name a b false.
Definition mod_LogicOr name a b := mod_binary ID_logic_or 1 name a b false.
Definition addShiftx name a b y (is_signed : bool) :=
  add_binary ID_shiftx name a b y false is_signed.

Definition add_mux (type : CellType) (name : IdString) (sig_a sig_b sig_s sig_y : SigSpec)
    : M Module IdString :=
  cell <- addCell name type ;;
  setParam cell WIDTH (PSize sig_a) ;;
  setPort cell P_A sig_a ;;
  setPort cell P_B sig_b ;;
  setPort cell P_S sig_s ;;
  setPort cell P_Y sig_y ;;
  ret cell.

Definition mod_mux (type : CellType) (name : IdString) (sig_a sig_b sig_s : SigSpec)
    : M Module SigSpec :=
  yname <- NEW_ID ;;
  sig_y <- addWire yname (length sig_a) ;;
  add_mux type name sig_a sig_b sig_s sig_y ;;
  ret sig_y.

Definition mod_Mux := mod_mux ID_mux.
Definition mod_Bwmux := mod_mux ID_bwmux.

Definition mod_Demux (name : IdString) (sig_a sig_s : SigSpec) : M Module SigSpec :=
  yname <- NEW_ID ;;
  sig_y <- addWire yname (length sig_a * 2 ^ length sig_s) ;;
  cell <- addCell name ID_demux ;;
  setParam cell WIDTH (PSize sig_a) ;;
  setParam cell S_WIDTH (PSize sig_s) ;;
  setPort cell P_A sig_a ;;
  setPort cell P_S sig_s ;;
  setPort cell P_Y sig_y ;;
  ret sig_y.

Definition mod_Bmux (name : IdString) (sig_a sig_s : SigSpec) : M Module SigSpec :=
  yname <- NEW_ID ;;
  sig_y <- addWire yname (length sig_a / 2 ^ length sig_s) ;;
  cell <- addCell name ID_bmux ;;
  setParam cell WIDTH (PSize sig_y) ;;
  setParam cell S_WIDTH (PSize sig_s) ;;
  setPort cell P_A sig_a ;;
  setPort cell P_S sig_s ;;
  setPort cell P_Y sig_y ;;
  ret sig_y.

(** [SigSpec::extract(offset, length)] with its bounds assertions. *)
Definition extract {St} (sig : SigSpec) (offset len : Z) : M St SigSpec :=
  log_assert A_extract (bool_decide (0 <= offset)%Z) ;;
  log_assert A_extract (bool_decide (0 <= len)%Z) ;;
  log_assert A_extract (bool_decide (offset + len <= Z.of_nat (length sig))%Z) ;;
  ret (take (Z.to_nat len) (drop (Z.to_nat offset) sig)).

(** ** src/builder.cc: the constant-folding builder *)

(** The constant folds of the IR library, [RTLIL::const_<type>(arg1, arg2,
    signed1, signed2, result_len)], indexed by the cell type.  They belong to
    the downstream library and are a parameter of the builder. *)
Class IRFold := {
  const_eval : CellType -> Const -> Const -> bool -> bool -> Z -> Const
}.

Module ThreeValued.

Local Open Scope Z_scope.

Definition AND (a b : Z) : Z :=
  if (a <? 0) || (b <? 0) then -1
  else if (a >? 0) && (b >? 0) then 1
  else 0.

Definition NOT (lit : Z) : Z := - lit.

Definition OR (a b : Z) : Z := NOT (AND (NOT a) (NOT b)).

Definition XOR (a b : Z) : Z := OR (AND a (NOT b)) (AND (NOT a) b).

Definition XNOR (a b : Z) : Z := NOT (OR (AND a (NOT b)) (AND (NOT a) b)).

Definition CARRY (a b c : Z) : Z :=
  if c >? 0 then OR a b
  else if c <? -1 then AND a b
  else OR (AND a b) (AND c (OR a b)).

Definition convert (bit : SigBit) : Z :=
  if decide (bit = BConst S1) then 1
  else if decide (bit = BConst S0) then -1
  else 0.

End ThreeValued.

Module RTLILBuilder.

Section Builder.

Context {ir : IRFold}.

Definition fold (type : CellType) (a b : SigSpec) (a_signed b_signed : bool)
    (result_len : Z) : SigSpec :=
  sig_of_const (const_eval type (as_const a) (as_const b) a_signed b_signed result_len).

(** The second operand [RTLIL::Const()] of the unary folds. *)
Definition no_arg : SigSpec := [].

Definition ReduceBool (a : SigSpec) : M Module SigSpec :=
  if is_fully_const a then
    ret (fold ID_reduce_bool a no_arg false false 1)
  else
    name <- NEW_ID ;; mod_ReduceBool name a false.

Definition Sub (a b : SigSpec) (is_signed : bool) : M Module SigSpec :=
  if is_fully_ones b then
    ret a
  else if is_fully_const a && is_fully_const b then
    ret (fold ID_sub a b is_signed is_signed
           (Z.of_nat (max (length a) (length b) + 1)))
  else
    name <- NEW_ID ;; mod_Sub name a b is_signed.

Definition Demux (a s : SigSpec) : M Module SigSpec :=
  log_assert A_demux_width (bool_decide (length s < 24)) ;;
  let zeropad := sig_fill S0 (length a) in
  if is_fully_const s then
    let idx_const := Z.to_nat (as_int s false) in
    ret (sig_repeat zeropad idx_const ++ a
           ++ sig_repeat zeropad (2 ^ length s - 1 - idx_const))
  else
    name <- NEW_ID ;; mod_Demux name a s.

Definition Le (a b : SigSpec) (is_signed : bool) : M Module SigSpec :=
  if is_fully_const a && is_fully_const b then
    ret (fold ID_le a b is_signed is_signed 1)
  else
    name <- NEW_ID ;; mod_Le name a b is_signed.

Definition Ge (a b : SigSpec) (is_signed : bool) : M Module SigSpec :=
  if is_fully_const a && is_fully_const b then
    ret (fold ID_ge a b is_signed is_signed 1)
  else
    name <- NEW_ID ;; mod_Ge name a b is_signed.

Definition Lt (a b : SigSpec) (is_signed : bool) : M Module SigSpec :=
  if is_fully_const a && is_fully_const b then
    ret (fold ID_lt a b is_signed is_signed 1)
  else
    name <- NEW_ID ;; mod_Lt name a b is_signed.

Definition Eq (a b : SigSpec) : M Module SigSpec :=
  if is_fully_const a && is_fully_const b then
    ret (fold ID_eq a b false false 1)
  else
    name <- NEW_ID ;; mod_Eq name a b.

(** The loop of [EqWildcard]: from the top bit down, positions where [b] is
    x or z are removed from both signals. *)
Fixpoint drop_wildcards (i : nat) (a b : SigSpec) : SigSpec * SigSpec :=
  match i with
  | O => (a, b)
  | S i' =>
      if decide (b !!! i' = BConst Sx \/ b !!! i' = BConst Sz)
      then drop_wildcards i' (sig_remove a i' 1) (sig_remove b i' 1)
      else drop_wildcards i' a b
  end.

Definition EqWildcard (a b : SigSpec) : M Module SigSpec :=
  log_assert A_size (bool_decide (length a = length b)) ;;
  log_assert A_const (is_fully_const b) ;;
  let ab := drop_wildcards (length a) a b in
  let a := ab.1 in
  let b := ab.2 in
  log_assert A_size (bool_decide (length a = length b)) ;;
  if is_fully_const a && is_fully_const b then
    ret (fold ID_eq a b false false 1)
  else
    name <- NEW_ID ;; mod_Eq name a b.

Definition LogicAnd (a b : SigSpec) : M Module SigSpec :=
  if is_fully_zero a || is_fully_zero b then
    ret (sig_of_const (const_of_int 0 1))
  else if is_fully_def a && bool_decide (length b = 1) then
    ret b
  else if is_fully_def b && bool_decide (length a = 1) then
    ret a
  else
    name <- NEW_ID ;; mod_LogicAnd name a b.

Definition LogicOr (a b : SigSpec) : M Module SigSpec :=
  if is_fully_ones a || is_fully_ones b then
    ret (sig_of_const (const_of_int 1 1))
  else if is_fully_zero a && is_fully_zero b then
    ret (sig_of_const (const_of_int 0 1))
  else
    name <- NEW_ID ;; mod_LogicOr name a b.

Definition LogicNot (a : SigSpec) : M Module SigSpec :=
  if is_fully_const a then
    ret (fold ID_logic_not a no_arg false false (-1))
  else
    name <- NEW_ID ;; mod_LogicNot name a false.

Definition Mux (a b s : SigSpec) : M Module SigSpec :=
  log_assert A_size (bool_decide (length a = length b)) ;;
  log_assert A_size (bool_decide (length s = 1)) ;;
  if decide (s !!! 0 = BConst S0) then ret a
  else if decide (s !!! 0 = BConst S1) then ret b
  else name <- NEW_ID ;; mod_Mux name a b s.

Definition Bwmux (a b s : SigSpec) : M Module SigSpec :=
  log_assert A_size (bool_decide (length a = length b)) ;;
  log_assert A_size (bool_decide (length a = length s)) ;;
  if is_fully_const s then
    ret ((fun i =>
            if decide (s !!! i = BConst S0) then a !!! i
            else if decide (s !!! i = BConst S1) then b !!! i
            else BConst Sx) <$> seq 0 (length a))
  else
    name <- NEW_ID ;; mod_Bwmux name a b s.

(** The rewiring loop of [Shift] for a constant amount: result bit [j] is
    bit [shift_amount + j] of [a]. *)
Definition shift_bit (a : SigSpec) (a_signed : bool) (i : Z) : SigBit :=
  if a_signed && (Z.of_nat (length a) <=? i)%Z then msb a
  else if (Z.of_nat (length a) <=? i)%Z || (i <? 0)%Z then BConst S0
  else a !!! Z.to_nat i.

Definition Shift (a : SigSpec) (a_signed : bool) (b : SigSpec) (b_signed : bool)
    (result_width : nat) : M Module SigSpec :=
  if is_fully_const a && is_fully_const b then
    ret (fold ID_shift a b a_signed b_signed (Z.of_nat result_width))
  else if is_fully_const b && bool_decide (length b < 24) then
    log_assert A_nonempty (negb (bool_decide (a = []))) ;;
    let shift_amount := as_int b b_signed in
    ret ((fun j => shift_bit a a_signed (shift_amount + Z.of_nat j)%Z)
           <$> seq 0 result_width)
  else
    yname <- NEW_ID ;;
    y <- addWire yname result_width ;;
    name <- NEW_ID ;;
    cell <- addCell name ID_shift ;;
    setParam cell A_SIGNED (PBool a_signed) ;;
    setParam cell B_SIGNED (PBool b_signed) ;;
    setParam cell A_WIDTH (PSize a) ;;
    setParam cell B_WIDTH (PSize b) ;;
    setParam cell Y_WIDTH (PSize y) ;;
    setPort cell P_A a ;;
    setPort cell P_B b ;;
    setPort cell P_Y y ;;
    ret y.

Definition Shiftx (a s : SigSpec) (s_signed : bool) (result_width : nat)
    : M Module SigSpec :=
  if is_fully_const a && is_fully_const s then
    ret (fold ID_shiftx a s false s_signed (Z.of_nat result_width))
  else
    yname <- NEW_ID ;;
    y <- addWire yname result_width ;;
    name <- NEW_ID ;;
    addShiftx name a s y s_signed ;;
    ret y.

Definition Neg (a : SigSpec) (signed_ : bool) : M Module SigSpec :=
  if is_fully_const a then
    ret (fold ID_neg a no_arg signed_ false (Z.of_nat (length a + 1)))
  else
    yname <- NEW_ID ;;
    y <- addWire yname (length a + 1) ;;
    name <- NEW_ID ;;
    addNeg name a y signed_ ;;
    ret y.

Definition Bmux (a s : SigSpec) : M Module SigSpec :=
  log_assert A_size (bool_decide (length a mod 2 ^ length s = 0)) ;;
  log_assert A_size (bool_decide (2 ^ length s <= length a)) ;;
  let stride := length a / 2 ^ length s in
  if is_fully_def s then
    extract a (as_int s false * Z.of_nat stride) (Z.of_nat stride)
  else
    name <- NEW_ID ;; mod_Bmux name a s.

Definition Not (a : SigSpec) : M Module SigSpec :=
  if is_fully_const a then
    ret (fold ID_not a no_arg false false (-1))
  else
    name <- NEW_ID ;; mod_Not (length a) name a false.

(** The cell types the [OP] macro of [Biop] folds. *)
Definition biop_folds (op : CellType) : bool :=
  match op with
  | ID_add | ID_sub | ID_mul | ID_divfloor | ID_div | ID_mod
  | ID_and | ID_or | ID_xor | ID_xnor
  | ID_eq | ID_ne | ID_nex | ID_eqx | ID_ge | ID_gt | ID_le | ID_lt
  | ID_logic_and | ID_logic_or
  | ID_sshl | ID_sshr | ID_shl | ID_shr | ID_pow => true
  | _ => false
  end.

(** ... and of [Unop]. *)
Definition unop_folds (op : CellType) : bool :=
  match op with
  | ID_pos | ID_neg | ID_logic_not | ID_not
  | ID_reduce_or | ID_reduce_and | ID_reduce_xor | ID_reduce_xnor
  | ID_reduce_bool => true
  | _ => false
  end.

Definition is_compare (op : CellType) : bool :=
  match op with ID_le | ID_lt | ID_gt | ID_ge => true | _ => false end.

(** The loop state of the three-valued comparison: [carry], [al], [bl]. *)
Record cmp_state := mkCmp { carry : Z; al : Z; bl : Z }.

Definition cmp_step (op : CellType) (a b : SigSpec) (a_signed b_signed : bool)
    (width : nat) (st : cmp_state) (i : nat) : cmp_state :=
  let abit := if decide (i < length a) then a !!! i
              else if a_signed then msb a else BConst S0 in
  let bbit := if decide (i < length b) then b !!! i
              else if b_signed then msb b else BConst S0 in
  let al0 := ThreeValued.convert abit in
  let bl0 := ThreeValued.convert bbit in
  let swap := match op with ID_gt | ID_ge => true | _ => false end in
  let al := if swap then bl0 else al0 in
  let bl := if swap then al0 else bl0 in
  let carry :=
    if decide (i <> width - 1)
    then ThreeValued.CARRY al (ThreeValued.NOT bl) (carry st)
    else carry st in
  mkCmp carry al bl.

Definition cmp_result (op : CellType) (a b : SigSpec) (a_signed b_signed : bool) : Z :=
  let carry0 := match op with ID_le | ID_ge => (-1)%Z | _ => 1%Z end in
  let width := max (length a) (length b) in
  let st := foldl (cmp_step op a b a_signed b_signed width)
                  (mkCmp carry0 0 0) (seq 0 width) in
  ThreeValued.XOR (carry st) (ThreeValued.XNOR (al st) (bl st)).

(** The cell emission at the end of [Biop]. *)
Definition Biop_cell (op : CellType) (a b : SigSpec) (a_signed b_signed : bool)
    (y_width : nat) : M Module SigSpec :=
  name <- NEW_ID ;;
  cell <- addCell name op ;;
  setPort cell P_A a ;;
  setPort cell P_B b ;;
  setParam cell A_WIDTH (PSize a) ;;
  setParam cell B_WIDTH (PSize b) ;;
  setParam cell A_SIGNED (PBool a_signed) ;;
  setParam cell B_SIGNED (PBool b_signed) ;;
  setParam cell Y_WIDTH (PInt (Z.of_nat y_width)) ;;
  yname <- NEW_ID ;;
  y <- addWire yname y_width ;;
  setPort cell P_Y y ;;
  ret y.

(** The part of [Biop] after the three-valued comparison. *)
Definition Biop_logic (op : CellType) (a b : SigSpec) (a_signed b_signed : bool)
    (y_width : nat) : M Module SigSpec :=
  if bool_decide (op = ID_logic_and) && (is_fully_zero a || is_fully_zero b) then
    ret (sig_fill S0 y_width)
  else if bool_decide (op = ID_logic_or)
          && ((is_fully_const a && as_bool a) || (is_fully_const b && as_bool b)) then
    ret (extend_u0 [BConst S1] y_width false)
  else
    Biop_cell op a b a_signed b_signed y_width.

Definition Biop (op : CellType) (a b : SigSpec) (a_signed b_signed : bool)
    (y_width : nat) : M Module SigSpec :=
  if is_fully_const a && is_fully_const b && biop_folds op then
    ret (fold op a b a_signed b_signed (Z.of_nat y_width))
  else if is_compare op && negb (bool_decide (a = [])) && negb (bool_decide (b = [])) then
    let result := cmp_result op a b a_signed b_signed in
    if (result <? 0)%Z then ret (sig_fill S0 y_width)
    else if (result >? 0)%Z then ret (extend_u0 [BConst S1] y_width false)
    else Biop_logic op a b a_signed b_signed y_width
  else
    Biop_logic op a b a_signed b_signed y_width.

Definition Unop (op : CellType) (a : SigSpec) (a_signed : bool) (y_width : nat)
    : M Module SigSpec :=
  if is_fully_const a && unop_folds op then
    ret (fold op a no_arg a_signed false (Z.of_nat y_width))
  else
    name <- NEW_ID ;;
    cell <- addCell name op ;;
    setPort cell P_A a ;;
    setParam cell A_WIDTH (PSize a) ;;
    setParam cell A_SIGNED (PBool a_signed) ;;
    setParam cell Y_WIDTH (PInt (Z.of_nat y_width)) ;;
    yname <- NEW_ID ;;
    y <- addWire yname y_width ;;
    setPort cell P_Y y ;;
    ret y.

End Builder.

End RTLILBuilder.

(** ** A reference interpretation of the IR's constant folds

    After [kernel/calc.cc] of the IR library.  The theorems about the builder
    hold for every [IRFold]; this instance serves to run the builder on
    concrete operands. *)

Module Calc.

Local Open Scope Z_scope.

Definition is_def (s : State) : bool := bool_decide (s = S0) || bool_decide (s = S1).

Definition has_undef (c : Const) : bool := existsb (fun s => negb (is_def s)) c.

(** [const2big]: the integer a constant stands for; undefined bits are
    reported by [has_undef]. *)
Definition const2big (c : Const) (as_signed : bool) : Z :=
  if as_signed && bool_decide (last c = Some S1)
  then bits_value c - 2 ^ Z.of_nat (length c)
  else bits_value c.

Definition res_len (result_len : Z) (dflt : nat) : nat :=
  if result_len <? 0 then dflt else Z.to_nat result_len.

(** [big2const] *)
Definition big2const (val : Z) (len : nat) (undef : bool) : Const :=
  if undef then replicate len Sx else const_of_int val len.

(** the static [extend_u0] of the folds *)
Definition extend (c : Const) (w : nat) (is_signed : bool) : Const :=
  let padding := if is_signed then default S0 (last c) else S0 in
  take w (c ++ replicate (w - length c) padding).

(** a one bit result, padded with zeros up to [result_len] *)
Definition bit_result (s : State) (result_len : Z) : Const :=
  s :: replicate (Z.to_nat result_len - 1) S0.

Definition logic_and (a b : State) : State :=
  if bool_decide (a = S0) || bool_decide (b = S0) then S0
  else if bool_decide (a = S1) && bool_decide (b = S1) then S1 else Sx.

Definition logic_or (a b : State) : State :=
  if bool_decide (a = S1) || bool_decide (b = S1) then S1
  else if bool_decide (a = S0) && bool_decide (b = S0) then S0 else Sx.

Definition logic_xor (a b : State) : State :=
  if is_def a && is_def b then (if bool_decide (a = b) then S0 else S1) else Sx.

Definition logic_not (a : State) : State :=
  match a with S0 => S1 | S1 => S0 | _ => Sx end.

Definition logic_xnor (a b : State) : State := logic_not (logic_xor a b).

Definition bitwise (f : State -> State -> State) (a b : Const) (sa sb : bool)
    (result_len : Z) : Const :=
  let len := res_len result_len (max (length a) (length b)) in
  zip_with f (extend a len sa) (extend b len sb).

Definition reduce (init : State) (f : State -> State -> State) (a : Const)
    (result_len : Z) : Const :=
  bit_result (foldl f init a) result_len.

Definition truth (a : Const) (sa : bool) : State :=
  if negb (const2big a sa =? 0) then S1 else if has_undef a then Sx else S0.

Definition arith (f : Z -> Z -> Z) (a b : Const) (sa sb : bool) (result_len : Z) : Const :=
  big2const (f (const2big a sa) (const2big b sb))
            (res_len result_len (max (length a) (length b)))
            (has_undef a || has_undef b).

Definition division (f : Z -> Z -> Z) (a b : Const) (sa sb : bool) (result_len : Z) : Const :=
  if const2big b sb =? 0 then replicate (Z.to_nat result_len) Sx
  else arith f a b sa sb result_len.

Definition relation (f : Z -> Z -> bool) (a b : Const) (sa sb : bool) (result_len : Z) : Const :=
  bit_result (if has_undef a || has_undef b then Sx
              else if f (const2big a sa) (const2big b sb) then S1 else S0) result_len.

Definition equality (a b : Const) (sa sb : bool) : State :=
  let w := max (length a) (length b) in
  let ab := zip (extend a w (sa && sb)) (extend b w (sa && sb)) in
  if existsb (fun p => is_def p.1 && is_def p.2 && negb (bool_decide (p.1 = p.2))) ab then S0
  else if existsb (fun p => negb (is_def p.1 && is_def p.2)) ab then Sx
  else S1.

Definition exact_equality (a b : Const) (sa sb : bool) : State :=
  let w := max (length a) (length b) in
  if bool_decide (extend a w (sa && sb) = extend b w (sa && sb)) then S1 else S0.

(** [const_shift_worker] *)
Definition shift_worker (a b : Const) (sign_ext signed2 : bool) (direction : Z)
    (result_len : Z) (vacant : State) : Const :=
  let len := res_len result_len (length a) in
  if has_undef b then replicate len Sx
  else
    let offset := const2big b signed2 * direction in
    (fun i => let pos := Z.of_nat i + offset in
              if pos <? 0 then vacant
              else if Z.of_nat (length a) <=? pos
                   then (if sign_ext then default Sx (last a) else vacant)
              else default Sx (a !! Z.to_nat pos)) <$> seq 0 len.

Definition power (a b : Z) : Z :=
  if b <? 0 then
    (if a =? 1 then 1 else if a =? -1 then (if Z.even b then 1 else -1) else 0)
  else a ^ b.

Definition calc (type : CellType) (a b : Const) (sa sb : bool) (result_len : Z) : Const :=
  match type with
  | ID_add => arith Z.add a b sa sb result_len
  | ID_sub => arith Z.sub a b sa sb result_len
  | ID_mul => arith Z.mul a b sa sb result_len
  | ID_div => division Z.quot a b sa sb result_len
  | ID_mod => division Z.rem a b sa sb result_len
  | ID_divfloor => division Z.div a b sa sb result_len
  | ID_pow =>
      if (const2big a sa =? 0) && (const2big b sb <? 0)
      then replicate (Z.to_nat result_len) Sx
      else arith power a b sa sb result_len
  | ID_and => bitwise logic_and a b sa sb result_len
  | ID_or => bitwise logic_or a b sa sb result_len
  | ID_xor => bitwise logic_xor a b sa sb result_len
  | ID_xnor => bitwise logic_xnor a b sa sb result_len
  | ID_lt => relation Z.ltb a b sa sb result_len
  | ID_le => relation Z.leb a b sa sb result_len
  | ID_gt => relation Z.gtb a b sa sb result_len
  | ID_ge => relation Z.geb a b sa sb result_len
  | ID_eq => bit_result (equality a b sa sb) result_len
  | ID_ne => bit_result (logic_not (equality a b sa sb)) result_len
  | ID_eqx => bit_result (exact_equality a b sa sb) result_len
  | ID_nex => bit_result (logic_not (exact_equality a b sa sb)) result_len
  | ID_logic_and => bit_result (logic_and (truth a sa) (truth b sb)) result_len
  | ID_logic_or => bit_result (logic_or (truth a sa) (truth b sb)) result_len
  | ID_logic_not => bit_result (logic_not (truth a sa)) result_len
  | ID_shl =>
      shift_worker (extend a (res_len result_len (length a)) sa) b false false (-1) result_len S0
  | ID_shr =>
      shift_worker (extend a (max (res_len result_len (length a)) (length a)) sa)
                   b false false 1 result_len S0
  | ID_sshl =>
      if sa then shift_worker a b true false (-1) result_len S0
      else shift_worker (extend a (res_len result_len (length a)) sa) b false false (-1) result_len S0
  | ID_sshr =>
      if sa then shift_worker a b true false 1 result_len S0
      else shift_worker (extend a (max (res_len result_len (length a)) (length a)) sa)
                        b false false 1 result_len S0
  | ID_shift => shift_worker a b sa sb 1 result_len S0
  | ID_shiftx => shift_worker a b sa sb 1 result_len Sx
  | ID_pos => extend a (res_len result_len (length a)) sa
  | ID_neg => arith Z.sub [S0] a true sa result_len
  | ID_not => logic_not <$> extend a (res_len result_len (length a)) sa
  | ID_reduce_and => reduce S1 logic_and a result_len
  | ID_reduce_or | ID_reduce_bool => reduce S0 logic_or a result_len
  | ID_reduce_xor => reduce S0 logic_xor a result_len
  | ID_reduce_xnor => bit_result (logic_not (foldl logic_xor S0 a)) result_len
  | _ => replicate (Z.to_nat result_len) Sx
  end.

Definition reference : IRFold := {| const_eval := calc |}.

End Calc.

(** ** Sorting and chunking of signals *)

(** [SigBit::operator<]: constants before wires, wires by name (the order of
    interned identifiers), then by offset. *)
Definition SigBit_key (b : SigBit) : nat * nat * nat :=
  match b with
  | BConst s => (0, State_to_nat s, 0)
  | BWire (Public n) o => (1, n, o)
  | BWire (Auto n) o => (2, n, o)
  end.

Definition key_le (a b : nat * nat * nat) : Prop :=
  a.1.1 < b.1.1 \/ (a.1.1 = b.1.1 /\ (a.1.2 < b.1.2 \/ (a.1.2 = b.1.2 /\ a.2 <= b.2))).

Definition SigBit_le (a b : SigBit) : Prop := key_le (SigBit_key a) (SigBit_key b).

Global Instance SigBit_le_dec : RelDecision SigBit_le.
Proof. intros a b. unfold SigBit_le, key_le. apply _. Defined.

(** [SigSpec::sort] *)
Definition sig_sort (sig : SigSpec) : SigSpec := merge_sort SigBit_le sig.

(** [std::unique]: one bit of every run of equal bits. *)
Fixpoint unique (sig : SigSpec) : SigSpec :=
  match sig with
  | [] => []
  | x :: rest =>
      match rest with
      | y :: _ => if decide (x = y) then unique rest else x :: unique rest
      | [] => [x]
      end
  end.

(** [SigSpec::sort_and_unify] *)
Definition sort_and_unify (sig : SigSpec) : SigSpec := unique (sig_sort sig).

(** [SigSpec::chunks]: the maximal runs of constants, and of consecutive bits
    of one wire; each chunk is given as the signal of its bits. *)
Definition continues (prev next : SigBit) : bool :=
  match prev, next with
  | BConst _, BConst _ => true
  | BWire w o, BWire w' o' => bool_decide (w = w') && bool_decide (o' = S o)
  | _, _ => false
  end.

Fixpoint chunks (sig : SigSpec) : list SigSpec :=
  match sig with
  | [] => []
  | b :: rest =>
      match chunks rest with
      | (b' :: c) :: cs =>
          if continues b b' then (b :: b' :: c) :: cs else [b] :: (b' :: c) :: cs
      | cs => [b] :: cs
      end
  end.

(** ** The elaborated AST, as the frontend reads it *)

Module ast.

Inductive logic_t := L0 | L1 | LX | LZ.

Record SVInt := mkSVInt {
  svint_signed : bool;
  svint_bits : list logic_t
}.

Inductive ConstantValue :=
  | CV_Integer (v : SVInt)
  | CV_Unpacked (elements : list ConstantValue)
  | CV_String (as_int : SVInt)
  | CV_Other.

(** [slang::ConstantRange] *)
Record ConstantRange := mkRange { left : Z; right : Z }.

Definition range_width (r : ConstantRange) : nat := Z.to_nat (Z.abs (left r - right r) + 1).
Definition lower (r : ConstantRange) : Z := Z.min (left r) (right r).
Definition upper (r : ConstantRange) : Z := Z.max (left r) (right r).
Definition isLittleEndian (r : ConstantRange) : bool := (right r <=? left r)%Z.
Definition translateIndex (r : ConstantRange) (index : Z) : Z :=
  if isLittleEndian r then (index - lower r)%Z else (upper r - index)%Z.

(** [ast::Type], the observers the frontend calls. *)
Record Type_ := mkType {
  getBitstreamWidth : nat;
  getBitWidth : nat;
  isSigned : bool;
  isFixedSize : bool;
  isIntegral : bool;
  isArray : bool;
  fixedRange : option ConstantRange
}.

Definition hasFixedRange (t : Type_) : bool := bool_decide (is_Some (fixedRange t)).

Inductive SymbolKind :=
  | SK_Net | SK_Variable | SK_Parameter | SK_FormalArgument | SK_Field
  | SK_InstanceBody | SK_Other.

Global Instance SymbolKind_eq_dec : EqDecision SymbolKind.
Proof. solve_decision. Defined.

(** A symbol: its kind, its hierarchical path (interned), the kind of the
    symbol of its parent scope and, for a value symbol, whether it has an
    initializer and the constant of that initializer. *)
Record Symbol := mkSymbol {
  sym_kind : SymbolKind;
  sym_path : nat;
  sym_parent_kind : SymbolKind;
  sym_initializer : option (option ConstantValue)
}.

(** The member of a [MemberAccessExpression]. *)
Record Member := mkMember {
  member_kind : SymbolKind;
  randMode_None : bool;
  bitOffset : nat
}.

Inductive UnaryOperator :=
  | Plus | Minus | BitwiseNot | BitwiseAnd | BitwiseOr | BitwiseXor
  | BitwiseNand | BitwiseNor | BitwiseXnor | LogicalNot
  | Preincrement | Predecrement | Postincrement | Postdecrement.

Inductive BinaryOperator :=
  | Add | Subtract | Multiply | Divide | Mod
  | BinaryAnd | BinaryOr | BinaryXor | BinaryXnor
  | Equality | Inequality | CaseEquality | CaseInequality
  | GreaterThanEqual | GreaterThan | LessThanEqual | LessThan
  | WildcardEquality | WildcardInequality
  | LogicalAnd | LogicalOr | LogicalImplication | LogicalEquivalence
  | LogicalShiftLeft | LogicalShiftRight
  | ArithmeticShiftLeft | ArithmeticShiftRight | Power.

Inductive RangeSelectionKind := Simple | IndexedUp | IndexedDown.

Global Instance RangeSelectionKind_eq_dec : EqDecision RangeSelectionKind.
Proof. solve_decision. Defined.

(** What a call refers to: a system subroutine, or a user subroutine of the
    compilation (an index into its table of subroutines). *)
Inductive Callee :=
  | SystemCall
  | UserCall (subroutine : nat).

Record ExprInfo := mkInfo {
  type : Type_;
  constant : option ConstantValue
}.

Inductive Expression :=
  | NamedValue (i : ExprInfo) (symbol : Symbol)
  | UnaryOp (i : ExprInfo) (op : UnaryOperator) (operand : Expression)
  | BinaryOp (i : ExprInfo) (op : BinaryOperator) (lhs rhs : Expression)
  | Conversion (i : ExprInfo) (operand : Expression)
  | IntegerLiteral (i : ExprInfo) (value : SVInt)
  | RangeSelect (i : ExprInfo) (kind : RangeSelectionKind)
      (value sel_left sel_right : Expression)
  | ElementSelect (i : ExprInfo) (value selector : Expression)
  | Concatenation (i : ExprInfo) (operands : list Expression)
  | ConditionalOp (i : ExprInfo) (conditions : list Expression) (patterns : list bool)
      (if_true if_false : Expression)
  | Replication (i : ExprInfo) (count concat : Expression)
  | MemberAccess (i : ExprInfo) (value : Expression) (member : Member)
  | Call (i : ExprInfo) (callee : Callee) (name : string) (arguments : list Expression)
  | Assignment (i : ExprInfo) (nonblocking : bool) (lhs rhs : Expression)
  | StringLiteral (i : ExprInfo) (value : string)
  | EmptyArgument (i : ExprInfo)
  | OtherExpression (i : ExprInfo).

Definition info (e : Expression) : ExprInfo :=
  match e with
  | NamedValue i _ | UnaryOp i _ _ | BinaryOp i _ _ _ | Conversion i _
  | IntegerLiteral i _ | RangeSelect i _ _ _ _ | ElementSelect i _ _
  | Concatenation i _ | ConditionalOp i _ _ _ _ | Replication i _ _
  | MemberAccess i _ _ | Call i _ _ _ | Assignment i _ _ _
  | StringLiteral i _ | EmptyArgument i | OtherExpression i => i
  end.

Definition type_of (e : Expression) : Type_ := type (info e).
Definition constant_of (e : Expression) : option ConstantValue := constant (info e).

Inductive EdgeKind := NoEdge | PosEdge | NegEdge | BothEdges.

Inductive TimingControl :=
  | SignalEvent (expr : Expression) (edge : EdgeKind) (iffCondition : bool)
  | ImplicitEvent
  | EventList (events : list TimingControl)
  | OtherTiming.

Inductive Statement :=
  | ExpressionStatement (expr : Expression)
  | BlockStatement (sequential : bool) (body : Statement)
  | StatementList (stmts : list Statement)
  | ConditionalStatement (conditions : list Expression) (patterns : list bool)
      (ifTrue : Statement) (ifFalse : option Statement)
  | CaseStatement (condition_Normal : bool) (check_None : bool) (expr : Expression)
      (items : list (list Expression * Statement)) (defaultCase : option Statement)
  | TimedStatement (timing : TimingControl) (stmt : Statement)
  | InvalidStatement
  | EmptyStatement
  | VariableDeclStatement
  | OtherStatement.

Record Subroutine := mkSubroutine {
  subroutineKind_Function : bool;
  getArguments : list Symbol;
  getBody : Statement;
  returnValVar : Symbol
}.

Inductive ProceduralBlockKind :=
  | Initial | Final | Always | AlwaysComb | AlwaysLatch | AlwaysFF.

Record ProceduralBlockSymbol := mkProceduralBlock {
  procedureKind : ProceduralBlockKind;
  blockBody : Statement
}.

End ast.

Import ast.

(** ** slang_frontend.cc: constants and assignment targets *)

Definition svint_const (svint : SVInt) : Const :=
  (fun l => match l with L0 => S0 | L1 => S1 | LX => Sx | LZ => Sz end)
    <$> svint_bits svint.

(** [ConstantValue::integer()] *)
Definition integer {St} (cv : ConstantValue) : M St SVInt :=
  match cv with
  | CV_Integer v => ret v
  | _ => fail Exception
  end.

(** [SVInt::as<int>().value()] *)
Definition svint_as_int {St} (v : SVInt) : M St Z :=
  let c := svint_const v in
  if negb (forallb Calc.is_def c) then fail Exception
  else
    let z := Calc.const2big c (svint_signed v) in
    if bool_decide (- 2 ^ 31 <= z < 2 ^ 31)%Z then ret z else fail Exception.

(** [e.constant->integer().as<int>().value()] under [require(e.constant)] *)
Definition constant_int {St} (e : Expression) : M St Z :=
  match constant_of e with
  | None => fail Unimplemented
  | Some cv => v <- integer cv ;; svint_as_int v
  end.

Definition net_id (sym : Symbol) : IdString := Public (sym_path sym).

(** [ceil_log2] of the IR's utilities. *)
Definition ceil_log2 (x : nat) : nat := Nat.log2_up x.

(** [mod->wire(net_id(sym))], [log_assert(wire)], and the wire as a signal *)
Definition wire_signal (sym : Symbol) : M Module SigSpec :=
  w <- wire (net_id sym) ;;
  match w with
  | None => fail (AssertFailed A_wire)
  | Some w => ret (sig_of_wire (net_id sym) (width w))
  end.

(** The constant bounds and the stride of a simple range select. *)
Definition range_select_bounds {St} (expr : Expression) (kind : RangeSelectionKind)
    (value sel_left sel_right : Expression) : M St (Z * Z * nat * ConstantRange) :=
  require (bool_decide (kind = Simple)) ;;
  require (bool_decide (is_Some (constant_of sel_left))
           && bool_decide (is_Some (constant_of sel_right))) ;;
  left <- constant_int sel_left ;;
  right <- constant_int sel_right ;;
  match fixedRange (type_of value) with
  | None => fail Unimplemented
  | Some range =>
      let raw_left := translateIndex range left in
      let raw_right := translateIndex range right in
      log_assert A_stride
        (bool_decide (getBitstreamWidth (type_of value) mod range_width range = 0)) ;;
      let stride := getBitstreamWidth (type_of value) / range_width range in
      ret (raw_left, raw_right, stride, range)
  end.

Fixpoint evaluate_lhs (expr : Expression) : M Module SigSpec :=
  let done (ret_ : SigSpec) : M Module SigSpec :=
    log_assert A_lhs_fixed_size (isFixedSize (type_of expr)) ;;
    log_assert A_lhs_width
      (bool_decide (length ret_ = getBitstreamWidth (type_of expr))) ;;
    ret ret_ in
  match expr with
  | NamedValue _ sym =>
      r <- wire_signal sym ;; done r
  | RangeSelect _ kind value sel_left sel_right =>
      b <- range_select_bounds expr kind value sel_left sel_right ;;
      let '(raw_left, raw_right, stride, _) := b in
      v <- evaluate_lhs value ;;
      r <- extract v (raw_right * Z.of_nat stride)
                     (Z.of_nat stride * (raw_left - raw_right + 1)) ;;
      done r
  | Concatenation _ operands =>
      r <- (fix concat (ops : list Expression) (acc : SigSpec) : M Module SigSpec :=
              match ops with
              | [] => ret acc
              | op :: ops' => v <- evaluate_lhs op ;; concat ops' (v ++ acc)
              end) operands [] ;;
      done r
  | ElementSelect _ value selector =>
      require (bool_decide (is_Some (constant_of selector))) ;;
      require (isArray (type_of value) && hasFixedRange (type_of value)) ;;
      idx <- constant_int selector ;;
      let stride := getBitstreamWidth (type_of expr) in
      match fixedRange (type_of value) with
      | None => fail Unimplemented
      | Some range =>
          let raw_idx := translateIndex range idx in
          v <- evaluate_lhs value ;;
          r <- extract v (Z.of_nat stride * raw_idx) (Z.of_nat stride) ;;
          done r
      end
  | MemberAccess _ value member =>
      require (bool_decide (member_kind member = SK_Field)) ;;
      require (randMode_None member) ;;
      v <- evaluate_lhs value ;;
      extract v (Z.of_nat (bitOffset member))
                (Z.of_nat (getBitstreamWidth (type_of expr)))
  | _ => fail Unimplemented
  end.

(** ** slang_frontend.cc: rvalues *)

Record ProcedureContext := mkContext {
  rvalue_subs : gmap SigBit SigBit;
  args : gmap nat SigSpec
}.

(** The cell type of a unary operator and whether the result is inverted;
    [None] is the [default:] of the switch. *)
Definition unary_type (op : UnaryOperator) : option (CellType * bool) :=
  match op with
  | LogicalNot => Some (ID_logic_not, false)
  | BitwiseNot => Some (ID_not, false)
  | BitwiseOr => Some (ID_reduce_or, false)
  | BitwiseAnd => Some (ID_reduce_and, false)
  | BitwiseNand => Some (ID_reduce_and, true)
  | BitwiseNor => Some (ID_reduce_or, true)
  | _ => None
  end.

Definition binary_type (op : BinaryOperator) : option CellType :=
  match op with
  | Add => Some ID_add
  | Subtract => Some ID_sub
  | Multiply => Some ID_mul
  | Divide => Some ID_divfloor
  | Mod => Some ID_mod
  | BinaryAnd => Some ID_and
  | BinaryOr => Some ID_or
  | BinaryXor => Some ID_xor
  | BinaryXnor => Some ID_xnor
  | Equality => Some ID_eq
  | Inequality => Some ID_ne
  | GreaterThanEqual => Some ID_ge
  | GreaterThan => Some ID_gt
  | LessThanEqual => Some ID_le
  | LessThan => Some ID_lt
  | LogicalAnd => Some ID_logic_and
  | LogicalOr => Some ID_logic_or
  | LogicalShiftLeft => Some ID_sshl
  | LogicalShiftRight => Some ID_sshr
  | ArithmeticShiftLeft => Some ID_shl
  | ArithmeticShiftRight => Some ID_shr
  | Power => Some ID_pow
  | _ => None
  end.

(** [translate_index] once the index expression is evaluated.  Arguments of a
    call are evaluated left to right. *)
Definition translate_index_of (idx : SigSpec) (idx_signed : bool) (range : ConstantRange)
    : M Module (SigSpec * SigSpec) :=
  let idx := if idx_signed then idx else idx ++ [BConst S0] in
  n_and <- NEW_ID ;;
  n_le <- NEW_ID ;;
  le <- mod_Le n_le idx (sig_of_const (const_of_int (upper range) 32)) true ;;
  n_ge <- NEW_ID ;;
  ge <- mod_Ge n_ge idx (sig_of_const (const_of_int (lower range) 32)) true ;;
  valid <- mod_LogicAnd n_and le ge ;;
  n_sub <- NEW_ID ;;
  raw_idx <-
    (if bool_decide (right range < left range)%Z
     then mod_Sub n_sub idx (sig_of_const (const_of_int (right range) 32)) true
     else mod_Sub n_sub (sig_of_const (const_of_int (right range) 32)) idx true) ;;
  ret (extend_u0 raw_idx (ceil_log2 (range_width range)) false, valid).

Section Lowering.

(** The compilation's subroutines, and [evaluate_function] for the calls
    met while lowering (bound below, with the depth of inlining). *)
Variable subroutines : nat -> option Subroutine.
Variable evaluate_function :
  Subroutine -> list Expression -> option ProcedureContext -> M Module SigSpec.

Fixpoint evaluate_rhs (ctx : option ProcedureContext) (expr : Expression)
    : M Module SigSpec :=
  let done (ret_ : SigSpec) : M Module SigSpec :=
    log_assert A_rhs_fixed_size (isFixedSize (type_of expr)) ;;
    log_assert A_rhs_width
      (bool_decide (length ret_ = getBitstreamWidth (type_of expr))) ;;
    ret ret_ in
  match constant_of expr with
  | Some cv => v <- integer cv ;; done (sig_of_const (svint_const v))
  | None =>
  match expr with
  | NamedValue _ sym =>
      match sym_kind sym with
      | SK_Net | SK_Variable =>
          require (bool_decide (sym_parent_kind sym = SK_InstanceBody)) ;;
          r <- wire_signal sym ;;
          done (match ctx with
                | Some c => sig_replace (rvalue_subs c) r
                | None => r
                end)
      | SK_Parameter =>
          match sym_initializer sym with
          | Some (Some (CV_Integer v)) => done (sig_of_const (svint_const v))
          | _ => fail Unimplemented
          end
      | SK_FormalArgument =>
          match ctx with
          | Some c =>
              match args c !! sym_path sym with
              | Some r => done r
              | None => fail Unimplemented
              end
          | None => fail Unimplemented
          end
      | _ => fail Unimplemented
      end
  | UnaryOp _ op operand =>
      left <- evaluate_rhs ctx operand ;;
      match unary_type op with
      | None => fail Unimplemented
      | Some (type, invert) =>
          name <- NEW_ID ;;
          cell <- addCell name type ;;
          setPort cell P_A left ;;
          setParam cell A_WIDTH (PSize left) ;;
          setParam cell A_SIGNED (PBool (isSigned (type_of operand))) ;;
          setParam cell Y_WIDTH (PInt (Z.of_nat (getBitstreamWidth (type_of expr)))) ;;
          yname <- NEW_ID ;;
          r <- addWire yname (getBitstreamWidth (type_of expr)) ;;
          setPort cell P_Y r ;;
          (if invert then
             nname <- NEW_ID ;;
             new_ret <- addWire nname 1 ;;
             iname <- NEW_ID ;;
             addLogicNot iname r new_ret false ;;
             ret tt
           else ret tt) ;;
          done r
      end
  | BinaryOp _ op lhs rhs =>
      left <- evaluate_rhs ctx lhs ;;
      right <- evaluate_rhs ctx rhs ;;
      match binary_type op with
      | None => fail Unimplemented
      | Some type =>
          name <- NEW_ID ;;
          cell <- addCell name type ;;
          setPort cell P_A left ;;
          setPort cell P_B right ;;
          setParam cell A_WIDTH (PSize left) ;;
          setParam cell B_WIDTH (PSize right) ;;
          setParam cell A_SIGNED (PBool (isSigned (type_of lhs))) ;;
          setParam cell B_SIGNED (PBool (isSigned (type_of rhs))) ;;
          setParam cell Y_WIDTH (PInt (Z.of_nat (getBitWidth (type_of expr)))) ;;
          yname <- NEW_ID ;;
          r <- addWire yname (getBitstreamWidth (type_of expr)) ;;
          setPort cell P_Y r ;;
          (if bool_decide (type = ID_shr) then setParam cell B_SIGNED (PBool false)
           else ret tt) ;;
          (if bool_decide (type = ID_sshr) || bool_decide (type = ID_sshl) then
             setParam cell A_SIGNED (PBool false) ;;
             setParam cell B_SIGNED (PBool false)
           else ret tt) ;;
          done r
      end
  | Conversion _ operand =>
      let from := type_of operand in
      let to := type_of expr in
      require (isIntegral from) ;;
      require (isIntegral to) ;;
      require (bool_decide (isSigned from = isSigned to)
               || bool_decide (getBitWidth to <= getBitWidth from)) ;;
      r <- evaluate_rhs ctx operand ;;
      done (extend_u0 r (getBitWidth to) (isSigned to))
  | IntegerLiteral _ value =>
      done (sig_of_const (svint_const value))
  | RangeSelect _ kind value sel_left sel_right =>
      b <- range_select_bounds expr kind value sel_left sel_right ;;
      let '(raw_left, raw_right, stride, _) := b in
      v <- evaluate_rhs ctx value ;;
      r <- extract v (raw_right * Z.of_nat stride)
                     (Z.of_nat stride * (raw_left - raw_right + 1)) ;;
      done r
  | ElementSelect _ value selector =>
      require (isArray (type_of value) && hasFixedRange (type_of value)) ;;
      let stride := getBitstreamWidth (type_of expr) in
      base_value <- evaluate_rhs ctx value ;;
      log_assert A_stride (bool_decide (length base_value mod stride = 0)) ;;
      match fixedRange (type_of value) with
      | None => fail Unimplemented
      | Some range =>
          idx <- evaluate_rhs ctx selector ;;
          iv <- translate_index_of idx (isSigned (type_of selector)) range ;;
          let raw_idx := iv.1 in
          let valid := iv.2 in
          log_assert A_bmux_pad
            (bool_decide (length base_value <= stride * 2 ^ length raw_idx)) ;;
          let base_value :=
            base_value ++ sig_fill Sx (stride * 2 ^ length raw_idx - length base_value) in
          n_mux <- NEW_ID ;;
          n_bmux <- NEW_ID ;;
          picked <- mod_Bmux n_bmux base_value raw_idx ;;
          r <- mod_Mux n_mux (sig_fill Sx stride) picked valid ;;
          done r
      end
  | Concatenation _ operands =>
      r <- (fix concat (ops : list Expression) (acc : SigSpec) : M Module SigSpec :=
              match ops with
              | [] => ret acc
              | op :: ops' => v <- evaluate_rhs ctx op ;; concat ops' (v ++ acc)
              end) operands [] ;;
      done r
  | ConditionalOp _ conditions patterns if_true if_false =>
      match conditions, patterns with
      | [cond], [pattern] =>
          require (negb pattern) ;;
          n_mux <- NEW_ID ;;
          a <- evaluate_rhs ctx if_false ;;
          b <- evaluate_rhs ctx if_true ;;
          n_red <- NEW_ID ;;
          c <- evaluate_rhs ctx cond ;;
          s <- mod_ReduceBool n_red c false ;;
          r <- mod_Mux n_mux a b s ;;
          done r
      | _, _ => fail Unimplemented
      end
  | Replication _ count concat =>
      require (bool_decide (is_Some (constant_of count))) ;;
      reps <- constant_int count ;;
      c <- evaluate_rhs ctx concat ;;
      done (sig_repeat c (Z.to_nat reps))
  | MemberAccess _ value member =>
      require (bool_decide (member_kind member = SK_Field)) ;;
      require (randMode_None member) ;;
      v <- evaluate_rhs ctx value ;;
      extract v (Z.of_nat (bitOffset member))
                (Z.of_nat (getBitstreamWidth (type_of expr)))
  | Call _ SystemCall name arguments =>
      require (bool_decide (name = "$signed"%string)) ;;
      match arguments with
      | [arg] => r <- evaluate_rhs ctx arg ;; done r
      | _ => fail Unimplemented
      end
  | Call _ (UserCall f) name arguments =>
      match subroutines f with
      | None => fail Exception
      | Some subr =>
          require (subroutineKind_Function subr) ;;
          evaluate_function subr arguments ctx
      end
  | _ => fail Unimplemented
  end
  end.

Definition translate_index (idxexpr : Expression) (range : ConstantRange)
    (ctx : option ProcedureContext) : M Module (SigSpec * SigSpec) :=
  idx <- evaluate_rhs ctx idxexpr ;;
  translate_index_of idx (isSigned (type_of idxexpr)) range.

End Lowering.

(** ** slang_frontend.cc: processes, case rules and switch rules *)

(** [new RTLIL::CaseRule], [new RTLIL::SwitchRule] *)
Definition new_CaseRule : M Module nat :=
  fun m => Ok (heap_top m,
               set_heap_top (S (heap_top m))
                 (set_case_rules (<[heap_top m := mkCaseRule [] [] []]> (case_rules m)) m)).

Definition new_SwitchRule : M Module nat :=
  fun m => Ok (heap_top m,
               set_heap_top (S (heap_top m))
                 (set_switch_rules (<[heap_top m := mkSwitchRule [] []]> (switch_rules m)) m)).

Definition update_case (c : nat) (f : CaseRule -> CaseRule) : M Module unit :=
  modify (fun m => set_case_rules (alter f c (case_rules m)) m).

Definition update_switch (s : nat) (f : SwitchRule -> SwitchRule) : M Module unit :=
  modify (fun m => set_switch_rules (alter f s (switch_rules m)) m).

(** [rule->actions.push_back(action)] *)
Definition push_action (c : nat) (action : SigSig) : M Module unit :=
  update_case c (fun r => mkCaseRule (compare r) (actions r ++ [action]) (switches r)).

(** [rule->switches.push_back(sw)] *)
Definition push_switch (c : nat) (s : nat) : M Module unit :=
  update_case c (fun r => mkCaseRule (compare r) (actions r) (switches r ++ [s])).

Definition set_compare (c : nat) (cmp : list SigSpec) : M Module unit :=
  update_case c (fun r => mkCaseRule cmp (actions r) (switches r)).

(** [sw->cases.push_back(rule)], [sw->signal = signal] *)
Definition push_case (s : nat) (c : nat) : M Module unit :=
  update_switch s (fun r => mkSwitchRule (signal r) (cases r ++ [c])).

Definition set_signal (s : nat) (sig : SigSpec) : M Module unit :=
  update_switch s (fun r => mkSwitchRule sig (cases r)).

(** [Module::addProcess(name)]: a process with an empty root case and no
    sync rule. *)
Definition addProcess (name : IdString) : M Module IdString :=
  root <- new_CaseRule ;;
  modify (fun m => set_processes (<[name := mkProcess root []]> (processes m)) m) ;;
  ret name.

Definition get_process (p : IdString) : M Module Process :=
  fun m => match processes m !! p with
           | Some pr => Ok (pr, m)
           | None => Fail (AssertFailed A_abort)
           end.

Definition update_process (p : IdString) (f : Process -> Process) : M Module unit :=
  modify (fun m => set_processes (alter f p (processes m)) m).

(** [proc->syncs.push_back(sync)] *)
Definition push_sync (p : IdString) (sync : SyncRule) : M Module unit :=
  update_process p (fun pr => mkProcess (root_case pr) (syncs pr ++ [sync])).

(** [for (auto sync : proc->syncs) sync->actions.push_back(action)] *)
Definition push_sync_action (p : IdString) (action : SigSig) : M Module unit :=
  update_process p (fun pr =>
    mkProcess (root_case pr)
      ((fun s => mkSyncRule (sync_type s) (sync_signal s) (sync_actions s ++ [action]))
         <$> syncs pr)).

(** ** slang_frontend.cc: the procedural visitor *)

Inductive Mode := ALWAYS | FUNCTION.

Record ProceduralVisitor := mkVisitor {
  mod_ : Module;
  proc : IdString;
  current_case : nat;
  ctx : ProcedureContext;
  assigned_blocking : gset SigBit;
  assigned_nonblocking : gset SigBit;
  print_priority : Z;
  mode : Mode;
  staging : gmap SigBit SigBit
}.

Definition set_mod (m : Module) (v : ProceduralVisitor) : ProceduralVisitor :=
  mkVisitor m (proc v) (current_case v) (ctx v) (assigned_blocking v)
            (assigned_nonblocking v) (print_priority v) (mode v) (staging v).
Definition set_current_case (c : nat) (v : ProceduralVisitor) : ProceduralVisitor :=
  mkVisitor (mod_ v) (proc v) c (ctx v) (assigned_blocking v)
            (assigned_nonblocking v) (print_priority v) (mode v) (staging v).
Definition set_ctx (c : ProcedureContext) (v : ProceduralVisitor) : ProceduralVisitor :=
  mkVisitor (mod_ v) (proc v) (current_case v) c (assigned_blocking v)
            (assigned_nonblocking v) (print_priority v) (mode v) (staging v).
Definition set_rvalue_subs (s : gmap SigBit SigBit) (v : ProceduralVisitor)
    : ProceduralVisitor :=
  set_ctx (mkContext s (args (ctx v))) v.
Definition set_assigned_blocking (s : gset SigBit) (v : ProceduralVisitor)
    : ProceduralVisitor :=
  mkVisitor (mod_ v) (proc v) (current_case v) (ctx v) s
            (assigned_nonblocking v) (print_priority v) (mode v) (staging v).
Definition set_assigned_nonblocking (s : gset SigBit) (v : ProceduralVisitor)
    : ProceduralVisitor :=
  mkVisitor (mod_ v) (proc v) (current_case v) (ctx v) (assigned_blocking v)
            s (print_priority v) (mode v) (staging v).
Definition set_print_priority (p : Z) (v : ProceduralVisitor) : ProceduralVisitor :=
  mkVisitor (mod_ v) (proc v) (current_case v) (ctx v) (assigned_blocking v)
            (assigned_nonblocking v) p (mode v) (staging v).
Definition set_staging (s : gmap SigBit SigBit) (v : ProceduralVisitor)
    : ProceduralVisitor :=
  mkVisitor (mod_ v) (proc v) (current_case v) (ctx v) (assigned_blocking v)
            (assigned_nonblocking v) (print_priority v) (mode v) s.

(** An operation on the module, done through the visitor's [mod]. *)
Definition on_mod {A} (c : M Module A) : M ProceduralVisitor A :=
  fun v => match c (mod_ v) with
           | Ok (a, m) => Ok (a, set_mod m v)
           | Fail e => Fail e
           end.

(** The constructor [ProceduralVisitor(mod, proc, mode)] *)
Definition new_visitor (p : IdString) (md : Mode) : M Module ProceduralVisitor :=
  pr <- get_process p ;;
  top_switch <- new_SwitchRule ;;
  push_switch (root_case pr) top_switch ;;
  current <- new_CaseRule ;;
  push_case top_switch current ;;
  m <- get ;;
  ret (mkVisitor m p current (mkContext ∅ ∅) ∅ ∅ 0 md ∅).

(** Running a visitor made on the current module, and taking the module
    back from it. *)
Definition with_visitor {A} (p : IdString) (md : Mode) (body : M ProceduralVisitor A)
    : M Module (A * ProceduralVisitor) :=
  v <- new_visitor p md ;;
  fun _ => match body v with
           | Ok (a, v') => Ok ((a, v'), mod_ v')
           | Fail e => Fail e
           end.

(** [for (i = 0; i < chunk.size(); i++) map[chunk[i]] = w[i]] *)
Definition assign_bits (keys vals : SigSpec) (map : gmap SigBit SigBit)
    : gmap SigBit SigBit :=
  foldl (fun m kv => <[kv.1 := kv.2]> m) map (zip keys vals).

(** [SigPool::add], [SigPool::check_any] *)
Definition pool_add (sig : SigSpec) (pool : gset SigBit) : gset SigBit :=
  pool ∪ list_to_set (filter (fun b => is_wire b = true) sig).

Definition pool_check_any (sig : SigSpec) (pool : gset SigBit) : bool :=
  existsb (fun b => is_wire b && bool_decide (b ∈ pool)) sig.

Definition staging_signal (lvalue : SigSpec) : M ProceduralVisitor SigSpec :=
  log_assert A_staging_wire (forallb is_wire lvalue) ;;
  v <- get ;;
  let to_create :=
    sort_and_unify (filter (fun bit => staging v !! bit = None) lvalue) in
  for_each (chunks to_create) (fun chunk =>
    name <- on_mod NEW_ID ;;
    w <- on_mod (addWire name (length chunk)) ;;
    modify (fun v => set_staging (assign_bits chunk w (staging v)) v)) ;;
  v <- get ;;
  ret (sig_replace (staging v) lvalue).

Definition staging_done : M ProceduralVisitor unit :=
  v <- get ;;
  let all_driven := sort_and_unify ((map_to_list (staging v)).*1) in
  pr <- on_mod (get_process (proc v)) ;;
  for_each (chunks all_driven) (fun chunk =>
    let mapped := sig_replace (staging v) chunk in
    on_mod (push_sync_action (proc v) (chunk, mapped)) ;;
    on_mod (push_action (root_case pr) (mapped, chunk))).

(** [context_enable] *)
Definition context_enable : M ProceduralVisitor SigSpec :=
  name <- on_mod NEW_ID ;;
  r <- on_mod (addWire name 1) ;;
  v <- get ;;
  pr <- on_mod (get_process (proc v)) ;;
  on_mod (push_action (root_case pr) (r, [BConst S0])) ;;
  on_mod (push_action (current_case v) (r, [BConst S1])) ;;
  ret r.

(** The loop of [set_cell_trigger] over the sync rules:
    [(implicit, triggers, polarity)]. *)
Fixpoint collect_triggers {St} (syncs : list SyncRule) (acc : bool * SigSpec * Const)
    : M St (bool * SigSpec * Const) :=
  match syncs with
  | [] => ret acc
  | sync :: rest =>
      let '(implicit, triggers, polarity) := acc in
      match sync_type sync with
      | STn | STp =>
          log_assert A_trigger (bool_decide (length (sync_signal sync) = 1)) ;;
          collect_triggers rest
            (implicit, triggers ++ sync_signal sync,
             polarity ++ [if bool_decide (sync_type sync = STp) then S1 else S0])
      | STa => collect_triggers rest (true, triggers, polarity)
      | _ => fail (AssertFailed A_abort)
      end
  end.

Definition set_cell_trigger (cell : IdString) : M ProceduralVisitor unit :=
  v <- get ;;
  pr <- on_mod (get_process (proc v)) ;;
  t <- collect_triggers (syncs pr) (false, [], []) ;;
  let '(implicit, triggers, polarity) := t in
  log_assert A_trigger (negb (bool_decide (triggers = [])) || implicit) ;;
  log_assert A_trigger (negb (negb (bool_decide (triggers = [])) && implicit)) ;;
  on_mod (setParam cell TRG_ENABLE (PBool (negb implicit))) ;;
  on_mod (setParam cell TRG_WIDTH (PSize triggers)) ;;
  on_mod (setParam cell TRG_POLARITY (PConst polarity)) ;;
  on_mod (setPort cell P_TRG triggers) ;;
  en <- context_enable ;;
  on_mod (setPort cell P_EN en).

(** [crop_zero_mask]: from the top position down, the positions where the
    mask is zero are removed from the target.  (Where the source passes the
    mask as its own target, the positions still to visit lie below the ones
    removed, so the mask read is the original one.) *)
Fixpoint crop_zero_mask_from (i : nat) (mask target : SigSpec) : SigSpec :=
  match i with
  | O => target
  | S i' =>
      crop_zero_mask_from i' mask
        (if decide (mask !!! i' = BConst S0) then sig_remove target i' 1 else target)
  end.

Definition crop_zero_mask (mask target : SigSpec) : SigSpec :=
  crop_zero_mask_from (length mask) mask target.

(** The end of an assignment (after the lvalue is etched and masked): the
    substitution of a blocking assignment, the bookkeeping of the two pools,
    and the action on the current case. *)
Definition assign (blocking : bool) (lvalue masked_rvalue : SigSpec)
    : M ProceduralVisitor unit :=
  log_assert A_size (bool_decide (length lvalue = length masked_rvalue)) ;;
  v <- get ;;
  (if blocking then
     modify (fun v => set_rvalue_subs
               (assign_bits lvalue masked_rvalue (rvalue_subs (ctx v))) v) ;;
     log_assert A_mixed_assign (negb (pool_check_any lvalue (assigned_nonblocking v))) ;;
     modify (fun v => set_assigned_blocking (pool_add lvalue (assigned_blocking v)) v)
   else
     log_assert A_mixed_assign (negb (pool_check_any lvalue (assigned_blocking v))) ;;
     modify (fun v => set_assigned_nonblocking
               (pool_add lvalue (assigned_nonblocking v)) v)) ;;
  target <- staging_signal lvalue ;;
  v <- get ;;
  on_mod (push_action (current_case v) (target, masked_rvalue)).

(** *** SwitchBuilder *)

Record SwitchBuilder := mkSwitchBuilder {
  parent : nat;
  sw : nat;
  rvalue_subs_save : gmap SigBit SigBit;
  branch_updates : list (nat * SigSig)
}.

Definition new_SwitchBuilder (parent : nat) (sig : SigSpec)
    : M ProceduralVisitor SwitchBuilder :=
  v <- get ;;
  s <- on_mod new_SwitchRule ;;
  on_mod (set_signal s sig) ;;
  on_mod (push_switch parent s) ;;
  ret (mkSwitchBuilder parent s (rvalue_subs (ctx v)) []).

(** The keys of [subs] whose binding is not the one of [save]. *)
Definition updated_keys (save subs : gmap SigBit SigBit) : SigSpec :=
  (map_to_list (filter (fun kv => save !! kv.1 <> Some kv.2) subs)).*1.

Definition branch (b : SwitchBuilder) (cmp : list SigSpec)
    (f : nat -> M ProceduralVisitor unit) : M ProceduralVisitor SwitchBuilder :=
  case_rule <- on_mod new_CaseRule ;;
  on_mod (push_case (sw b) case_rule) ;;
  on_mod (set_compare case_rule cmp) ;;
  f case_rule ;;
  v <- get ;;
  let update := sig_sort (updated_keys (rvalue_subs_save b) (rvalue_subs (ctx v))) in
  let update_map := sig_replace (rvalue_subs (ctx v)) update in
  modify (set_rvalue_subs (rvalue_subs_save b)) ;;
  ret (mkSwitchBuilder (parent b) (sw b) (rvalue_subs_save b)
         (branch_updates b ++ [(case_rule, (update, update_map))])).

(** The inner loop of [finish] over the chunks of a branch's targets. *)
Fixpoint finish_branch (rule : nat) (chunks_ : list SigSpec) (source : SigSpec)
    (done : nat) : M ProceduralVisitor unit :=
  match chunks_ with
  | [] => ret tt
  | chunk :: rest =>
      v <- get ;;
      let target_w := sig_replace (rvalue_subs (ctx v)) chunk in
      src <- extract source (Z.of_nat done) (Z.of_nat (length chunk)) ;;
      on_mod (push_action rule (target_w, src)) ;;
      finish_branch rule rest source (done + length chunk)
  end.

Definition finish (b : SwitchBuilder) : M ProceduralVisitor unit :=
  let updated_anybranch :=
    sort_and_unify (mjoin ((fun br => br.2.1) <$> branch_updates b)) in
  for_each (chunks updated_anybranch) (fun chunk =>
    name <- on_mod NEW_ID ;;
    w <- on_mod (addWire name (length chunk)) ;;
    v <- get ;;
    let w_default := sig_replace (rvalue_subs (ctx v)) chunk in
    on_mod (push_action (parent b) (w, w_default)) ;;
    modify (fun v => set_rvalue_subs (assign_bits chunk w (rvalue_subs (ctx v))) v)) ;;
  for_each (branch_updates b) (fun br =>
    finish_branch br.1 (chunks br.2.1) br.2.2 0).

(** The end of [handle(ConditionalStatement)] and [handle(CaseStatement)]:
    back to the saved case, then down into an empty switch. *)
Definition descend (case_save : nat) : M ProceduralVisitor unit :=
  modify (set_current_case case_save) ;;
  dummy_switch <- on_mod new_SwitchRule ;;
  on_mod (push_switch case_save dummy_switch) ;;
  c <- on_mod new_CaseRule ;;
  modify (set_current_case c) ;;
  on_mod (push_case dummy_switch c).

Section Procedures.

Variable subroutines : nat -> option Subroutine.
Variable evaluate_function :
  Subroutine -> list Expression -> option ProcedureContext -> M Module SigSpec.

(** [evaluate_rhs(mod, expr, &ctx)] from inside the visitor *)
Definition eval_rhs (expr : Expression) : M ProceduralVisitor SigSpec :=
  v <- get ;;
  on_mod (evaluate_rhs subroutines evaluate_function (Some (ctx v)) expr).

(** The arguments of [$display]; an integer argument is evaluated. *)
Definition display_arg (arg : Expression) : M ProceduralVisitor unit :=
  match arg with
  | StringLiteral _ _ => ret tt
  | Call _ _ name _ =>
      if bool_decide (name = "$time"%string) || bool_decide (name = "$realtime"%string)
      then ret tt
      else (eval_rhs arg ;; ret tt)
  | _ => eval_rhs arg ;; ret tt
  end.

(** The etching loop of an assignment: the select and member layers of the
    lvalue are peeled, the mask and the rvalue padded to the layer below. *)
Fixpoint etch (raw_lexpr : Expression) (raw_mask raw_rvalue : SigSpec)
    : M ProceduralVisitor (Expression * SigSpec * SigSpec) :=
  let check (lexpr : Expression) (mask rvalue : SigSpec) : M ProceduralVisitor unit :=
    require (bool_decide (length mask = getBitstreamWidth (type_of lexpr))) ;;
    log_assert A_size (bool_decide (length mask = getBitstreamWidth (type_of lexpr))) ;;
    log_assert A_size (bool_decide (length rvalue = getBitstreamWidth (type_of lexpr))) in
  match raw_lexpr with
  | RangeSelect _ kind value sel_left sel_right =>
      b <- range_select_bounds raw_lexpr kind value sel_left sel_right ;;
      let '(raw_left, raw_right, stride, range) := b in
      let above := Z.to_nat (Z.of_nat (range_width range) - raw_left - 1) in
      let below := Z.to_nat raw_right in
      let elem_0 := sig_fill S0 stride in
      let elem_x := sig_fill Sx stride in
      let raw_mask := sig_repeat elem_0 below ++ raw_mask ++ sig_repeat elem_0 above in
      let raw_rvalue := sig_repeat elem_x below ++ raw_rvalue ++ sig_repeat elem_x above in
      check value raw_mask raw_rvalue ;;
      etch value raw_mask raw_rvalue
  | ElementSelect _ value selector =>
      require (isArray (type_of value) && hasFixedRange (type_of value)) ;;
      let stride := getBitstreamWidth (type_of raw_lexpr) in
      match fixedRange (type_of value) with
      | None => fail Unimplemented
      | Some range =>
          v <- get ;;
          iv <- on_mod (translate_index subroutines evaluate_function selector range
                          (Some (ctx v))) ;;
          name <- on_mod NEW_ID ;;
          demuxed <- on_mod (mod_Demux name raw_mask iv.1) ;;
          let raw_mask := extend_u0 demuxed (stride * range_width range) false in
          let raw_rvalue := sig_repeat raw_rvalue (range_width range) in
          check value raw_mask raw_rvalue ;;
          etch value raw_mask raw_rvalue
      end
  | MemberAccess _ value member =>
      require (bool_decide (member_kind member = SK_Field)) ;;
      require (randMode_None member) ;;
      let pad := getBitstreamWidth (type_of value)
                 - getBitstreamWidth (type_of raw_lexpr) - bitOffset member in
      let raw_mask :=
        sig_fill S0 (bitOffset member) ++ raw_mask ++ sig_fill S0 pad in
      let raw_rvalue :=
        sig_fill Sx (bitOffset member) ++ raw_rvalue ++ sig_fill Sx pad in
      check value raw_mask raw_rvalue ;;
      etch value raw_mask raw_rvalue
  | _ =>
      check raw_lexpr raw_mask raw_rvalue ;;
      ret (raw_lexpr, raw_mask, raw_rvalue)
  end.

(** [handle(ExpressionStatement)] *)
Definition handle_ExpressionStatement (expr : Expression) : M ProceduralVisitor unit :=
  match expr with
  | Call _ _ name arguments =>
      if bool_decide (name = "empty_statement"%string) then ret tt
      else if bool_decide (name = "$display"%string) then
        cname <- on_mod NEW_ID ;;
        cell <- on_mod (addCell cname ID_print) ;;
        set_cell_trigger cell ;;
        modify (fun v => set_print_priority (print_priority v - 1) v) ;;
        v <- get ;;
        on_mod (setParam cell PRIORITY (PInt (print_priority v))) ;;
        for_each arguments display_arg
      else fail Unimplemented
  | Assignment _ nonblocking lhs rhs =>
      let blocking := negb nonblocking in
      rvalue <- eval_rhs rhs ;;
      e <- etch lhs (sig_fill S1 (length rvalue)) rvalue ;;
      let '(raw_lexpr, raw_mask, raw_rvalue) := e in
      lvalue <- on_mod (evaluate_lhs raw_lexpr) ;;
      let lvalue := crop_zero_mask raw_mask lvalue in
      let raw_rvalue := crop_zero_mask raw_mask raw_rvalue in
      let raw_mask := crop_zero_mask raw_mask raw_mask in
      masked_rvalue <-
        (if is_fully_ones raw_mask then ret raw_rvalue
         else
           v <- get ;;
           let raw_lvalue_sampled := sig_replace (rvalue_subs (ctx v)) lvalue in
           name <- on_mod NEW_ID ;;
           on_mod (mod_Bwmux name raw_lvalue_sampled raw_rvalue raw_mask)) ;;
      assign blocking lvalue masked_rvalue
  | _ => fail Unimplemented
  end.

(** The statement visitor: [handle] of every statement kind. *)
Fixpoint visit (stmt : Statement) : M ProceduralVisitor unit :=
  match stmt with
  | ExpressionStatement expr => handle_ExpressionStatement expr
  | BlockStatement sequential body =>
      require sequential ;;
      visit body
  | StatementList stmts =>
      (fix visit_list (l : list Statement) : M ProceduralVisitor unit :=
         match l with
         | [] => ret tt
         | s :: l' => visit s ;; visit_list l'
         end) stmts
  | ConditionalStatement conditions patterns ifTrue ifFalse =>
      match conditions, patterns with
      | [cond], [pattern] =>
          require (negb pattern) ;;
          v <- get ;;
          let case_save := current_case v in
          name <- on_mod NEW_ID ;;
          c <- eval_rhs cond ;;
          condition <- on_mod (mod_ReduceBool name c false) ;;
          b <- new_SwitchBuilder case_save condition ;;
          b <- branch b [[BConst S1]] (fun rule =>
                 modify (set_current_case rule) ;;
                 visit ifTrue) ;;
          b <- match ifFalse with
               | Some s =>
                   branch b [] (fun rule =>
                     modify (set_current_case rule) ;;
                     visit s)
               | None => ret b
               end ;;
          finish b ;;
          descend case_save
      | _, _ => fail Unimplemented
      end
  | CaseStatement condition_Normal check_None expr items defaultCase =>
      require condition_Normal ;;
      v <- get ;;
      let case_save := current_case v in
      dispatch <- eval_rhs expr ;;
      b <- new_SwitchBuilder case_save dispatch ;;
      b <- (fix visit_items (its : list (list Expression * Statement)) (b : SwitchBuilder)
              : M ProceduralVisitor SwitchBuilder :=
              match its with
              | [] => ret b
              | (exprs, s) :: its' =>
                  compares <- map_M (fun e =>
                                cmp <- eval_rhs e ;;
                                log_assert A_size
                                  (bool_decide (length cmp = length dispatch)) ;;
                                ret cmp) exprs ;;
                  require (negb (bool_decide (compares = []))) ;;
                  b <- branch b compares (fun rule =>
                         modify (set_current_case rule) ;;
                         visit s) ;;
                  visit_items its' b
              end) items b ;;
      b <- match defaultCase with
           | Some s =>
               branch b [] (fun rule =>
                 modify (set_current_case rule) ;;
                 visit s)
           | None => ret b
           end ;;
      finish b ;;
      descend case_save
  | InvalidStatement => fail (AssertFailed A_abort)
  | EmptyStatement => ret tt
  | VariableDeclStatement => ret tt
  | TimedStatement _ _ => fail Unimplemented
  | OtherStatement => fail Unimplemented
  end.

(** The loop of [evaluate_function] binding the formal arguments. *)
Fixpoint bind_arguments (formals : list Symbol) (actuals : list Expression)
    (ctx : option ProcedureContext) (acc : gmap nat SigSpec)
    : M Module (gmap nat SigSpec) :=
  match formals, actuals with
  | formal :: formals', actual :: actuals' =>
      r <- evaluate_rhs subroutines evaluate_function ctx actual ;;
      bind_arguments formals' actuals' ctx (<[sym_path formal := r]> acc)
  | _, _ => ret acc
  end.

(** [evaluate_function], with the calls inside it left to the parameter. *)
Definition evaluate_function_body (subr : Subroutine) (arguments : list Expression)
    (ctx_ : option ProcedureContext) : M Module SigSpec :=
  log_assert A_abort (subroutineKind_Function subr) ;;
  name <- NEW_ID ;;
  p <- addProcess name ;;
  visitor <- new_visitor p FUNCTION ;;
  log_assert A_args (bool_decide (length arguments = length (getArguments subr))) ;;
  bound <- bind_arguments (getArguments subr) arguments ctx_ ∅ ;;
  m <- get ;;
  let visitor := set_ctx (mkContext (rvalue_subs (ctx visitor)) bound) (set_mod m visitor) in
  fun _ =>
    match visit (getBody subr) visitor with
    | Fail e => Fail e
    | Ok (_, visitor) =>
        (r <- wire_signal (returnValVar subr) ;;
         ret (sig_replace (staging visitor) r)) (mod_ visitor)
    end.

(** *** The procedural blocks of a module *)

Fixpoint populate_sync (p : IdString) (timing : TimingControl) : M Module bool :=
  match timing with
  | SignalEvent expr edge iffCondition =>
      sig <- evaluate_rhs subroutines evaluate_function None expr ;;
      require (negb iffCondition) ;;
      match edge with
      | NoEdge => push_sync p (mkSyncRule STa [] [])
      | PosEdge =>
          require (bool_decide (length sig = 1)) ;;
          push_sync p (mkSyncRule STp sig [])
      | NegEdge =>
          require (bool_decide (length sig = 1)) ;;
          push_sync p (mkSyncRule STn sig [])
      | BothEdges =>
          require (bool_decide (length sig = 1)) ;;
          push_sync p (mkSyncRule STe sig [])
      end ;;
      ret true
  | ImplicitEvent =>
      push_sync p (mkSyncRule STa [] []) ;;
      ret true
  | EventList events =>
      (fix events_loop (evs : list TimingControl) : M Module bool :=
         match evs with
         | [] => ret true
         | ev :: evs' =>
             ok <- populate_sync p ev ;;
             if ok then events_loop evs' else ret false
         end) events
  | OtherTiming => ret false
  end.

(** [ModulePopulatingVisitor::handle(ProceduralBlockSymbol)] *)
Definition handle_ProceduralBlockSymbol (sym : ProceduralBlockSymbol) : M Module unit :=
  match procedureKind sym with
  | Always | AlwaysFF =>
      name <- NEW_ID ;;
      p <- addProcess name ;;
      match blockBody sym with
      | TimedStatement timing stmt =>
          ok <- populate_sync p timing ;;
          require ok ;;
          with_visitor p ALWAYS (visit stmt ;; staging_done) ;;
          ret tt
      | _ => fail Unimplemented
      end
  | AlwaysComb =>
      name <- NEW_ID ;;
      p <- addProcess name ;;
      push_sync p (mkSyncRule STa [] []) ;;
      with_visitor p ALWAYS (visit (blockBody sym) ;; staging_done) ;;
      ret tt
  | Initial =>
      match blockBody sym with
      | _ => fail Unimplemented
      end
  | Final => ret tt
  | AlwaysLatch => fail Unimplemented
  end.

End Procedures.

(** [evaluate_function] with the depth of inlining bounded by [fuel]. *)
Fixpoint evaluate_function (subroutines : nat -> option Subroutine) (fuel : nat)
    (subr : Subroutine) (arguments : list Expression) (ctx : option ProcedureContext)
    : M Module SigSpec :=
  match fuel with
  | O => fail OutOfFuel
  | S fuel' =>
      evaluate_function_body subroutines (evaluate_function subroutines fuel')
        subr arguments ctx
  end.

(** ** slang_frontend.cc: the wires and the continuous assignments of a module *)

(** [ast::ValueSymbol]: a symbol with its type. *)
Record ValueSymbol := mkValueSymbol {
  value_symbol : Symbol;
  value_type : Type_
}.

(** [WireAddingVisitor::handle(const ast::ValueSymbol &)] *)
Definition add_wire_of (sym : ValueSymbol) : M Module unit :=
  require (isFixedSize (value_type sym)) ;;
  addWire (net_id (value_symbol sym)) (getBitstreamWidth (value_type sym)) ;;
  ret tt.

(** [symbol.body.visit(wadder)]: the value symbols of the instance body, in
    the order of the visit.  (Their hierarchical paths are distinct, so the
    IR never sees a name twice.) *)
Definition WireAddingVisitor (symbols : list ValueSymbol) : M Module unit :=
  for_each symbols add_wire_of.

(** [Module::connect(lhs, rhs)] *)
Definition connect (lhs rhs : SigSpec) : M Module unit :=
  modify (fun m => set_connections (connections_ m ++ [(lhs, rhs)]) m).

(** [ModulePopulatingVisitor::handle(const ast::ContinuousAssignSymbol &)]:
    [mod->connect(evaluate_lhs(mod, left), evaluate_rhs(mod, right, NULL))].
    C++ leaves the order in which the two arguments are evaluated to the
    compiler; both orders are given. *)
Section ContinuousAssign.

Variable subroutines : nat -> option Subroutine.
Variable fuel : nat.

Definition handle_ContinuousAssign_left_first (left_ right_ : Expression)
    : M Module unit :=
  l <- evaluate_lhs left_ ;;
  r <- evaluate_rhs subroutines (evaluate_function subroutines fuel) None right_ ;;
  connect l r.

Definition handle_ContinuousAssign_right_first (left_ right_ : Expression)
    : M Module unit :=
  r <- evaluate_rhs subroutines (evaluate_function subroutines fuel) None right_ ;;
  l <- evaluate_lhs left_ ;;
  connect l r.

End ContinuousAssign.

(** ** The builder against the IR's folds: what is compared

    The operators of the builder whose fold is the IR's, each with its
    operands; [run] is the builder's function, [ir_fold] the IR's constant
    fold named after the operator, on the same operand bits, with the same
    signedness, at the width of the builder's result. *)

Module BuilderSpec.

Import RTLILBuilder.

Inductive FoldCall :=
  | F_ReduceBool (a : SigSpec)
  | F_Sub (a b : SigSpec) (is_signed : bool)
  | F_Le (a b : SigSpec) (is_signed : bool)
  | F_Ge (a b : SigSpec) (is_signed : bool)
  | F_Lt (a b : SigSpec) (is_signed : bool)
  | F_Eq (a b : SigSpec)
  | F_EqWildcard (a b : SigSpec)
  | F_LogicNot (a : SigSpec)
  | F_Not (a : SigSpec)
  | F_Neg (a : SigSpec) (signed_ : bool)
  | F_Shift (a : SigSpec) (a_signed : bool) (b : SigSpec) (b_signed : bool) (result_width : nat)
  | F_Shiftx (a s : SigSpec) (s_signed : bool) (result_width : nat)
  | F_Biop (op : CellType) (a b : SigSpec) (a_signed b_signed : bool) (y_width : nat)
  | F_Unop (op : CellType) (a : SigSpec) (a_signed : bool) (y_width : nat).

Section WithIR.

Context {ir : IRFold}.

Definition run (c : FoldCall) : M Module SigSpec :=
  match c with
  | F_ReduceBool a => ReduceBool a
  | F_Sub a b s => Sub a b s
  | F_Le a b s => Le a b s
  | F_Ge a b s => Ge a b s
  | F_Lt a b s => Lt a b s
  | F_Eq a b => Eq a b
  | F_EqWildcard a b => EqWildcard a b
  | F_LogicNot a => LogicNot a
  | F_Not a => Not a
  | F_Neg a s => Neg a s
  | F_Shift a sa b sb w => Shift a sa b sb w
  | F_Shiftx a s ss w => Shiftx a s ss w
  | F_Biop op a b sa sb w => Biop op a b sa sb w
  | F_Unop op a sa w => Unop op a sa w
  end.

(** Every operand is a constant (x and z bits included). *)
Definition operands_const (c : FoldCall) : Prop :=
  match c with
  | F_ReduceBool a | F_LogicNot a | F_Not a | F_Neg a _ | F_Unop _ a _ _ =>
      is_fully_const a = true
  | F_Sub a b _ | F_Le a b _ | F_Ge a b _ | F_Lt a b _ | F_Eq a b
  | F_EqWildcard a b | F_Shift a _ b _ _ | F_Shiftx a b _ _ | F_Biop _ a b _ _ _ =>
      is_fully_const a = true /\ is_fully_const b = true
  end.

(** The positions that take part in a wildcard comparison: those where the
    pattern is neither x nor z. *)
Definition kept_positions (a b : SigSpec) : SigSpec * SigSpec :=
  let keep := filter (fun p => p.2 <> BConst Sx /\ p.2 <> BConst Sz) (zip a b) in
  (keep.*1, keep.*2).

Definition ir_fold (c : FoldCall) : SigSpec :=
  match c with
  | F_ReduceBool a => fold ID_reduce_bool a [] false false 1
  | F_Sub a b s => fold ID_sub a b s s (Z.of_nat (max (length a) (length b) + 1))
  | F_Le a b s => fold ID_le a b s s 1
  | F_Ge a b s => fold ID_ge a b s s 1
  | F_Lt a b s => fold ID_lt a b s s 1
  | F_Eq a b => fold ID_eq a b false false 1
  | F_EqWildcard a b =>
      fold ID_eq (kept_positions a b).1 (kept_positions a b).2 false false 1
  | F_LogicNot a => fold ID_logic_not a [] false false (-1)
  | F_Not a => fold ID_not a [] false false (-1)
  | F_Neg a s => fold ID_neg a [] s false (Z.of_nat (length a + 1))
  | F_Shift a sa b sb w => fold ID_shift a b sa sb (Z.of_nat w)
  | F_Shiftx a s ss w => fold ID_shiftx a s false ss (Z.of_nat w)
  | F_Biop op a b sa sb w => fold op a b sa sb (Z.of_nat w)
  | F_Unop op a sa w => fold op a [] sa false (Z.of_nat w)
  end.

(** The claim for one call: a result returned without touching the netlist
    is the IR's fold. *)
Definition folds_as_ir (c : FoldCall) : Prop :=
  forall m r, run c m = Ok (r, m) -> r = ir_fold c.

(** Where the builder hands the fold to the IR: [Sub] unless the subtrahend
    is all ones, [Biop] and [Unop] for the cell types of their lists,
    [EqWildcard] under its own preconditions. *)
Definition delegated (c : FoldCall) : Prop :=
  match c with
  | F_Sub _ b _ => is_fully_ones b = false
  | F_Biop op _ _ _ _ _ => biop_folds op = true
  | F_Unop op _ _ _ => unop_folds op = true
  | F_EqWildcard a b => length a = length b
  | _ => True
  end.

(** *** The three-valued comparison, as the specification words it *)

(** The literals of an operand extended to [width]: +1 for a constant one,
    -1 for a constant zero, 0 for anything else. *)
Definition literals (sig : SigSpec) (is_signed : bool) (width : nat) : list Z :=
  ThreeValued.convert <$> extend_u0 sig width is_signed.

(** The borrow chain of [xs - ys] through every position but the top one,
    then the verdict at the top position. *)
Fixpoint ripple (carry : Z) (xs ys : list Z) : Z :=
  match xs, ys with
  | [x], [y] => ThreeValued.XOR carry (ThreeValued.XNOR x y)
  | x :: xs', y :: ys' =>
      ripple (ThreeValued.CARRY x (ThreeValued.NOT y) carry) xs' ys'
  | _, _ => ThreeValued.XOR carry (ThreeValued.XNOR 0 0)
  end.

Definition compare_literal (op : CellType) (a b : SigSpec) (a_signed b_signed : bool) : Z :=
  let width := max (length a) (length b) in
  let la := literals a a_signed width in
  let lb := literals b b_signed width in
  let carry0 := match op with ID_le | ID_ge => (-1)%Z | _ => 1%Z end in
  match op with
  | ID_gt | ID_ge => ripple carry0 lb la
  | _ => ripple carry0 la lb
  end.

(** A definite literal gives the constant extended to [y_width], an unknown
    one a comparator cell. *)
Definition three_valued_compare (op : CellType) (a b : SigSpec) (a_signed b_signed : bool)
    (y_width : nat) : M Module SigSpec :=
  let lit := compare_literal op a b a_signed b_signed in
  if bool_decide (lit = 1%Z) then ret (extend_u0 [BConst S1] y_width false)
  else if bool_decide (lit = (-1)%Z) then ret (extend_u0 [BConst S0] y_width false)
  else Biop_cell op a b a_signed b_signed y_width.

End WithIR.

(** The IR's subtraction returns as many bits as it is asked for. *)
Definition sub_result_len (ir' : IRFold) : Prop :=
  forall a b sa sb len, (0 <= len)%Z ->
    length (@const_eval ir' ID_sub a b sa sb len) = Z.to_nat len.

(** The three-valued literals of the comparison. *)
Definition lit3 (z : Z) : Prop := z = (-1)%Z \/ z = 0%Z \/ z = 1%Z.

End BuilderSpec.
(** ** What the elaborated AST guarantees

    The frontend reads an AST that slang has type-checked.  The width laws
    of that type system which [evaluate_rhs] relies on are collected here:
    [declared] maps the path of a value symbol to
    [sym.getType().getBitstreamWidth()], and [subroutines] is the table of
    the compilation's subroutines. *)

Section Typing.

Variable declared : nat -> option nat.
Variable subroutines : nat -> option Subroutine.

(** The constant of an expression is a value of the expression's type. *)
Definition constant_typed (i : ExprInfo) : Prop :=
  forall v, constant i = Some (CV_Integer v) ->
    length (svint_bits v) = getBitstreamWidth (type i).

(** A simple range select goes the way of the range it selects from, and its
    type has as many elements as it selects. *)
Definition range_select_typed (i : ExprInfo) (value sel_left sel_right : Expression)
    : Prop :=
  forall range l r,
    fixedRange (type_of value) = Some range ->
    constant_int sel_left tt = Ok (l, tt) ->
    constant_int sel_right tt = Ok (r, tt) ->
    (if isLittleEndian range then r <= l else l <= r)%Z /\
    getBitstreamWidth (type i) =
      getBitstreamWidth (type_of value) / range_width range
        * Z.to_nat (Z.abs (l - r) + 1).

(** A call binds each formal argument to an actual argument of the formal's
    type and has the type of the function's return variable. *)
Definition call_typed (i : ExprInfo) (subr : Subroutine) (arguments : list Expression)
    : Prop :=
  declared (sym_path (returnValVar subr)) = Some (getBitstreamWidth (type i)) /\
  Forall2 (fun formal actual =>
             declared (sym_path formal) = Some (getBitstreamWidth (type_of actual)))
          (getArguments subr) arguments.

Fixpoint well_typed (e : Expression) : Prop :=
  isFixedSize (type_of e) = true /\
  constant_typed (info e) /\
  match e with
  | NamedValue i sym =>
      match sym_kind sym with
      | SK_Net | SK_Variable | SK_FormalArgument =>
          declared (sym_path sym) = Some (getBitstreamWidth (type i))
      | SK_Parameter =>
          forall v, sym_initializer sym = Some (Some (CV_Integer v)) ->
            length (svint_bits v) = getBitstreamWidth (type i)
      | _ => True
      end
  | UnaryOp _ _ operand => well_typed operand
  | BinaryOp _ _ lhs rhs => well_typed lhs /\ well_typed rhs
  | Conversion i operand =>
      well_typed operand /\
      (isIntegral (type i) = true -> getBitWidth (type i) = getBitstreamWidth (type i))
  | IntegerLiteral i value =>
      length (svint_bits value) = getBitstreamWidth (type i)
  | RangeSelect i _ value sel_left sel_right =>
      well_typed value /\ range_select_typed i value sel_left sel_right
  | ElementSelect _ value selector => well_typed value /\ well_typed selector
  | Concatenation i operands =>
      (fix all (ops : list Expression) : Prop :=
         match ops with
         | [] => True
         | op :: ops' => well_typed op /\ all ops'
         end) operands /\
      getBitstreamWidth (type i)
        = sum_list ((fun op => getBitstreamWidth (type_of op)) <$> operands)
  | ConditionalOp i conditions _ if_true if_false =>
      (fix all (ops : list Expression) : Prop :=
         match ops with
         | [] => True
         | op :: ops' => well_typed op /\ all ops'
         end) conditions /\
      well_typed if_true /\ well_typed if_false /\
      getBitstreamWidth (type_of if_true) = getBitstreamWidth (type i) /\
      getBitstreamWidth (type_of if_false) = getBitstreamWidth (type i)
  | Replication i count concat =>
      well_typed concat /\
      forall n, constant_int count tt = Ok (n, tt) ->
        getBitstreamWidth (type i)
          = Z.to_nat n * getBitstreamWidth (type_of concat)
  | MemberAccess _ value _ => well_typed value
  | Call i callee name arguments =>
      (fix all (ops : list Expression) : Prop :=
         match ops with
         | [] => True
         | op :: ops' => well_typed op /\ all ops'
         end) arguments /\
      match callee with
      | SystemCall =>
          forall arg, name = "$signed"%string -> arguments = [arg] ->
            getBitstreamWidth (type_of arg) = getBitstreamWidth (type i)
      | UserCall f =>
          forall subr, subroutines f = Some subr -> call_typed i subr arguments
      end
  | _ => True
  end.

(** The index expressions inside the target of an assignment. *)
Fixpoint lvalue_typed (e : Expression) : Prop :=
  match e with
  | RangeSelect _ _ value _ _ => lvalue_typed value
  | ElementSelect _ value selector => well_typed selector /\ lvalue_typed value
  | MemberAccess _ value _ => lvalue_typed value
  | _ => True
  end.

(** The expressions a statement has the visitor evaluate. *)
Definition expression_statement_typed (e : Expression) : Prop :=
  match e with
  | Call _ _ _ arguments => Forall well_typed arguments
  | Assignment _ _ lhs rhs => well_typed rhs /\ lvalue_typed lhs
  | _ => True
  end.

Fixpoint statement_typed (s : Statement) : Prop :=
  match s with
  | ExpressionStatement e => expression_statement_typed e
  | BlockStatement _ body => statement_typed body
  | StatementList stmts =>
      (fix all (l : list Statement) : Prop :=
         match l with
         | [] => True
         | s :: l' => statement_typed s /\ all l'
         end) stmts
  | ConditionalStatement conditions _ ifTrue ifFalse =>
      Forall well_typed conditions /\ statement_typed ifTrue /\
      match ifFalse with
      | Some s => statement_typed s
      | None => True
      end
  | CaseStatement _ _ e items defaultCase =>
      well_typed e /\
      (fix all (its : list (list Expression * Statement)) : Prop :=
         match its with
         | [] => True
         | (exprs, s) :: its' =>
             Forall well_typed exprs /\ statement_typed s /\ all its'
         end) items /\
      match defaultCase with
      | Some s => statement_typed s
      | None => True
      end
  | TimedStatement _ s => statement_typed s
  | _ => True
  end.

(** Every function of the compilation has a type-checked body. *)
Definition subroutines_typed : Prop :=
  forall f subr, subroutines f = Some subr -> statement_typed (getBody subr).

(** The module has the wires [WireAddingVisitor] adds: the wire of a value
    symbol has the width of the symbol's type. *)
Definition wires_declared (m : Module) : Prop :=
  forall n w, wires_ m !! Public n = Some w -> declared n = Some (width w).

(** The arguments bound in a context have the widths of the formals. *)
Definition args_declared (ctx : option ProcedureContext) : Prop :=
  forall c n r, ctx = Some c -> args c !! n = Some r -> declared n = Some (length r).

End Typing.

(** *** The assertions at the end of [evaluate_rhs] *)

Definition rhs_post (a : Assertion) : bool :=
  match a with
  | A_rhs_fixed_size | A_rhs_width => true
  | _ => false
  end.

(** [passes e]: the failure [e] is not one of those assertions. *)
Definition passes (e : Error) : Prop :=
  match e with
  | AssertFailed a => rhs_post a = false
  | _ => True
  end.

(** [yields P c Q]: from a state in [P], [c] returns a value in [Q] or
    fails for another reason than the assertions above. *)
Definition yields {St A} (P : St -> Prop) (c : M St A) (Q : A -> Prop) : Prop :=
  forall s, P s ->
    match c s with
    | Ok (a, _) => Q a
    | Fail e => passes e
    end.

Definition stable {St} (P : St -> Prop) (R : St -> St -> Prop) : Prop :=
  forall s s', R s s' -> P s -> P s'.

(** [safe c]: whatever the state, [c] does not fail on those assertions. *)
Definition safe {St A} (c : M St A) : Prop :=
  forall s e, c s = Fail e -> passes e.

(** A visitor whose module and bound arguments are as the AST declares. *)
Definition visitor_declared (declared : nat -> option nat) (v : ProceduralVisitor)
    : Prop :=
  wires_declared declared (mod_ v) /\ args_declared declared (Some (ctx v)).
(** ** Small designs the theorems are run on *)

Module Examples.

(** [logic [w-1:0]] *)
Definition logic (w : nat) : Type_ :=
  mkType w w false true true false (Some (mkRange (Z.of_nat w - 1) 0)).

(** [logic [1:0] a;] in a module body, interned at path 7 *)
Definition sym_a : Symbol := mkSymbol SK_Variable 7 SK_InstanceBody None.

Definition expr_a : Expression := NamedValue (mkInfo (logic 2) None) sym_a.

(** [~&a], [~|a] and [{a, ~a}] *)
Definition nand_a : Expression := UnaryOp (mkInfo (logic 1) None) BitwiseNand expr_a.
Definition nor_a : Expression := UnaryOp (mkInfo (logic 1) None) BitwiseNor expr_a.
Definition a_not_a : Expression :=
  Concatenation (mkInfo (logic 4) None)
    [expr_a; UnaryOp (mkInfo (logic 2) None) BitwiseNot expr_a].

(** The module after [WireAddingVisitor] has met [a]. *)
Definition module_a : Module :=
  set_wires (<[Public 7 := mkWire 2 false false None]> ∅) empty_module.

Definition declared_a (n : nat) : option nat :=
  if decide (n = 7) then Some 2 else None.

Definition no_subroutines (f : nat) : option Subroutine := None.

(** What a run returns, or [d] when it fails. *)
Definition run_or {St A} (d : A * St) (r : Result (A * St)) : A * St :=
  match r with
  | Ok x => x
  | Fail _ => d
  end.

Definition bit_a0 : SigBit := BWire (Public 7) 0.
Definition bit_a1 : SigBit := BWire (Public 7) 1.

(** [a = 2'b01;] *)
Definition literal_01 : Expression :=
  IntegerLiteral (mkInfo (logic 2) None) (mkSVInt false [L1; L0]).
Definition a_gets_01 : Statement :=
  ExpressionStatement (Assignment (mkInfo (logic 2) None) false expr_a literal_01).

(** A visitor on [module_a] to which a non-blocking assignment has
    assigned bit 0 of [a]. *)
Definition visitor_nonblocking : ProceduralVisitor :=
  mkVisitor module_a (Auto 0) 0 (mkContext ∅ ∅) ∅ {[bit_a0]} 0 ALWAYS ∅.

(** The visitor of a fresh process of [module_a]. *)
Definition visitor_a : ProceduralVisitor :=
  (run_or (visitor_nonblocking, module_a)
     ((name <- NEW_ID ;; p <- addProcess name ;; new_visitor p ALWAYS)%fe module_a)).1.

(** [visitor_a] after [staging_signal] on bit 0 of [a], then after the
    statement [a = 2'b01], then after [staging_signal] on all of [a]. *)
Definition staged_1 : SigSpec * ProceduralVisitor :=
  run_or ([], visitor_a) (staging_signal [bit_a0] visitor_a).
Definition staged_2 : unit * ProceduralVisitor :=
  run_or (tt, visitor_a)
    (visit no_subroutines (evaluate_function no_subroutines 0) a_gets_01 staged_1.2).
Definition staged_3 : SigSpec * ProceduralVisitor :=
  run_or ([], visitor_a) (staging_signal [bit_a0; bit_a1] staged_2.2).

(** [always_comb a = 2'b01;] lowered in [module_a]. *)
Definition module_comb : Module :=
  (run_or (tt, module_a)
     (handle_ProceduralBlockSymbol no_subroutines
        (evaluate_function no_subroutines 0)
        (mkProceduralBlock AlwaysComb a_gets_01) module_a)).2.

(** A switch on bit 1 of [a] whose one branch is [a = 2'b01]. *)
Definition switch_0 : SwitchBuilder * ProceduralVisitor :=
  run_or (mkSwitchBuilder 0 0 ∅ [], visitor_a)
    (new_SwitchBuilder (current_case visitor_a) [bit_a1] visitor_a).

(** [logic [1:0] a; logic b;] as the value symbols of a module body, and
    [assign b = ~&a;] *)
Definition sym_b : Symbol := mkSymbol SK_Variable 8 SK_InstanceBody None.
Definition expr_b : Expression := NamedValue (mkInfo (logic 1) None) sym_b.
Definition values_ab : list ValueSymbol :=
  [mkValueSymbol sym_a (logic 2); mkValueSymbol sym_b (logic 1)].
Definition module_ab : Module :=
  (run_or (tt, empty_module) (WireAddingVisitor values_ab empty_module)).2.

(** [always_ff @(posedge b) a = 2'b01;] *)
Definition always_ff_b : ProceduralBlockSymbol :=
  mkProceduralBlock AlwaysFF
    (TimedStatement (SignalEvent expr_b PosEdge false) a_gets_01).

(** [a <= 2'b01] *)
Definition a_gets_01_nonblocking : Statement :=
  ExpressionStatement (Assignment (mkInfo (logic 2) None) true expr_a literal_01).

(** The switch of [switch_0] after one branch whose body is the
    non-blocking [a <= 2'b01], which updates no substitution. *)
Definition switch_2 : SwitchBuilder * ProceduralVisitor :=
  run_or switch_0
    (branch switch_0.1 [[BConst S1]]
       (fun rule =>
          modify (set_current_case rule) ;;
          visit no_subroutines (evaluate_function no_subroutines 0)
            a_gets_01_nonblocking)%fe
       switch_0.2).

(** The visitor of [always_ff_b] in [module_ab]: its process has the sync
    rule of [posedge b]; then the visitor once the body is lowered, before
    [staging_done]. *)
Definition visitor_ff_0 : ProceduralVisitor :=
  (run_or (visitor_nonblocking, module_ab)
     ((name <- NEW_ID ;;
       p <- addProcess name ;;
       populate_sync no_subroutines (evaluate_function no_subroutines 0) p
         (SignalEvent expr_b PosEdge false) ;;
       new_visitor p ALWAYS)%fe module_ab)).1.
Definition visitor_ff : ProceduralVisitor :=
  (run_or (tt, visitor_ff_0)
     (visit no_subroutines (evaluate_function no_subroutines 0) a_gets_01
        visitor_ff_0)).2.

End Examples.
(** ** The vocabulary of the theorems

    The sub-terms of the AST, what a run may change in the netlist and in
    the visitor, and how the actions of case and sync rules are read. *)

(** The direct sub-expressions and sub-statements. *)
Definition subexpressions (e : Expression) : list Expression :=
  match e with
  | NamedValue _ _ | IntegerLiteral _ _ | StringLiteral _ _
  | EmptyArgument _ | OtherExpression _ => []
  | UnaryOp _ _ operand | Conversion _ operand => [operand]
  | BinaryOp _ _ lhs rhs | Assignment _ _ lhs rhs => [lhs; rhs]
  | RangeSelect _ _ value sel_left sel_right => [value; sel_left; sel_right]
  | ElementSelect _ value selector => [value; selector]
  | Concatenation _ operands => operands
  | ConditionalOp _ conditions _ if_true if_false => if_true :: if_false :: conditions
  | Replication _ count concat => [count; concat]
  | MemberAccess _ value _ => [value]
  | Call _ _ _ arguments => arguments
  end.

Definition substatements (s : Statement) : list Statement :=
  match s with
  | BlockStatement _ body => [body]
  | StatementList stmts => stmts
  | ConditionalStatement _ _ ifTrue ifFalse => ifTrue :: option_list ifFalse
  | CaseStatement _ _ _ items defaultCase => option_list defaultCase ++ items.*2
  | TimedStatement _ stmt => [stmt]
  | _ => []
  end.

(** [trans R c]: every successful run of [c] goes from a state to a state
    related by [R]. *)
Definition trans {St A} (R : St -> St -> Prop) (c : M St A) : Prop :=
  forall s a s', c s = Ok (a, s') -> R s s'.

Definition names_free (m : Module) : Prop :=
  forall n, autoidx m <= n -> processes m !! Auto n = None.

Definition sync_shape (s : SyncRule) : SyncType * SigSpec := (sync_type s, sync_signal s).

Definition process_kept (pr pr' : Process) : Prop :=
  root_case pr' = root_case pr /\ sync_shape <$> syncs pr' = sync_shape <$> syncs pr.

Definition processes_kept (m m' : Module) : Prop :=
  forall p pr, processes m !! p = Some pr ->
    exists pr', processes m' !! p = Some pr' /\ process_kept pr pr'.

Definition public_wires_kept (m m' : Module) : Prop :=
  forall n, wires_ m' !! Public n = wires_ m !! Public n.

Definition mext (m m' : Module) : Prop :=
  public_wires_kept m m' /\
  (names_free m -> names_free m' /\ processes_kept m m').

Definition pools_disjoint (v : ProceduralVisitor) : Prop :=
  assigned_blocking v ## assigned_nonblocking v.

(** What a run of the visitor may change: the module as above; the process
    it works on and the bound arguments never; the staging map only grows;
    the two pools stay disjoint. *)
Definition vext (v v' : ProceduralVisitor) : Prop :=
  mext (mod_ v) (mod_ v') /\
  (proc v' = proc v /\ args (ctx v') = args (ctx v)) /\
  staging v ⊆ staging v' /\
  (pools_disjoint v -> pools_disjoint v').

(** The fields a run leaves as they are. *)
Definition same_frame (v v' : ProceduralVisitor) : Prop :=
  proc v' = proc v /\ current_case v' = current_case v /\ ctx v' = ctx v /\
  assigned_blocking v' = assigned_blocking v /\
  assigned_nonblocking v' = assigned_nonblocking v /\
  print_priority v' = print_priority v /\ mode v' = mode v.

(** A staging bit made by this call: a bit of a wire named by [NEW_ID]
    during the call. *)
Definition fresh_bit (v v' : ProceduralVisitor) (s : SigBit) : Prop :=
  exists k o, s = BWire (Auto k) o /\ autoidx (mod_ v) <= k < autoidx (mod_ v').





(** An action of the list assigns [source] to [target], bit for bit. *)
Definition assigns (acts : list (list SigBit * list SigBit)) (target source : SigBit)
    : Prop :=
  exists lhs rhs i, (lhs, rhs) ∈ acts /\ lhs !! i = Some target /\ rhs !! i = Some source.

Definition add_sync_actions (added : list (list SigBit * list SigBit)) (s : SyncRule)
    : SyncRule :=
  mkSyncRule (sync_type s) (sync_signal s) (sync_actions s ++ added).

Definition add_actions (added : list (list SigBit * list SigBit)) (r : CaseRule)
    : CaseRule :=
  mkCaseRule (compare r) (actions r ++ added) (switches r).


(** The case rules only get more actions. *)
Definition heap_grows (m m' : Module) : Prop :=
  forall c r, case_rules m !! c = Some r ->
    exists added, case_rules m' !! c = Some (add_actions added r).

(** The bits updated in some branch. *)
Definition updated_anybranch (b : SwitchBuilder) : list SigBit :=
  sort_and_unify (mjoin ((fun br => br.2.1) <$> branch_updates b)).

(** What [evaluate_function] owes its caller. *)
Definition function_width (declared : nat -> option nat)
    (subroutines : nat -> option Subroutine)
    (evalf : Subroutine -> list Expression -> option ProcedureContext -> M Module SigSpec)
    : Prop :=
  forall subr arguments ctx,
    statement_typed declared subroutines (getBody subr) ->
    Forall (well_typed declared subroutines) arguments ->
    Forall2 (fun formal actual =>
               declared (sym_path formal) = Some (getBitstreamWidth (type_of actual)))
            (getArguments subr) arguments ->
    args_declared declared ctx ->
    yields (wires_declared declared) (evalf subr arguments ctx)
      (fun r => forall w,
         declared (sym_path (returnValVar subr)) = Some w -> length r = w).

(** [reads c Q]: a successful run of [c] leaves the module as it was and
    returns a value in [Q]. *)
Definition reads {A} (c : M Module A) (Q : A -> Prop) : Prop :=
  forall m a m', c m = Ok (a, m') -> m' = m /\ Q a.

(** The bits of [target] at the positions where [mask] is not the constant
    zero, in order. *)
Definition unmasked (mask target : SigSpec) : SigSpec :=
  (filter (fun p => p.1 <> BConst S0) (zip mask target)).*2.

(** The width [WireAddingVisitor] declares for the symbol of a path: the
    bitstream width of the type of the first symbol with that path. *)
Fixpoint declared_by (symbols : list ValueSymbol) (n : nat) : option nat :=
  match symbols with
  | [] => None
  | s :: rest =>
      if decide (sym_path (value_symbol s) = n)
      then Some (getBitstreamWidth (value_type s))
      else declared_by rest n
  end.

(** [transfers c m m1]: a successful run of [c] on [m] leaves [m] as it was,
    and [c] returns the same on [m1], leaving [m1] as it was. *)
Definition transfers {A} (c : M Module A) (m m1 : Module) : Prop :=
  forall a m', c m = Ok (a, m') -> m' = m /\ c m1 = Ok (a, m1).

(** The events of a timing control, in the order [populate_sync] meets
    them. *)
Fixpoint events_of (timing : TimingControl) : list TimingControl :=
  match timing with
  | EventList events =>
      (fix all (evs : list TimingControl) : list TimingControl :=
         match evs with
         | [] => []
         | ev :: evs' => events_of ev ++ all evs'
         end) events
  | _ => [timing]
  end.

(** The kind and the signal of the sync rule made for an event. *)
Definition event_sync (ev : TimingControl) (shape : SyncType * SigSpec) : Prop :=
  match ev with
  | SignalEvent _ NoEdge false => shape = (STa, [])
  | SignalEvent _ PosEdge false => shape.1 = STp /\ length shape.2 = 1
  | SignalEvent _ NegEdge false => shape.1 = STn /\ length shape.2 = 1
  | SignalEvent _ BothEdges false => shape.1 = STe /\ length shape.2 = 1
  | ImplicitEvent => shape = (STa, [])
  | _ => False
  end.

(** ** Induction over the AST

    Expressions and statements nest through lists: the immediate parts of a
    node, and induction on them. *)


Lemma Expression_parts_ind (P : Expression -> Prop) :
  (forall e, Forall P (subexpressions e) -> P e) -> forall e, P e.
Proof.
  intros H. fix IH 1. intros e. apply H.
  destruct e; simpl; repeat first [apply Forall_nil_2 | apply Forall_cons_2; [apply IH|]];
    match goal with
    | |- Forall P ?l =>
        revert l; fix IHl 1; intros [|x l]; constructor; [apply IH|apply IHl]
    end.
Qed.


Lemma Statement_parts_ind (P : Statement -> Prop) :
  (forall s, Forall P (substatements s) -> P s) -> forall s, P s.
Proof.
  intros H. fix IH 1. intros s. apply H.
  destruct s as [ | | stmts | ? ? ? ifFalse | ? ? ? items defaultCase | | | | | ];
    simpl; repeat first [apply Forall_nil_2 | apply Forall_cons_2; [apply IH|]].
  - revert stmts. fix IHl 1. intros [|x l]; constructor; [apply IH|apply IHl].
  - destruct ifFalse; simpl; repeat constructor. apply IH.
  - apply Forall_app. split.
    + destruct defaultCase; simpl; repeat constructor. apply IH.
    + revert items. fix IHl 1. intros [|[es x] l]; constructor; [apply IH|apply IHl].
Qed.

(** * Theorems *)

(** ** Reasoning in the monad *)

Lemma bind_Ok {St A B} (c : M St A) (k : A -> M St B) s a s' :
  c s = Ok (a, s') -> bind c k s = k a s'.
Proof. intros H. unfold bind. by rewrite H. Qed.

Lemma bind_Fail {St A B} (c : M St A) (k : A -> M St B) s e :
  c s = Fail e -> bind c k s = Fail e.
Proof. intros H. unfold bind. by rewrite H. Qed.

Lemma bind_inv {St A B} (c : M St A) (k : A -> M St B) s b s'' :
  bind c k s = Ok (b, s'') ->
  exists a s', c s = Ok (a, s') /\ k a s' = Ok (b, s'').
Proof.
  unfold bind. destruct (c s) as [[a s']|e]; [|done]. eauto.
Qed.

Lemma log_assert_true {St} a (s : St) : log_assert a true s = Ok (tt, s).
Proof. done. Qed.

(** ** The builder *)

Module BuilderFacts.

Import RTLILBuilder BuilderSpec.

Section WithIR.

Context {ir : IRFold}.

Lemma is_fully_ones_spec (b : SigSpec) :
  is_fully_ones b = true <-> Forall (fun bit => bit = BConst S1) b.
Proof.
  unfold is_fully_ones. induction b as [|bit b IH]; simpl.
  - split; [constructor|done].
  - rewrite andb_true_iff, IH, Forall_cons. apply and_iff_compat_r.
    destruct bit as [d|]; simpl; [|split; done].
    rewrite bool_decide_eq_true. split; congruence.
Qed.

(** C2.  When every bit of [b] is the constant one, [Sub a b is_signed]
    returns [a] itself and leaves the netlist as it was: no cell, no wire,
    whatever the signedness and the widths. *)
Theorem Sub_all_ones_returns_a (a b : SigSpec) (is_signed : bool) (m : Module) :
  Forall (fun bit => bit = BConst S1) b ->
  Sub a b is_signed m = Ok (a, m).
Proof.
  intros Hb. apply is_fully_ones_spec in Hb.
  unfold Sub. by rewrite Hb.
Qed.

(** *** The loop of [EqWildcard] *)

Lemma kept_positions_snoc (a b : SigSpec) (x y : SigBit) :
  length a = length b ->
  kept_positions (a ++ [x]) (b ++ [y]) =
  if decide (y = BConst Sx \/ y = BConst Sz) then kept_positions a b
  else ((kept_positions a b).1 ++ [x], (kept_positions a b).2 ++ [y]).
Proof.
  intros Hlen. unfold kept_positions.
  rewrite zip_with_app by done. rewrite filter_app. simpl.
  rewrite filter_cons, filter_nil. simpl.
  destruct (decide (y = BConst Sx \/ y = BConst Sz)) as [Hy|Hy].
  - rewrite decide_False by tauto. by rewrite app_nil_r.
  - rewrite decide_True by tauto. by rewrite !fmap_app.
Qed.

Lemma drop_wildcards_spec (i : nat) (a b : SigSpec) :
  length a = length b -> i <= length a ->
  drop_wildcards i a b =
  ((kept_positions (take i a) (take i b)).1 ++ drop i a,
   (kept_positions (take i a) (take i b)).2 ++ drop i b).
Proof.
  revert a b. induction i as [|i IH]; intros a b Hlen Hi.
  - simpl. by rewrite !drop_0.
  - destruct (lookup_lt_is_Some_2 a i) as [x Hx]; [lia|].
    destruct (lookup_lt_is_Some_2 b i) as [y Hy]; [lia|].
    rewrite (take_S_r a i x), (take_S_r b i y) by done.
    rewrite kept_positions_snoc by (rewrite !length_take; lia).
    simpl. rewrite (list_lookup_total_correct b i y) by done.
    destruct (decide (y = BConst Sx \/ y = BConst Sz)) as [Hw|Hw].
    + rewrite IH.
      * unfold sig_remove.
        rewrite !take_app_le, !take_take, !Nat.min_id by (rewrite length_take; lia).
        rewrite !drop_app_length' by (rewrite length_take; lia).
        by rewrite !Nat.add_1_r.
      * unfold sig_remove. rewrite !length_app, !length_take, !length_drop. lia.
      * unfold sig_remove. rewrite !length_app, !length_take, !length_drop. lia.
    + rewrite IH by (done || lia). simpl.
      rewrite <- !(assoc_L (++)). simpl.
      by rewrite <- (drop_S a x i), <- (drop_S b y i).
Qed.

Lemma kept_positions_length (a b : SigSpec) :
  length (kept_positions a b).1 = length (kept_positions a b).2.
Proof. unfold kept_positions. simpl. by rewrite !length_fmap. Qed.

Lemma is_fully_const_Forall (sig : SigSpec) :
  is_fully_const sig = true <-> Forall (fun b => is_wire b = false) sig.
Proof.
  unfold is_fully_const. induction sig as [|b sig IH]; simpl.
  - split; [constructor|done].
  - rewrite andb_true_iff, IH, Forall_cons, negb_true_iff. done.
Qed.

Lemma kept_positions_const (a b : SigSpec) :
  is_fully_const a = true -> is_fully_const b = true ->
  is_fully_const (kept_positions a b).1 = true /\
  is_fully_const (kept_positions a b).2 = true.
Proof.
  rewrite !is_fully_const_Forall. intros Ha Hb.
  assert (Forall (fun p => is_wire p.1 = false /\ is_wire p.2 = false) (zip a b)) as Hz.
  { revert b Hb. induction Ha as [|x a Hx Ha IH]; intros [|y b] Hb; simpl;
      try constructor; inversion Hb; subst; auto. }
  unfold kept_positions. simpl.
  rewrite Forall_forall in Hz.
  split; apply Forall_fmap, Forall_forall; intros p Hp;
    apply list_elem_of_filter in Hp as [_ Hp]; apply Hz in Hp; simpl; tauto.
Qed.

Lemma EqWildcard_folds (a b : SigSpec) (m : Module) :
  is_fully_const a = true -> is_fully_const b = true -> length a = length b ->
  EqWildcard a b m = Ok (ir_fold (F_EqWildcard a b), m).
Proof.
  intros Ha Hb Hlen. unfold EqWildcard.
  rewrite bool_decide_eq_true_2 by done.
  rewrite (bind_Ok _ _ m tt m) by done.
  rewrite Hb. rewrite (bind_Ok _ _ m tt m) by done.
  rewrite drop_wildcards_spec by (done || lia).
  rewrite (take_ge a), (take_ge b), (drop_ge a), (drop_ge b), !app_nil_r by lia. simpl.
  rewrite bool_decide_eq_true_2 by apply kept_positions_length.
  rewrite (bind_Ok _ _ m tt m) by done.
  destruct (kept_positions_const a b Ha Hb) as [H1 H2].
  unfold kept_positions in H1, H2. simpl in H1, H2. by rewrite H1, H2.
Qed.


End WithIR.

(** C1, as stated, fails at [Sub] of the constants 1'0 and 1'1: both operands
    are constants and no cell is emitted, but the result is the one bit of
    [a], while the IR's subtraction at the builder's result length has two
    bits, whatever the IR computes. *)
Lemma Sub_fold_is_not_the_IR_fold :
  operands_const (F_Sub [BConst S0] [BConst S1] false) /\
  ~ exists ir : IRFold,
      sub_result_len ir /\ @folds_as_ir ir (F_Sub [BConst S0] [BConst S1] false).
Proof.
  split; [done|]. intros (ir & Hlen & Hfold).
  specialize (Hfold empty_module [BConst S0] eq_refl).
  apply (f_equal length) in Hfold. simpl in Hfold.
  unfold fold, sig_of_const in Hfold. rewrite length_fmap, Hlen in Hfold; [|done].
  simpl in Hfold. discriminate.
Qed.

Section WithIR.

Context {ir : IRFold}.

(** C1, amended.  For [ReduceBool], [Sub] with a subtrahend that is not all
    ones, [Le], [Ge], [Lt], [Eq], [EqWildcard] on operands of equal width,
    [LogicNot], [Not], [Neg], [Shift], [Shiftx], and [Biop] and [Unop] at the
    cell types of their lists: when every operand is a constant, the builder
    leaves the netlist untouched and returns exactly the IR's constant fold
    of that operator on the same operand bits and signedness. *)
Theorem delegated_folds_are_the_IR_folds (c : FoldCall) (m : Module) :
  operands_const c -> delegated c ->
  run c m = Ok (ir_fold c, m).
Proof.
  destruct c; simpl; intros Hc Hd.
  - unfold ReduceBool. by rewrite Hc.
  - destruct Hc as [Ha Hb]. unfold Sub. by rewrite Hd, Ha, Hb.
  - destruct Hc as [Ha Hb]. unfold Le. by rewrite Ha, Hb.
  - destruct Hc as [Ha Hb]. unfold Ge. by rewrite Ha, Hb.
  - destruct Hc as [Ha Hb]. unfold Lt. by rewrite Ha, Hb.
  - destruct Hc as [Ha Hb]. unfold Eq. by rewrite Ha, Hb.
  - destruct Hc as [Ha Hb]. by apply EqWildcard_folds.
  - unfold LogicNot. by rewrite Hc.
  - unfold Not. by rewrite Hc.
  - unfold Neg. by rewrite Hc.
  - destruct Hc as [Ha Hb]. unfold Shift. by rewrite Ha, Hb.
  - destruct Hc as [Ha Hb]. unfold Shiftx. by rewrite Ha, Hb.
  - destruct Hc as [Ha Hb]. unfold Biop. by rewrite Ha, Hb, Hd.
  - unfold Unop. by rewrite Hc, Hd.
Qed.

End WithIR.

Lemma delegated_folds_are_the_IR_folds_witness :
  @run Calc.reference (F_Sub [BConst S1; BConst S0] [BConst S1; BConst Sx] true) empty_module
  = Ok ([BConst Sx; BConst Sx; BConst Sx], empty_module).
Proof.
  apply (@delegated_folds_are_the_IR_folds Calc.reference
           (F_Sub [BConst S1; BConst S0] [BConst S1; BConst Sx] true) empty_module).
  - split; reflexivity.
  - reflexivity.
Defined.

Section WithIR.

Context {ir : IRFold}.

(** *** The three-valued comparison *)


Local Ltac lit3_cases :=
  unfold lit3; intros;
  repeat match goal with H : _ \/ _ |- _ => destruct H end; subst;
  vm_compute; auto.

Lemma lit3_AND a b : lit3 a -> lit3 b -> lit3 (ThreeValued.AND a b).
Proof. lit3_cases. Qed.
Lemma lit3_NOT a : lit3 a -> lit3 (ThreeValued.NOT a).
Proof. lit3_cases. Qed.
Lemma lit3_XOR a b : lit3 a -> lit3 b -> lit3 (ThreeValued.XOR a b).
Proof. lit3_cases. Qed.
Lemma lit3_XNOR a b : lit3 a -> lit3 b -> lit3 (ThreeValued.XNOR a b).
Proof. lit3_cases. Qed.
Lemma lit3_CARRY a b c : lit3 a -> lit3 b -> lit3 c -> lit3 (ThreeValued.CARRY a b c).
Proof. lit3_cases. Qed.
Lemma lit3_convert bit : lit3 (ThreeValued.convert bit).
Proof. unfold ThreeValued.convert, lit3. repeat case_decide; auto. Qed.

Lemma lit3_ripple c xs ys :
  lit3 c -> Forall lit3 xs -> Forall lit3 ys -> lit3 (ripple c xs ys).
Proof.
  intros Hc Hxs. revert c ys Hc.
  assert (forall c, lit3 c -> lit3 (ThreeValued.XOR c (ThreeValued.XNOR 0 0))) as Hend.
  { intros. apply lit3_XOR; [done|]. apply lit3_XNOR; unfold lit3; auto. }
  induction Hxs as [|x xs Hx Hxs IH]; intros c ys Hc Hys.
  - destruct ys; simpl; auto.
  - destruct Hys as [|y ys Hy Hys].
    + destruct xs; simpl; auto.
    + assert (lit3 (ripple (ThreeValued.CARRY x (ThreeValued.NOT y) c) xs ys)) as Hrec.
      { apply IH; [|done]. apply lit3_CARRY; auto using lit3_NOT. }
      destruct xs, ys; try exact Hrec.
      simpl. apply lit3_XOR; [done|]. by apply lit3_XNOR.
Qed.

Lemma lit3_compare_literal op a b sa sb : lit3 (compare_literal op a b sa sb).
Proof.
  assert (forall sig sg w, Forall lit3 (literals sig sg w)) as Hl.
  { intros. unfold literals. apply Forall_fmap, Forall_forall. intros; apply lit3_convert. }
  assert (lit3 (match op with ID_le | ID_ge => (-1)%Z | _ => 1%Z end)) as Hc.
  { unfold lit3. destruct op; auto. }
  unfold compare_literal. destruct op; apply lit3_ripple; auto.
Qed.

(** The loop of [Biop] reads the operands by index, the specification
    extends them first. *)
Lemma extend_u0_by_index (sig : SigSpec) (w : nat) (sg : bool) :
  sig <> [] -> length sig <= w ->
  extend_u0 sig w sg =
  (fun i => if decide (i < length sig) then sig !!! i
            else if sg then msb sig else BConst S0) <$> seq 0 w.
Proof.
  intros Hne Hlen. unfold extend_u0.
  rewrite decide_False by lia.
  assert (0 < length sig) by (destruct sig; [done|simpl; lia]).
  rewrite (decide_True (P := 0 < length sig)) by done.
  replace w with (length sig + (w - length sig)) at 2 by lia.
  rewrite seq_app, fmap_app. f_equal.
  - apply list_eq. intros i. rewrite list_lookup_fmap.
    destruct (decide (i < length sig)) as [Hi|Hi].
    + rewrite lookup_seq_lt by done. simpl. rewrite decide_True by done.
      destruct (lookup_lt_is_Some_2 sig i Hi) as [x Hx].
      by rewrite Hx, (list_lookup_total_correct sig i x).
    + rewrite lookup_seq_ge, lookup_ge_None_2 by lia. done.
  - apply list_eq. intros i. rewrite list_lookup_fmap.
    destruct (decide (i < w - length sig)) as [Hi|Hi].
    + rewrite lookup_replicate_2, lookup_seq_lt by done. simpl.
      rewrite decide_False by lia. by destruct sg.
    + rewrite lookup_seq_ge by lia. simpl. apply lookup_replicate_None. lia.
Qed.

Lemma cmp_loop_ripple (X Y : nat -> Z) (step : cmp_state -> nat -> cmp_state)
    (width : nat) :
  (forall st i, step st i =
     mkCmp (if decide (i <> width - 1)
            then ThreeValued.CARRY (X i) (ThreeValued.NOT (Y i)) (carry st)
            else carry st) (X i) (Y i)) ->
  forall n k st, k + S n = width ->
    ThreeValued.XOR (carry (foldl step st (seq k (S n))))
      (ThreeValued.XNOR (al (foldl step st (seq k (S n))))
                        (bl (foldl step st (seq k (S n)))))
    = ripple (carry st) (X <$> seq k (S n)) (Y <$> seq k (S n)).
Proof.
  intros Hstep. induction n as [|n IH]; intros k st Hk.
  - simpl. rewrite Hstep. simpl. rewrite decide_False by lia. done.
  - change (seq k (S (S n))) with (k :: seq (S k) (S n)).
    rewrite !fmap_cons. cbn [foldl].
    rewrite IH by lia. rewrite Hstep. cbn [carry].
    rewrite decide_True by lia. done.
Qed.

Lemma cmp_result_is_compare_literal op a b sa sb :
  is_compare op = true -> a <> [] -> b <> [] ->
  cmp_result op a b sa sb = compare_literal op a b sa sb.
Proof.
  intros Hop Ha Hb. unfold cmp_result, compare_literal, literals.
  set (width := max (length a) (length b)).
  assert (exists n, width = S n) as [n Hn].
  { destruct a; [done|]. exists (Nat.pred width). subst width. simpl. lia. }
  rewrite (extend_u0_by_index a width sa), (extend_u0_by_index b width sb)
    by (done || lia).
  rewrite <- !list_fmap_compose.
  clearbody width. subst width.
  destruct op; try discriminate Hop;
    match goal with
    | |- _ = ripple _ (?X <$> _) (?Y <$> _) =>
        refine (cmp_loop_ripple X Y _ (S n) _ n 0 _ eq_refl);
        intros st i; reflexivity
    end.
Qed.

Lemma extend_u0_bit (s : State) (w : nat) :
  extend_u0 [BConst s] w false = match w with O => [] | S _ => BConst s :: sig_fill S0 (w - 1) end.
Proof.
  unfold extend_u0. simpl. destruct w as [|w].
  - by rewrite decide_True by lia.
  - rewrite decide_False by lia. done.
Qed.

(** C5, amended.  For [Biop] at [$le], [$lt], [$gt] or [$ge] on operands
    that are not empty and not both fully constant (a constant bit being 0,
    1, x or z), the result is the one of the three-valued algebra over the
    literals of the extended operands: the constant one or zero extended to
    [y_width] when the final literal is +1 or -1, a comparator cell when it
    is 0.  (Operands that are both fully constant, x and z bits included,
    are folded by the IR instead.) *)
Theorem Biop_compares_three_valued (op : CellType) (a b : SigSpec)
    (a_signed b_signed : bool) (y_width : nat) (m : Module) :
  is_compare op = true -> a <> [] -> b <> [] ->
  ~ (is_fully_const a = true /\ is_fully_const b = true) ->
  Biop op a b a_signed b_signed y_width m
  = three_valued_compare op a b a_signed b_signed y_width m.
Proof.
  intros Hop Ha Hb Hconst. unfold Biop, three_valued_compare.
  assert (is_fully_const a && is_fully_const b = false) as ->.
  { apply not_true_is_false. rewrite andb_true_iff. done. }
  rewrite Hop. simpl.
  rewrite !bool_decide_eq_false_2 by done. simpl.
  rewrite cmp_result_is_compare_literal by done.
  assert (Biop_logic op a b a_signed b_signed y_width
          = Biop_cell op a b a_signed b_signed y_width) as ->.
  { unfold Biop_logic. by destruct op. }
  rewrite !extend_u0_bit.
  destruct (lit3_compare_literal op a b a_signed b_signed) as [-> | [-> | ->]]; simpl.
  - destruct y_width as [|w]; [done|]. simpl. by rewrite Nat.sub_0_r.
  - done.
  - done.
Qed.

End WithIR.

(** C5, as stated, fails at 1'x < 1'0: the operands are not both fully
    defined, the three-valued literal is unknown, so the claim has a
    comparator cell emitted; the code folds with the IR and leaves the
    netlist untouched, both operands being constants. *)
Lemma Biop_folds_constants_with_x :
  (is_compare ID_lt = true /\
   ~ (is_fully_def [BConst Sx] = true /\ is_fully_def [BConst S0] = true)) /\
  ~ exists ir : IRFold,
      @Biop ir ID_lt [BConst Sx] [BConst S0] false false 1 empty_module
      = three_valued_compare ID_lt [BConst Sx] [BConst S0] false false 1 empty_module.
Proof.
  split.
  - split; [done|]. intros [H _]. discriminate H.
  - intros [ir H]. vm_compute in H. discriminate H.
Qed.

Lemma Biop_compares_three_valued_witness :
  @Biop Calc.reference ID_lt [BWire (Public 1) 0; BConst S0] [BConst S0; BConst S1]
        false false 4 empty_module
  = Ok ([BConst S1; BConst S0; BConst S0; BConst S0], empty_module).
Proof.
  rewrite (@Biop_compares_three_valued Calc.reference ID_lt
             [BWire (Public 1) 0; BConst S0] [BConst S0; BConst S1]
             false false 4 empty_module).
  - reflexivity.
  - reflexivity.
  - discriminate.
  - discriminate.
  - intros [H _]. discriminate H.
Defined.

Lemma Sub_all_ones_returns_a_witness :
  Forall (fun bit => bit = BConst S1) [BConst S1; BConst S1; BConst S1] /\
  @Sub Calc.reference [BWire (Public 1) 0; BWire (Public 1) 1]
       [BConst S1; BConst S1; BConst S1] true empty_module
  = Ok ([BWire (Public 1) 0; BWire (Public 1) 1], empty_module).
Proof.
  split.
  - repeat constructor.
  - apply (@Sub_all_ones_returns_a Calc.reference). repeat constructor.
Defined.

End BuilderFacts.

(** ** What a run may change

    [trans R c]: every successful run of [c] goes from a state to a state
    related by [R]. *)


Section Trans.

Context {St : Type} (R : St -> St -> Prop) `{!PreOrder R}.

Lemma trans_ret {A} (a : A) : trans R (ret a).
Proof. intros s a' s' H. injection H as _ <-. reflexivity. Qed.

Lemma trans_fail {A} e : trans R (@fail St A e).
Proof. intros s a s' H. discriminate H. Qed.

Lemma trans_get : trans R (@get St).
Proof. intros s a s' H. injection H as _ <-. reflexivity. Qed.

Lemma trans_bind {A B} (c : M St A) (k : A -> M St B) :
  trans R c -> (forall a, trans R (k a)) -> trans R (bind c k).
Proof.
  intros Hc Hk s b s'' H. apply bind_inv in H as (a & s' & H1 & H2).
  etransitivity; [eapply Hc|eapply Hk]; eauto.
Qed.

Lemma trans_modify (f : St -> St) : (forall s, R s (f s)) -> trans R (modify f).
Proof. intros Hf s a s' H. injection H as _ <-. apply Hf. Qed.

Lemma trans_log_assert a b : trans R (@log_assert St a b).
Proof. destruct b; [apply trans_ret|apply trans_fail]. Qed.

Lemma trans_require b : trans R (@require St b).
Proof. destruct b; [apply trans_ret|apply trans_fail]. Qed.

Lemma trans_for_each {A} (l : list A) (body : A -> M St unit) :
  (forall x, x ∈ l -> trans R (body x)) -> trans R (for_each l body).
Proof.
  induction l as [|x l IH]; intros Hb; simpl.
  - apply trans_ret.
  - apply trans_bind.
    + apply Hb. left.
    + intros _. apply IH. intros y Hy. apply Hb. by right.
Qed.

Lemma trans_map_M {A B} (f : A -> M St B) (l : list A) :
  (forall x, x ∈ l -> trans R (f x)) -> trans R (map_M f l).
Proof.
  induction l as [|x l IH]; intros Hb; simpl.
  - apply trans_ret.
  - apply trans_bind; [apply Hb; left|]. intros y.
    apply trans_bind; [apply IH; intros z Hz; apply Hb; by right|].
    intros ys. apply trans_ret.
Qed.

Lemma trans_extract sig off len : trans R (@extract St sig off len).
Proof.
  unfold extract. repeat (apply trans_bind; [apply trans_log_assert|intros _]).
  apply trans_ret.
Qed.

Lemma trans_integer cv : trans R (@integer St cv).
Proof. destruct cv; first [apply trans_ret|apply trans_fail]. Qed.

Lemma trans_svint_as_int v : trans R (@svint_as_int St v).
Proof.
  unfold svint_as_int. repeat case_match; first [apply trans_ret|apply trans_fail].
Qed.

Lemma trans_constant_int e : trans R (@constant_int St e).
Proof.
  unfold constant_int. destruct (constant_of e); [|apply trans_fail].
  apply trans_bind; [apply trans_integer|]. intros. apply trans_svint_as_int.
Qed.

Lemma trans_range_select_bounds e k v l r :
  trans R (@range_select_bounds St e k v l r).
Proof.
  unfold range_select_bounds.
  repeat (apply trans_bind; [first [apply trans_require|apply trans_constant_int]|intros ?]).
  destruct (fixedRange (type_of v)); [|apply trans_fail].
  apply trans_bind; [apply trans_log_assert|intros _]. apply trans_ret.
Qed.

End Trans.

(** *** What lowering may change in the module

    Wires with public names are never touched: fresh wires take [NEW_ID]
    names.  As long as the names from [autoidx] on are free, the processes
    already there keep their root case and the kind and signal of every sync
    rule (only actions are added). *)







Global Instance mext_preorder : PreOrder mext.
Proof.
  split.
  - intros m. split; [done|]. intros Hf. split; [done|].
    intros p pr Hp. exists pr. by repeat split.
  - intros m1 m2 m3 [Hw12 H12] [Hw23 H23]. split.
    + intros n. by rewrite Hw23, Hw12.
    + intros Hf1. destruct (H12 Hf1) as [Hf2 Hp12].
      destruct (H23 Hf2) as [Hf3 Hp23]. split; [done|].
      intros p pr Hp. destruct (Hp12 p pr Hp) as (pr2 & Hp2 & Hr2 & Hs2).
      destruct (Hp23 p pr2 Hp2) as (pr3 & Hp3 & Hr3 & Hs3).
      exists pr3. repeat split; [done|congruence|congruence].
Qed.

(** A change that leaves the wires, the processes and [autoidx] alone. *)
Lemma mext_same (m m' : Module) :
  wires_ m' = wires_ m -> processes m' = processes m -> autoidx m' = autoidx m ->
  mext m m'.
Proof.
  intros Hw Hp Ha. split.
  - intros n. by rewrite Hw.
  - intros Hf. split.
    + intros n Hn. rewrite Hp. apply Hf. lia.
    + intros p pr Hpr. exists pr. rewrite Hp. by repeat split.
Qed.

Lemma trans_NEW_ID {A} (k : IdString -> M Module A) :
  (forall n, trans mext (k (Auto n))) -> trans mext (bind NEW_ID k).
Proof.
  intros Hk m a m' H. unfold bind, NEW_ID in H.
  etransitivity; [|eapply Hk, H].
  split; [done|]. intros Hf. split.
  - intros n Hn. simpl in *. apply Hf. lia.
  - intros p pr Hp. exists pr. by repeat split.
Qed.

Lemma trans_addWire n w : trans mext (addWire (Auto n) w).
Proof.
  intros m a m' H. injection H as _ <-. split.
  - intros k. simpl. by rewrite lookup_insert_ne.
  - intros Hf. split; [done|]. intros p pr Hp. exists pr. by repeat split.
Qed.

Lemma trans_wire name : trans mext (wire name).
Proof. intros m a m' H. injection H as _ <-. reflexivity. Qed.

Lemma trans_wire_signal sym : trans mext (wire_signal sym).
Proof.
  unfold wire_signal. apply trans_bind; [apply _|apply trans_wire|].
  intros [w|]; [apply trans_ret|apply trans_fail]; apply _.
Qed.

Lemma trans_addCell name type : trans mext (addCell name type).
Proof. intros m a m' H. injection H as _ <-. by apply mext_same. Qed.

Lemma trans_setPort cell port sig : trans mext (setPort cell port sig).
Proof. intros m a m' H. injection H as _ <-. by apply mext_same. Qed.

Lemma trans_setParam cell p v : trans mext (setParam cell p v).
Proof. intros m a m' H. injection H as _ <-. by apply mext_same. Qed.

Lemma trans_new_CaseRule : trans mext new_CaseRule.
Proof. intros m a m' H. injection H as _ <-. by apply mext_same. Qed.

Lemma trans_new_SwitchRule : trans mext new_SwitchRule.
Proof. intros m a m' H. injection H as _ <-. by apply mext_same. Qed.

Lemma trans_update_case c f : trans mext (update_case c f).
Proof. intros m a m' H. injection H as _ <-. by apply mext_same. Qed.

Lemma trans_update_switch s f : trans mext (update_switch s f).
Proof. intros m a m' H. injection H as _ <-. by apply mext_same. Qed.

Lemma trans_get_process p : trans mext (get_process p).
Proof.
  intros m a m' H. unfold get_process in H.
  destruct (processes m !! p); [|done]. injection H as _ <-. reflexivity.
Qed.

Lemma trans_push_sync_action p action : trans mext (push_sync_action p action).
Proof.
  intros m a m' H. injection H as _ <-. split; [done|]. intros Hf. split.
  - intros n Hn. simpl. apply lookup_alter_None. by apply Hf.
  - intros q pr Hq. simpl. destruct (decide (p = q)) as [->|Hne].
    + rewrite lookup_alter_eq, Hq. simpl. eexists. split; [done|].
      split; [done|]. simpl. rewrite <- list_fmap_compose. by apply list_fmap_ext.
    + rewrite lookup_alter_ne by done. exists pr. by repeat split.
Qed.

(** A process made under a fresh name. *)
Lemma trans_new_process {A} (k : IdString -> M Module A) :
  (forall p, trans mext (k p)) ->
  trans mext (bind NEW_ID (fun name => bind (addProcess name) k)).
Proof.
  intros Hk m a m' H. unfold bind at 1 in H. unfold NEW_ID in H.
  apply bind_inv in H as (p & m1 & H1 & H2).
  etransitivity; [|eapply Hk, H2].
  unfold addProcess, bind, new_CaseRule, modify, ret in H1. injection H1 as _ <-.
  split; [done|]. intros Hf. split.
  - intros n Hn. simpl in *. rewrite lookup_insert_ne by (intros [=]; lia).
    apply Hf. lia.
  - intros q pr Hq. simpl. exists pr. split; [|by repeat split].
    rewrite lookup_insert_ne; [done|]. intros <-.
    rewrite Hf in Hq by lia. done.
Qed.

(** *** The module operations and the evaluator only extend the module *)

Create HintDb trans discriminated.

Ltac trans_step :=
  lazymatch goal with
  | |- PreOrder _ => apply _
  | |- trans _ (ret _) => apply trans_ret
  | |- trans _ (fail _) => apply trans_fail
  | |- trans _ get => apply trans_get
  | |- trans _ (log_assert _ _) => apply trans_log_assert
  | |- trans _ (require _) => apply trans_require
  | |- trans _ (extract _ _ _) => apply trans_extract
  | |- trans _ (constant_int _) => apply trans_constant_int
  | |- trans _ (integer _) => apply trans_integer
  | |- trans _ (range_select_bounds _ _ _ _ _) => apply trans_range_select_bounds
  | |- trans mext (bind NEW_ID (fun name => bind (addProcess name) _)) =>
      apply trans_new_process; intros ?
  | |- trans mext (bind NEW_ID _) => apply trans_NEW_ID; intros ?
  | |- trans _ (bind _ _) => apply trans_bind; [| |intros ?]
  | |- trans _ (if ?b then _ else _) => destruct b
  | |- trans _ (match ?x with _ => _ end) => destruct x
  | |- trans _ (let (_, _) := ?x in _) => destruct x
  | |- _ => solve [eauto with trans]
  end.

Ltac trans_auto := repeat trans_step.

Ltac forall_inv :=
  repeat match goal with
         | H : Forall _ (_ :: _) |- _ => apply Forall_cons in H as [? H]
         end.

Global Hint Resolve trans_addWire trans_wire trans_wire_signal trans_addCell
  trans_setPort trans_setParam trans_new_CaseRule trans_new_SwitchRule
  trans_update_case trans_update_switch trans_get_process
  trans_push_sync_action : trans.

Lemma trans_add_unary type name a y sg : trans mext (add_unary type name a y sg).
Proof. unfold add_unary. trans_auto. Qed.

Lemma trans_mod_unary type y name a sg : trans mext (mod_unary type y name a sg).
Proof. unfold mod_unary. trans_auto. apply trans_add_unary. Qed.

Lemma trans_add_binary type name a b y sa sb : trans mext (add_binary type name a b y sa sb).
Proof. unfold add_binary. trans_auto. Qed.

Lemma trans_mod_binary type y name a b sg : trans mext (mod_binary type y name a b sg).
Proof. unfold mod_binary. trans_auto. apply trans_add_binary. Qed.

Lemma trans_mod_mux type name a b s : trans mext (mod_mux type name a b s).
Proof. unfold mod_mux, add_mux. trans_auto. Qed.

Lemma trans_mod_Demux name a s : trans mext (mod_Demux name a s).
Proof. unfold mod_Demux. trans_auto. Qed.

Lemma trans_mod_Bmux name a s : trans mext (mod_Bmux name a s).
Proof. unfold mod_Bmux. trans_auto. Qed.

Lemma trans_push_action c a : trans mext (push_action c a).
Proof. apply trans_update_case. Qed.
Lemma trans_push_switch c s : trans mext (push_switch c s).
Proof. apply trans_update_case. Qed.
Lemma trans_set_compare c s : trans mext (set_compare c s).
Proof. apply trans_update_case. Qed.
Lemma trans_push_case c s : trans mext (push_case c s).
Proof. apply trans_update_switch. Qed.
Lemma trans_set_signal c s : trans mext (set_signal c s).
Proof. apply trans_update_switch. Qed.

Global Hint Resolve trans_add_unary trans_mod_unary trans_add_binary trans_mod_binary
  trans_mod_mux trans_mod_Demux trans_mod_Bmux trans_push_action trans_push_switch
  trans_set_compare trans_push_case trans_set_signal : trans.

Lemma trans_mod_named :
  (forall n a sg, trans mext (mod_ReduceBool n a sg)) /\
  (forall n a b sg, trans mext (mod_Le n a b sg)) /\
  (forall n a b sg, trans mext (mod_Ge n a b sg)) /\
  (forall n a b sg, trans mext (mod_Sub n a b sg)) /\
  (forall n a b, trans mext (mod_LogicAnd n a b)) /\
  (forall n a b s, trans mext (mod_Mux n a b s)) /\
  (forall n a b s, trans mext (mod_Bwmux n a b s)) /\
  (forall n a y sg, trans mext (addLogicNot n a y sg)).
Proof.
  repeat apply conj; intros;
    unfold mod_ReduceBool, mod_Le, mod_Ge, mod_Sub, mod_LogicAnd, mod_Mux, mod_Bwmux,
      addLogicNot; eauto with trans.
Qed.

Lemma trans_translate_index_of idx sg range :
  trans mext (translate_index_of idx sg range).
Proof.
  destruct trans_mod_named as (_ & HLe & HGe & HSub & HAnd & _).
  unfold translate_index_of. trans_auto; eauto.
Qed.

Global Hint Resolve trans_translate_index_of : trans.

Lemma trans_new_visitor p md : trans mext (new_visitor p md).
Proof. unfold new_visitor. trans_auto. Qed.

Lemma trans_evaluate_lhs e : trans mext (evaluate_lhs e).
Proof.
  induction e as [e IH] using Expression_parts_ind.
  destruct e; simpl in *; trans_auto;
    try (apply Forall_cons in IH as [IH1 IH2]; exact IH1).
  generalize (@nil SigBit).
  induction IH as [|op ops Hop _ IHops]; intros acc; trans_auto; eauto.
Qed.

Section LoweringFrame.

Variable subroutines : nat -> option Subroutine.
Variable evalf : Subroutine -> list Expression -> option ProcedureContext -> M Module SigSpec.
Hypothesis evalf_trans : forall subr arguments ctx, trans mext (evalf subr arguments ctx).

Lemma trans_evaluate_rhs ctx e : trans mext (evaluate_rhs subroutines evalf ctx e).
Proof.
  destruct trans_mod_named as (HRed & _ & _ & _ & _ & HMux & _ & HNot).
  induction e as [e IH] using Expression_parts_ind.
  destruct e; simpl in *; forall_inv; repeat (trans_step; forall_inv); eauto.
  all: match goal with
       | H : Forall _ ?l |- trans _ (_ ?l []) =>
           generalize (@nil SigBit);
           induction H as [|op ops Hop _ IHops]; intros acc; trans_auto; eauto
       end.
Qed.

End LoweringFrame.

(** ** Signals: sorting, chunks, substitution *)

Section SigSpecFacts.

Implicit Types (sig l : SigSpec) (b x : SigBit) (map : gmap SigBit SigBit).

Lemma SigBit_key_inj : Inj (=) (=) SigBit_key.
Proof.
  intros [s1|[n1|n1] o1] [s2|[n2|n2] o2]; simpl; intros [=]; subst; try done.
  by destruct s1, s2.
Qed.

Global Instance SigBit_le_total : Total SigBit_le.
Proof.
  intros a b. unfold SigBit_le, key_le.
  destruct (SigBit_key a) as [[? ?] ?], (SigBit_key b) as [[? ?] ?]. simpl. lia.
Qed.

Global Instance SigBit_le_trans : Transitive SigBit_le.
Proof.
  intros a b c. unfold SigBit_le, key_le.
  destruct (SigBit_key a) as [[? ?] ?], (SigBit_key b) as [[? ?] ?],
    (SigBit_key c) as [[? ?] ?]. simpl. lia.
Qed.

Global Instance SigBit_le_antisymm : AntiSymm (=) SigBit_le.
Proof.
  intros a b Hab Hba. apply SigBit_key_inj. unfold SigBit_le, key_le in *.
  destruct (SigBit_key a) as [[? ?] ?], (SigBit_key b) as [[? ?] ?]. simpl in *.
  repeat f_equal; lia.
Qed.

Lemma elem_of_sig_sort x l : x ∈ sig_sort l <-> x ∈ l.
Proof. unfold sig_sort. by rewrite merge_sort_Permutation. Qed.

Lemma length_sig_sort l : length (sig_sort l) = length l.
Proof. unfold sig_sort. by rewrite merge_sort_Permutation. Qed.


Lemma elem_of_unique x l : x ∈ unique l <-> x ∈ l.
Proof.
  induction l as [|y l IH]; [done|].
  simpl. destruct l as [|z l]; [done|].
  destruct (decide (y = z)) as [->|Hne].
  - rewrite IH. rewrite !elem_of_cons. tauto.
  - rewrite elem_of_cons, IH. rewrite !elem_of_cons. tauto.
Qed.

Lemma NoDup_unique l : StronglySorted SigBit_le l -> NoDup (unique l).
Proof.
  induction 1 as [|y l Hl IH Hy]; [constructor|].
  simpl. destruct l as [|z l]; [apply NoDup_singleton|].
  destruct (decide (y = z)) as [->|Hne]; [done|].
  apply NoDup_cons. split; [|done].
  rewrite elem_of_unique. intros Hin.
  apply elem_of_cons in Hin as [->|Hin]; [done|].
  apply StronglySorted_inv in Hl as [_ Hz].
  rewrite Forall_forall in Hz, Hy.
  apply Hne. apply (anti_symm SigBit_le).
  - apply Hy. left.
  - by apply Hz.
Qed.

Lemma elem_of_sort_and_unify x l : x ∈ sort_and_unify l <-> x ∈ l.
Proof. unfold sort_and_unify. by rewrite elem_of_unique, elem_of_sig_sort. Qed.

Lemma NoDup_sort_and_unify l : NoDup (sort_and_unify l).
Proof. apply NoDup_unique, StronglySorted_merge_sort; apply _. Qed.

(** The chunks of a signal, put end to end, are the signal. *)
Lemma join_chunks l : mjoin (chunks l) = l.
Proof.
  induction l as [|b l IH]; [done|].
  simpl. destruct (chunks l) as [|[|b' c] cs]; simpl in *.
  - by rewrite <- IH.
  - by rewrite <- IH.
  - destruct (continues b b'); simpl; by rewrite <- IH.
Qed.

Lemma length_sig_of_wire w n : length (sig_of_wire w n) = n.
Proof. unfold sig_of_wire. by rewrite length_fmap, length_seq. Qed.

Lemma lookup_sig_of_wire w n i :
  i < n -> sig_of_wire w n !! i = Some (BWire w i).
Proof.
  intros Hi. unfold sig_of_wire. rewrite list_lookup_fmap, lookup_seq_lt by done. done.
Qed.

Lemma elem_of_sig_of_wire w n b :
  b ∈ sig_of_wire w n <-> exists i, b = BWire w i /\ i < n.
Proof.
  unfold sig_of_wire. rewrite list_elem_of_fmap. split.
  - intros (i & -> & Hi). apply elem_of_seq in Hi. exists i. split; [done|lia].
  - intros (i & -> & Hi). exists i. split; [done|]. apply elem_of_seq. lia.
Qed.

Lemma NoDup_sig_of_wire w n : NoDup (sig_of_wire w n).
Proof.
  unfold sig_of_wire. apply NoDup_fmap_2; [|apply NoDup_seq]. by intros ?? [=].
Qed.

Lemma length_sig_replace map l : length (sig_replace map l) = length l.
Proof. unfold sig_replace. by rewrite length_fmap. Qed.

Lemma lookup_sig_replace map l i :
  sig_replace map l !! i = (fun b => default b (map !! b)) <$> l !! i.
Proof. unfold sig_replace. by rewrite list_lookup_fmap. Qed.

(** [assign_bits]: the keys met are bound, in order; the others keep their
    binding. *)
Lemma assign_bits_nil_l vals map : assign_bits [] vals map = map.
Proof. done. Qed.

Lemma assign_bits_cons k keys v vals map :
  assign_bits (k :: keys) (v :: vals) map = assign_bits keys vals (<[k := v]> map).
Proof. done. Qed.

Lemma lookup_assign_bits_notin keys vals map b :
  b ∉ keys -> assign_bits keys vals map !! b = map !! b.
Proof.
  revert vals map. induction keys as [|k keys IH]; intros vals map Hb; [done|].
  destruct vals as [|v vals]; [done|].
  rewrite assign_bits_cons. apply not_elem_of_cons in Hb as [Hne Hb].
  rewrite IH by done. by rewrite lookup_insert_ne.
Qed.

Lemma lookup_assign_bits_in keys vals map i b :
  NoDup keys -> length keys = length vals -> keys !! i = Some b ->
  assign_bits keys vals map !! b = vals !! i.
Proof.
  revert vals map i. induction keys as [|k keys IH]; intros vals map i Hnd Hlen Hi; [done|].
  destruct vals as [|v vals]; [done|].
  rewrite assign_bits_cons. apply NoDup_cons in Hnd as [Hk Hnd].
  destruct i as [|i]; simpl in *.
  - injection Hi as ->. rewrite lookup_assign_bits_notin by done.
    by rewrite lookup_insert_eq.
  - apply IH; [done|lia|done].
Qed.

Lemma assign_bits_fresh_subseteq keys vals map :
  (forall b, b ∈ keys -> map !! b = None) -> NoDup keys ->
  map ⊆ assign_bits keys vals map.
Proof.
  revert vals map. induction keys as [|k keys IH]; intros vals map Hfresh Hnd; [done|].
  destruct vals as [|v vals]; [done|].
  rewrite assign_bits_cons. apply NoDup_cons in Hnd as [Hk Hnd].
  etransitivity; [|apply IH; [|done]].
  - apply insert_subseteq. apply Hfresh. left.
  - intros b Hb. rewrite lookup_insert_ne by (intros ->; done).
    apply Hfresh. by right.
Qed.

Lemma dom_assign_bits keys vals map :
  length keys = length vals ->
  dom (assign_bits keys vals map) = dom map ∪ list_to_set keys.
Proof.
  revert vals map. induction keys as [|k keys IH]; intros vals map Hlen.
  - simpl. set_solver.
  - destruct vals as [|v vals]; [done|].
    rewrite assign_bits_cons, IH by (simpl in Hlen; lia).
    rewrite dom_insert_L. set_solver.
Qed.

End SigSpecFacts.

(** ** Loops *)

Lemma for_each_inv {St A} (I : list A -> St -> Prop) (l : list A)
    (body : A -> M St unit) :
  (forall done x rest s s', l = done ++ x :: rest ->
     I done s -> body x s = Ok (tt, s') -> I (done ++ [x]) s') ->
  forall s s', I [] s -> for_each l body s = Ok (tt, s') -> I l s'.
Proof.
  intros Hstep.
  assert (forall rest done s s', l = done ++ rest -> I done s ->
            for_each rest body s = Ok (tt, s') -> I l s') as Hgen.
  { induction rest as [|x rest IH]; intros done s s' Hl HI Hrun.
    - simpl in Hrun. injection Hrun as <-. rewrite app_nil_r in Hl. by subst.
    - simpl in Hrun. apply bind_inv in Hrun as ([] & s1 & Hx & Hrest).
      apply (IH (done ++ [x]) s1 s'); [by rewrite <- (assoc_L (++))| |done].
      eapply Hstep; eauto. }
  intros s s' HI Hrun. by apply (Hgen l [] s s').
Qed.

Lemma for_each_total {St A} (I : St -> Prop) (l : list A) (body : A -> M St unit) :
  (forall x s, x ∈ l -> I s -> exists s', body x s = Ok (tt, s') /\ I s') ->
  forall s, I s -> exists s', for_each l body s = Ok (tt, s') /\ I s'.
Proof.
  induction l as [|x l IH]; intros Hbody s HI.
  - exists s. done.
  - destruct (Hbody x s) as (s1 & Hx & HI1); [left|done|].
    destruct (IH (fun y t Hy => Hbody y t (list_elem_of_further _ _ _ Hy)) s1 HI1)
      as (s' & Hrest & HI').
    exists s'. split; [|done]. simpl. by rewrite (bind_Ok _ _ s tt s1).
Qed.

(** ** The procedural visitor *)



Global Instance vext_preorder : PreOrder vext.
Proof.
  split.
  - intros v. split; [reflexivity|]. by repeat split.
  - intros v1 v2 v3 (Hm12 & [Hp12 Ha12] & Hs12 & Hd12) (Hm23 & [Hp23 Ha23] & Hs23 & Hd23).
    split; [by etransitivity|]. repeat split; [congruence|congruence|by etransitivity|auto].
Qed.

Lemma on_mod_inv {A} (c : M Module A) v a v' :
  on_mod c v = Ok (a, v') ->
  exists m', c (mod_ v) = Ok (a, m') /\ v' = set_mod m' v.
Proof.
  unfold on_mod. destruct (c (mod_ v)) as [[a' m']|e]; [|done].
  intros [= <- <-]. eauto.
Qed.

Lemma on_mod_Ok {A} (c : M Module A) v a m' :
  c (mod_ v) = Ok (a, m') -> on_mod c v = Ok (a, set_mod m' v).
Proof. intros H. unfold on_mod. by rewrite H. Qed.

Lemma trans_on_mod {A} (c : M Module A) : trans mext c -> trans vext (on_mod c).
Proof.
  intros Hc v a v' H. apply on_mod_inv in H as (m' & H & ->).
  split; [eapply Hc, H|]. by repeat split.
Qed.

Lemma vext_same (v v' : ProceduralVisitor) :
  mod_ v' = mod_ v -> proc v' = proc v -> args (ctx v') = args (ctx v) ->
  staging v' = staging v ->
  assigned_blocking v' = assigned_blocking v ->
  assigned_nonblocking v' = assigned_nonblocking v ->
  vext v v'.
Proof.
  intros Hm Hp Ha Hs Hb Hn. unfold vext, pools_disjoint.
  rewrite Hm, Hp, Ha, Hs, Hb, Hn. split; [reflexivity|]. by repeat split.
Qed.

Lemma mext_add_wire (m m' : Module) k w :
  wires_ m' = <[Auto k := w]> (wires_ m) -> processes m' = processes m ->
  autoidx m <= autoidx m' -> mext m m'.
Proof.
  intros Hw Hp Ha. split.
  - intros n. by rewrite Hw, lookup_insert_ne.
  - intros Hf. split.
    + intros n Hn. rewrite Hp. apply Hf. lia.
    + intros p pr Hpr. exists pr. rewrite Hp. by repeat split.
Qed.


Lemma for_each_run {St A} (I : list A -> St -> Prop) (l : list A)
    (body : A -> M St unit) :
  (forall done x rest s, l = done ++ x :: rest -> I done s ->
     exists s', body x s = Ok (tt, s') /\ I (done ++ [x]) s') ->
  forall s, I [] s -> exists s', for_each l body s = Ok (tt, s') /\ I l s'.
Proof.
  intros Hstep.
  assert (forall rest done s, l = done ++ rest -> I done s ->
            exists s', for_each rest body s = Ok (tt, s') /\ I l s') as Hgen.
  { induction rest as [|x rest IH]; intros done s Hl HI.
    - exists s. rewrite app_nil_r in Hl. by subst.
    - destruct (Hstep done x rest s Hl HI) as (s1 & Hx & HI1).
      destruct (IH (done ++ [x]) s1) as (s' & Hrest & HI');
        [by rewrite <- (assoc_L (++))|done|].
      exists s'. split; [|done]. simpl. by rewrite (bind_Ok _ _ s tt s1). }
  intros s HI. by apply (Hgen l [] s).
Qed.

(** *** [staging_signal] *)


Lemma staging_signal_run (lvalue : SigSpec) (v : ProceduralVisitor) :
  Forall (fun b => is_wire b = true) lvalue ->
  exists v',
    staging_signal lvalue v = Ok (sig_replace (staging v') lvalue, v') /\
    same_frame v v' /\
    mext (mod_ v) (mod_ v') /\
    autoidx (mod_ v) <= autoidx (mod_ v') /\
    case_rules (mod_ v') = case_rules (mod_ v) /\
    processes (mod_ v') = processes (mod_ v) /\
    staging v ⊆ staging v' /\
    dom (staging v') = dom (staging v) ∪ list_to_set lvalue /\
    (forall b s, staging v' !! b = Some s -> staging v !! b = None -> fresh_bit v v' s).
Proof.
  intros Hwire. unfold staging_signal.
  assert (forallb is_wire lvalue = true) as ->.
  { apply forallb_forall. intros b Hb. rewrite Forall_forall in Hwire.
    apply Hwire. by apply list_elem_of_In. }
  rewrite (bind_Ok _ _ v tt v) by done.
  rewrite (bind_Ok _ _ v v v) by done.
  set (to_create := sort_and_unify (filter (fun bit => staging v !! bit = None) lvalue)).
  set (body := fun chunk : list SigBit => _).
  pose (I := fun (done : list (list SigBit)) (s : ProceduralVisitor) =>
    same_frame v s /\ mext (mod_ v) (mod_ s) /\
    autoidx (mod_ v) <= autoidx (mod_ s) /\
    case_rules (mod_ s) = case_rules (mod_ v) /\
    processes (mod_ s) = processes (mod_ v) /\
    staging v ⊆ staging s /\
    dom (staging s) = dom (staging v) ∪ list_to_set (mjoin done) /\
    (forall b x, staging s !! b = Some x -> staging v !! b = None -> fresh_bit v s x)).
  destruct (for_each_run I (chunks to_create) body) with (s := v)
    as (v' & Hrun & Hframe & Hm & Ha & Hc & Hp & Hsub & Hdom & Hfresh).
  - intros done chunk rest s Hsplit (Hframe & Hm & Ha & Hc & Hp & Hsub & Hdom & Hfresh).
    eexists. split; [reflexivity|].
    assert (to_create = mjoin done ++ chunk ++ mjoin rest) as Hjoin.
    { by rewrite <- (join_chunks to_create), Hsplit, join_app. }
    assert (NoDup (mjoin done ++ chunk ++ mjoin rest)) as Hnd.
    { rewrite <- Hjoin. apply NoDup_sort_and_unify. }
    apply NoDup_app in Hnd as (_ & Hdisj & Hnd).
    apply NoDup_app in Hnd as (Hndc & _ & _).
    assert (forall b, b ∈ chunk -> staging s !! b = None) as Hnew.
    { intros b Hb. apply not_elem_of_dom. rewrite Hdom.
      assert (b ∈ to_create) as Hin.
      { rewrite Hjoin, !elem_of_app. auto. }
      apply elem_of_sort_and_unify, list_elem_of_filter in Hin as [Hnone _].
      apply not_elem_of_union. split; [by apply not_elem_of_dom|].
      rewrite elem_of_list_to_set. intros Hd. apply (Hdisj b Hd).
      apply elem_of_app. auto. }
    unfold I. split_and!; simpl.
    + exact Hframe.
    + etransitivity; [apply Hm|].
      eapply mext_add_wire; simpl; [reflexivity|reflexivity|lia].
    + lia.
    + done.
    + done.
    + etransitivity; [apply Hsub|]. by apply assign_bits_fresh_subseteq.
    + rewrite dom_assign_bits by (by rewrite length_sig_of_wire).
      rewrite Hdom, join_app. simpl. rewrite app_nil_r, list_to_set_app_L. set_solver.
    + intros b x Hx Hnone.
      destruct (decide (b ∈ chunk)) as [Hin|Hnin].
      * apply list_elem_of_lookup in Hin as [i Hi].
        rewrite (lookup_assign_bits_in _ _ _ i) in Hx
          by (done || by rewrite length_sig_of_wire).
        rewrite lookup_sig_of_wire in Hx by (eapply lookup_lt_Some; eauto).
        injection Hx as <-. exists (autoidx (mod_ s)), i. split; [done|]. simpl. lia.
      * rewrite lookup_assign_bits_notin in Hx by done.
        destruct (Hfresh b x Hx Hnone) as (k & o & -> & Hk).
        exists k, o. split; [done|]. simpl. lia.
  - unfold I. split_and!; try done.
    + simpl. set_solver.
    + intros b x Hx Hnone. congruence.
  - exists v'. rewrite (bind_Ok _ _ v tt v') by done.
    split; [reflexivity|].
    split_and!; try done.
    rewrite Hdom, join_chunks. apply set_eq. intros b.
    rewrite !elem_of_union, !elem_of_list_to_set.
    unfold to_create. rewrite elem_of_sort_and_unify, list_elem_of_filter, elem_of_dom.
    destruct (staging v !! b) eqn:E.
    + split; intros _; left; eauto.
    + split.
      * intros [[? [=]]|[_ ?]]. by right.
      * intros [[? [=]]|?]. by right.
Qed.

Lemma trans_staging_signal lvalue : trans vext (staging_signal lvalue).
Proof.
  intros v r v' H. destruct (forallb is_wire lvalue) eqn:E.
  - assert (Forall (fun b => is_wire b = true) lvalue) as Hwire.
    { apply Forall_forall. intros b Hb. rewrite forallb_forall in E.
      apply E. by apply list_elem_of_In. }
    destruct (staging_signal_run lvalue v Hwire)
      as (v'' & Hrun & Hframe & Hm & _ & _ & _ & Hsub & _).
    rewrite Hrun in H. injection H as _ <-.
    destruct Hframe as (Hp & _ & Hctx & Hb & Hn & _).
    split; [done|]. split; [by rewrite Hctx|]. split; [done|].
    unfold pools_disjoint. by rewrite Hb, Hn.
  - unfold staging_signal in H. rewrite E in H. discriminate H.
Qed.

(** *** The two pools *)

Lemma pool_check_any_false sig pool b :
  pool_check_any sig pool = false -> b ∈ sig -> is_wire b = true -> b ∉ pool.
Proof.
  unfold pool_check_any. intros H Hb Hw Hin.
  assert (existsb (fun b => is_wire b && bool_decide (b ∈ pool)) sig = true) as Ht.
  { apply existsb_exists. exists b. split; [by apply list_elem_of_In|].
    rewrite Hw. simpl. by apply bool_decide_eq_true. }
  congruence.
Qed.


Lemma elem_of_pool_add sig pool b :
  b ∈ pool_add sig pool <-> b ∈ pool \/ (b ∈ sig /\ is_wire b = true).
Proof.
  unfold pool_add. rewrite elem_of_union, elem_of_list_to_set, list_elem_of_filter. tauto.
Qed.

Lemma pool_add_disjoint sig pool other :
  pool ## other -> pool_check_any sig other = false -> pool_add sig pool ## other.
Proof.
  intros Hd Hc b Hb Ho. apply elem_of_pool_add in Hb as [Hb|[Hb Hw]].
  - by apply (Hd b).
  - by apply (pool_check_any_false sig other b).
Qed.





Lemma trans_assign blocking lvalue masked_rvalue :
  trans vext (assign blocking lvalue masked_rvalue).
Proof.
  intros v a v' H. unfold assign in H.
  destruct (bool_decide (length lvalue = length masked_rvalue)); [|discriminate H].
  rewrite (bind_Ok _ _ v tt v) in H by done.
  rewrite (bind_Ok _ _ v v v) in H by done.
  apply bind_inv in H as ([] & v1 & H1 & H2).
  apply bind_inv in H2 as (target & v2 & H2 & H3).
  rewrite (bind_Ok _ _ v2 v2 v2) in H3 by done.
  assert (vext v v1) as Hv1.
  { destruct blocking.
    - destruct (pool_check_any lvalue (assigned_nonblocking v)) eqn:Hc;
        [discriminate H1|]. injection H1 as <-.
      split; [reflexivity|]. split; [done|]. split; [done|].
      unfold pools_disjoint. simpl. intros Hd. by apply pool_add_disjoint.
    - destruct (pool_check_any lvalue (assigned_blocking v)) eqn:Hc;
        [discriminate H1|]. injection H1 as <-.
      split; [reflexivity|]. split; [done|]. split; [done|].
      unfold pools_disjoint. simpl. intros Hd. symmetry.
      apply pool_add_disjoint; [by symmetry|done]. }
  etransitivity; [exact Hv1|].
  etransitivity; [eapply trans_staging_signal, H2|].
  eapply (trans_on_mod _ (trans_push_action _ _)), H3.
Qed.

(** *** Every handler extends the state *)

Lemma vext_set_current_case c v : vext v (set_current_case c v).
Proof. by apply vext_same. Qed.

Lemma vext_set_rvalue_subs s v : vext v (set_rvalue_subs s v).
Proof. by apply vext_same. Qed.

Lemma vext_set_print_priority p v : vext v (set_print_priority p v).
Proof. by apply vext_same. Qed.

Lemma trans_NEW_ID_alone : trans mext NEW_ID.
Proof.
  intros m a m' H. injection H as _ <-. split; [done|]. intros Hf. split.
  - intros n Hn. simpl in *. apply Hf. lia.
  - intros p pr Hp. exists pr. by repeat split.
Qed.

Lemma trans_on_mod_NEW_ID {A} (k : IdString -> M ProceduralVisitor A) :
  (forall n, trans vext (k (Auto n))) -> trans vext (bind (on_mod NEW_ID) k).
Proof.
  intros Hk v a v' H. apply bind_inv in H as (name & v1 & H1 & H2).
  etransitivity; [eapply (trans_on_mod _ trans_NEW_ID_alone), H1|].
  apply on_mod_inv in H1 as (m' & H1 & ->). injection H1 as <- _.
  eapply Hk, H2.
Qed.

Ltac vtrans_step :=
  lazymatch goal with
  | |- trans vext (bind (on_mod NEW_ID) _) => apply trans_on_mod_NEW_ID; intros ?
  | |- forall _, _ => intros ?
  | |- vext ?v (set_current_case _ ?v) => apply vext_set_current_case
  | |- vext ?v (set_rvalue_subs _ ?v) => apply vext_set_rvalue_subs
  | |- vext ?v _ => by apply vext_same
  | |- trans vext (on_mod _) => apply trans_on_mod; trans_auto
  | |- trans vext (modify _) => apply trans_modify
  | |- trans vext (for_each _ _) => apply trans_for_each
  | |- trans vext (map_M _ _) => apply trans_map_M
  | |- _ => trans_step
  end.

Ltac vtrans_auto := repeat vtrans_step.

Lemma trans_context_enable : trans vext context_enable.
Proof. unfold context_enable. vtrans_auto. Qed.

Lemma trans_collect_triggers {St} (R : St -> St -> Prop) `{!PreOrder R} syncs acc :
  trans R (@collect_triggers St syncs acc).
Proof.
  revert acc. induction syncs as [|s syncs IH]; intros [[i t] p]; simpl; trans_auto; eauto.
Qed.

Lemma trans_set_cell_trigger cell : trans vext (set_cell_trigger cell).
Proof.
  unfold set_cell_trigger. vtrans_auto;
    first [apply trans_collect_triggers; apply _ | apply trans_context_enable].
Qed.

Lemma trans_new_SwitchBuilder parent sig : trans vext (new_SwitchBuilder parent sig).
Proof. unfold new_SwitchBuilder. vtrans_auto. Qed.

Lemma trans_branch b cmp f :
  (forall rule, trans vext (f rule)) -> trans vext (branch b cmp f).
Proof. intros Hf. unfold branch. vtrans_auto. Qed.

Lemma trans_finish_branch rule cs source done :
  trans vext (finish_branch rule cs source done).
Proof.
  revert done. induction cs as [|c cs IH]; intros done; simpl; vtrans_auto.
Qed.

Lemma trans_finish b : trans vext (finish b).
Proof. unfold finish. vtrans_auto. apply trans_finish_branch. Qed.

Lemma trans_descend case_save : trans vext (descend case_save).
Proof. unfold descend. vtrans_auto. Qed.

Global Hint Resolve trans_staging_signal trans_assign trans_context_enable
  trans_set_cell_trigger trans_new_SwitchBuilder trans_finish trans_descend
  trans_finish_branch : trans.

Section ProceduresFrame.

Variable subroutines : nat -> option Subroutine.
Variable evalf : Subroutine -> list Expression -> option ProcedureContext -> M Module SigSpec.
Hypothesis evalf_trans : forall subr arguments ctx, trans mext (evalf subr arguments ctx).

Lemma trans_eval_rhs e : trans vext (eval_rhs subroutines evalf e).
Proof.
  unfold eval_rhs. vtrans_auto. by apply trans_evaluate_rhs.
Qed.

Lemma trans_display_arg arg : trans vext (display_arg subroutines evalf arg).
Proof.
  unfold display_arg. destruct arg; vtrans_auto; apply trans_eval_rhs.
Qed.

Lemma trans_translate_index e range ctx :
  trans mext (translate_index subroutines evalf e range ctx).
Proof.
  unfold translate_index. trans_auto. by apply trans_evaluate_rhs.
Qed.

Lemma trans_etch lexpr mask rvalue : trans vext (etch subroutines evalf lexpr mask rvalue).
Proof.
  revert mask rvalue. induction lexpr as [e IH] using Expression_parts_ind.
  intros mask rvalue.
  destruct e; simpl in *; forall_inv; vtrans_auto; eauto;
    try apply trans_translate_index.
Qed.

Lemma trans_handle_ExpressionStatement e :
  trans vext (handle_ExpressionStatement subroutines evalf e).
Proof.
  unfold handle_ExpressionStatement. destruct e; vtrans_auto;
    first [apply trans_display_arg | apply trans_eval_rhs | apply trans_etch
          | apply trans_evaluate_lhs | idtac].
  all: destruct trans_mod_named as (_ & _ & _ & _ & _ & _ & HBw & _); eauto.
Qed.

Lemma trans_visit stmt : trans vext (visit subroutines evalf stmt).
Proof.
  induction stmt as [s IH] using Statement_parts_ind.
  destruct s as [ e | sq body | stmts | conds pats ifTrue ifFalse
                | cn ck e items dflt | | | | | ]; simpl in *.
  - apply trans_handle_ExpressionStatement.
  - forall_inv. vtrans_auto; try done.
  - induction IH as [|x l Hx _ IHl]; vtrans_auto; eauto.
  - apply Forall_cons in IH as [HT HF].
    destruct trans_mod_named as (HRed & _).
    destruct conds as [|c [|]]; try apply trans_fail; try apply _.
    destruct pats as [|p [|]]; try apply trans_fail; try apply _.
    vtrans_auto; eauto using trans_eval_rhs;
      apply trans_branch; intros rule; vtrans_auto; simpl in *; forall_inv; eauto.
  - apply Forall_app in IH as [HD HI].
    vtrans_auto; eauto using trans_eval_rhs.
    + clear HD.
      match goal with |- trans _ (_ items ?b) => generalize b end.
      induction items as [|[exprs s] items IHitems]; intros b; simpl in *.
      * apply trans_ret; apply _.
      * apply Forall_cons in HI as [Hs HI].
        vtrans_auto; eauto using trans_eval_rhs.
        apply trans_branch. intros rule. vtrans_auto; try done.
    + apply trans_branch; intros rule; vtrans_auto; simpl in *; forall_inv; eauto.
  - apply trans_fail; apply _.
  - apply trans_fail; apply _.
  - apply trans_ret; apply _.
  - apply trans_ret; apply _.
  - apply trans_fail; apply _.
Qed.

End ProceduresFrame.

Lemma trans_bind_get {St B} (R : St -> St -> Prop) (k : St -> M St B) :
  (forall s b s', k s s = Ok (b, s') -> R s s') -> trans R (bind get k).
Proof. intros Hk s b s' H. by apply (Hk s b s'). Qed.

Section FunctionsFrame.

Variable subroutines : nat -> option Subroutine.

Lemma trans_bind_arguments evalf formals actuals ctx acc :
  (forall subr arguments ctx, trans mext (evalf subr arguments ctx)) ->
  trans mext (bind_arguments subroutines evalf formals actuals ctx acc).
Proof.
  intros Hev. revert actuals acc.
  induction formals as [|f formals IH]; intros [|a actuals] acc; simpl; trans_auto;
    first [by apply trans_evaluate_rhs | apply IH].
Qed.

Lemma new_process_inv {A} (k : IdString -> M Module A) m a m' :
  bind NEW_ID (fun name => bind (addProcess name) k) m = Ok (a, m') ->
  exists p m1, mext m m1 /\ k p m1 = Ok (a, m').
Proof.
  intros H. unfold bind at 1 in H. unfold NEW_ID in H.
  apply bind_inv in H as (p & m1 & H1 & H2).
  exists p, m1. split; [|done].
  apply (trans_new_process (fun p => ret p) (fun p => trans_ret mext p) m p m1).
  unfold bind at 1. unfold NEW_ID. by rewrite (bind_Ok _ _ _ _ _ H1).
Qed.

Lemma trans_evaluate_function_body evalf subr arguments ctx :
  (forall subr arguments ctx, trans mext (evalf subr arguments ctx)) ->
  trans mext (evaluate_function_body subroutines evalf subr arguments ctx).
Proof.
  intros Hev m r m' H. unfold evaluate_function_body in H.
  apply bind_inv in H as ([] & m1 & H1 & H).
  apply (trans_log_assert mext) in H1.
  apply new_process_inv in H as (p & m2 & H2 & H).
  apply bind_inv in H as (visitor & m3 & H3 & H).
  apply trans_new_visitor in H3.
  apply bind_inv in H as ([] & m4 & H4 & H).
  apply (trans_log_assert mext) in H4.
  apply bind_inv in H as (bound & m5 & H5 & H).
  apply (trans_bind_arguments evalf _ _ _ _ Hev) in H5.
  unfold bind at 1 in H. simpl in H.
  destruct (visit subroutines evalf (getBody subr) _) as [[[] v']|e] eqn:Hv; [|done].
  apply (trans_visit subroutines evalf Hev) in Hv. destruct Hv as [Hm _].
  simpl in Hm.
  assert (mext (mod_ v') m') as Hlast.
  { eapply (trans_bind mext); [apply trans_wire_signal| |exact H].
    intros. apply trans_ret. apply _. }
  repeat (etransitivity; [eassumption|]). done.
Qed.

Lemma trans_evaluate_function fuel subr arguments ctx :
  trans mext (evaluate_function subroutines fuel subr arguments ctx).
Proof.
  revert subr arguments ctx. induction fuel as [|fuel IH]; intros; simpl.
  - apply trans_fail.
  - by apply trans_evaluate_function_body.
Qed.

End FunctionsFrame.
(** *** Where the assertions at the end of [evaluate_rhs] cannot fail *)

Section Safe.

Context {St : Type}.

Lemma safe_ret {A} (a : A) : safe (@ret St A a).
Proof. intros s e H. discriminate H. Qed.

Lemma safe_fail {A} e : passes e -> safe (@fail St A e).
Proof. intros He s e' H. injection H as <-. exact He. Qed.

Lemma safe_get : safe (@get St).
Proof. intros s e H. discriminate H. Qed.

Lemma safe_modify f : safe (@modify St f).
Proof. intros s e H. discriminate H. Qed.

Lemma safe_bind {A B} (c : M St A) (k : A -> M St B) :
  safe c -> (forall a, safe (k a)) -> safe (bind c k).
Proof.
  intros Hc Hk s e H. unfold bind in H.
  destruct (c s) as [[a s']|e'] eqn:E.
  - eapply Hk, H.
  - injection H as <-. eapply Hc, E.
Qed.

Lemma safe_log_assert a b : rhs_post a = false -> safe (@log_assert St a b).
Proof. intros Ha. destruct b; [apply safe_ret|by apply safe_fail]. Qed.

Lemma safe_require b : safe (@require St b).
Proof. destruct b; [apply safe_ret|by apply safe_fail]. Qed.

Lemma safe_for_each {A} (l : list A) (body : A -> M St unit) :
  (forall x, safe (body x)) -> safe (for_each l body).
Proof.
  intros Hb. induction l as [|x l IH]; simpl.
  - apply safe_ret.
  - apply safe_bind; [apply Hb|]. intros _. apply IH.
Qed.

Lemma safe_map_M {A B} (f : A -> M St B) (l : list A) :
  (forall x, safe (f x)) -> safe (map_M f l).
Proof.
  intros Hb. induction l as [|x l IH]; simpl.
  - apply safe_ret.
  - apply safe_bind; [apply Hb|]. intros y.
    apply safe_bind; [apply IH|]. intros ys. apply safe_ret.
Qed.

End Safe.

Create HintDb safe discriminated.

Ltac safe_step :=
  lazymatch goal with
  | |- safe (ret _) => apply safe_ret
  | |- safe (fail _) => apply safe_fail; done
  | |- safe get => apply safe_get
  | |- safe (modify _) => apply safe_modify
  | |- safe (log_assert _ _) => apply safe_log_assert; done
  | |- safe (require _) => apply safe_require
  | |- safe (bind _ _) => apply safe_bind; [|intros ?]
  | |- safe (for_each _ _) => apply safe_for_each; intros ?
  | |- safe (map_M _ _) => apply safe_map_M; intros ?
  | |- safe (if ?b then _ else _) => destruct b
  | |- safe (match ?x with _ => _ end) => destruct x
  | |- safe (let (_, _) := ?x in _) => destruct x
  | |- _ => solve [eauto with safe]
  end.

Ltac safe_auto := repeat safe_step.

Lemma safe_on_mod {A} (c : M Module A) : safe c -> safe (on_mod c).
Proof.
  intros Hc v e H. unfold on_mod in H.
  destruct (c (mod_ v)) as [[a m]|e'] eqn:E; [done|].
  injection H as <-. eapply Hc, E.
Qed.

Lemma safe_NEW_ID : safe NEW_ID.
Proof. intros s e H. discriminate H. Qed.

Lemma safe_wire name : safe (wire name).
Proof. intros s e H. discriminate H. Qed.

Lemma safe_new_CaseRule : safe new_CaseRule.
Proof. intros s e H. discriminate H. Qed.

Lemma safe_new_SwitchRule : safe new_SwitchRule.
Proof. intros s e H. discriminate H. Qed.

Lemma safe_get_process p : safe (get_process p).
Proof.
  intros m e H. unfold get_process in H.
  destruct (processes m !! p); [done|]. by injection H as <-.
Qed.

Global Hint Resolve safe_NEW_ID safe_wire safe_new_CaseRule safe_new_SwitchRule
  safe_get_process safe_on_mod : safe.

Lemma safe_addWire name w : safe (addWire name w).
Proof. unfold addWire. safe_auto. Qed.
Lemma safe_addCell name type : safe (addCell name type).
Proof. unfold addCell. safe_auto. Qed.
Lemma safe_setPort cell port sig : safe (setPort cell port sig).
Proof. unfold setPort. safe_auto. Qed.
Lemma safe_setParam cell p v : safe (setParam cell p v).
Proof. unfold setParam. safe_auto. Qed.
Lemma safe_update_case c f : safe (update_case c f).
Proof. unfold update_case. safe_auto. Qed.
Lemma safe_update_switch s f : safe (update_switch s f).
Proof. unfold update_switch. safe_auto. Qed.
Lemma safe_update_process p f : safe (update_process p f).
Proof. unfold update_process. safe_auto. Qed.

Global Hint Resolve safe_addWire safe_addCell safe_setPort safe_setParam
  safe_update_case safe_update_switch safe_update_process : safe.

Lemma safe_extract {St} sig off len : safe (@extract St sig off len).
Proof. unfold extract. safe_auto. Qed.

Lemma safe_constant_int {St} e : safe (@constant_int St e).
Proof. unfold constant_int, integer, svint_as_int. safe_auto. Qed.

Lemma safe_range_select_bounds {St} e k v l r :
  safe (@range_select_bounds St e k v l r).
Proof. unfold range_select_bounds. safe_auto. all: apply safe_constant_int. Qed.

Global Hint Resolve safe_extract safe_constant_int safe_range_select_bounds : safe.

Lemma safe_add_unary type name a y sg : safe (add_unary type name a y sg).
Proof. unfold add_unary. safe_auto. Qed.
Lemma safe_mod_unary type y name a sg : safe (mod_unary type y name a sg).
Proof. unfold mod_unary, add_unary. safe_auto. Qed.
Lemma safe_add_binary type name a b y sa sb : safe (add_binary type name a b y sa sb).
Proof. unfold add_binary. safe_auto. Qed.
Lemma safe_mod_binary type y name a b sg : safe (mod_binary type y name a b sg).
Proof. unfold mod_binary, add_binary. safe_auto. Qed.
Lemma safe_mod_mux type name a b s : safe (mod_mux type name a b s).
Proof. unfold mod_mux, add_mux. safe_auto. Qed.
Lemma safe_mod_Demux name a s : safe (mod_Demux name a s).
Proof. unfold mod_Demux. safe_auto. Qed.
Lemma safe_mod_Bmux name a s : safe (mod_Bmux name a s).
Proof. unfold mod_Bmux. safe_auto. Qed.

Global Hint Resolve safe_mod_unary safe_add_unary safe_add_binary safe_mod_binary safe_mod_mux
  safe_mod_Demux safe_mod_Bmux : safe.

Lemma safe_translate_index_of idx sg range : safe (translate_index_of idx sg range).
Proof.
  unfold translate_index_of, mod_Le, mod_Ge, mod_LogicAnd, mod_Sub. safe_auto.
Qed.

Lemma safe_evaluate_lhs e : safe (evaluate_lhs e).
Proof.
  induction e as [e IH] using Expression_parts_ind.
  destruct e; simpl in *; unfold wire_signal; forall_inv;
    repeat (safe_step; forall_inv); eauto.
  generalize (@nil SigBit).
  induction IH as [|op ops Hop _ IHops]; intros acc; safe_auto; eauto.
Qed.

Global Hint Resolve safe_translate_index_of safe_evaluate_lhs : safe.

Lemma safe_staging_signal lvalue : safe (staging_signal lvalue).
Proof. unfold staging_signal. safe_auto. Qed.
Lemma safe_context_enable : safe context_enable.
Proof. unfold context_enable, push_action. safe_auto. Qed.
Lemma safe_new_SwitchBuilder parent sig : safe (new_SwitchBuilder parent sig).
Proof. unfold new_SwitchBuilder, set_signal, push_switch. safe_auto. Qed.
Lemma safe_descend case_save : safe (descend case_save).
Proof. unfold descend, push_switch, push_case. safe_auto. Qed.

Global Hint Resolve safe_staging_signal safe_context_enable safe_new_SwitchBuilder
  safe_descend : safe.

Lemma safe_collect_triggers {St} syncs acc : safe (@collect_triggers St syncs acc).
Proof.
  revert acc. induction syncs as [|s syncs IH]; intros [[i t] p]; simpl; safe_auto.
Qed.

Lemma safe_set_cell_trigger cell : safe (set_cell_trigger cell).
Proof. unfold set_cell_trigger. safe_auto. apply safe_collect_triggers. Qed.

Lemma safe_assign blocking lvalue masked_rvalue :
  safe (assign blocking lvalue masked_rvalue).
Proof. unfold assign, push_action. safe_auto. Qed.

Lemma safe_finish_branch rule cs source done :
  safe (finish_branch rule cs source done).
Proof.
  revert done. induction cs as [|c cs IH]; intros done; simpl;
    unfold push_action; safe_auto.
Qed.

Lemma safe_finish b : safe (finish b).
Proof. unfold finish, push_action. safe_auto. apply safe_finish_branch. Qed.

Global Hint Resolve safe_set_cell_trigger safe_assign safe_finish safe_finish_branch
  : safe.
(** *** What a run returns *)

Section Yields.

Context {St : Type} (P : St -> Prop) (R : St -> St -> Prop) (HP : stable P R).

Lemma yields_ret {A} (a : A) (Q : A -> Prop) : Q a -> yields P (ret a) Q.
Proof. intros Ha s _. exact Ha. Qed.

Lemma yields_fail {A} e (Q : A -> Prop) : passes e -> yields P (fail e) Q.
Proof. intros He s _. exact He. Qed.

Lemma yields_safe {A} (c : M St A) : safe c -> yields P c (fun _ => True).
Proof.
  intros Hc s _. destruct (c s) as [[a s']|e] eqn:E; [done|]. eapply Hc, E.
Qed.

Lemma yields_weaken {A} (c : M St A) (Q1 Q : A -> Prop) :
  yields P c Q1 -> (forall a, Q1 a -> Q a) -> yields P c Q.
Proof.
  intros Hc HQ s Hs. specialize (Hc s Hs).
  destruct (c s) as [[a s']|e]; auto.
Qed.

Lemma yields_bind {A B} (c : M St A) (k : A -> M St B) (Q1 : A -> Prop) Q :
  trans R c -> yields P c Q1 -> (forall a, Q1 a -> yields P (k a) Q) ->
  yields P (bind c k) Q.
Proof.
  intros Ht Hc Hk s Hs. specialize (Hc s Hs). unfold bind.
  destruct (c s) as [[a s']|e] eqn:E; [|done].
  apply (Hk a Hc). eapply HP; [eapply Ht, E|done].
Qed.

Lemma yields_get : yields P get P.
Proof. intros s Hs. exact Hs. Qed.

Lemma yields_log_assert a b :
  rhs_post a = false -> yields P (log_assert a b) (fun _ => b = true).
Proof. intros Ha s _. by destruct b. Qed.

Lemma yields_require b : yields P (require b) (fun _ => b = true).
Proof. intros s _. by destruct b. Qed.

Lemma yields_extract sig off len :
  yields P (extract sig off len) (fun r => length r = Z.to_nat len).
Proof.
  intros s _. unfold extract, bind, log_assert.
  repeat (case_bool_decide; simpl; [|done]).
  rewrite length_take, length_drop. lia.
Qed.

Lemma constant_int_pure e (s : St) :
  constant_int e s =
    match constant_int e tt with
    | Ok (z, _) => Ok (z, s)
    | Fail err => Fail err
    end.
Proof.
  unfold constant_int, integer, svint_as_int, bind, ret, fail.
  destruct (constant_of e) as [[v| | |]|]; try done.
  destruct (negb _); [done|]. by destruct (bool_decide _).
Qed.

Lemma yields_constant_int e :
  yields P (constant_int e) (fun z => constant_int e tt = Ok (z, tt)).
Proof.
  intros s _. rewrite constant_int_pure.
  destruct (constant_int e tt) as [[z []]|err] eqn:E; [done|].
  eapply safe_constant_int, E.
Qed.

Lemma yields_range_select_bounds e k v l r :
  yields P (range_select_bounds e k v l r)
    (fun b => exists range lz rz,
       fixedRange (type_of v) = Some range /\
       constant_int l tt = Ok (lz, tt) /\ constant_int r tt = Ok (rz, tt) /\
       b = (translateIndex range lz, translateIndex range rz,
            getBitstreamWidth (type_of v) / range_width range, range)).
Proof.
  intros s _. unfold range_select_bounds, bind at 1 2.
  destruct (require _ s) as [[[] s1]|err] eqn:E1;
    [|eapply (safe_require (St:=St)), E1].
  destruct (require _ s1) as [[[] s2]|err] eqn:E2;
    [|eapply (safe_require (St:=St)), E2].
  unfold bind at 1. rewrite (constant_int_pure l).
  destruct (constant_int l tt) as [[lz []]|err] eqn:El;
    [|eapply (safe_constant_int (St:=unit)), El].
  unfold bind at 1. rewrite (constant_int_pure r).
  destruct (constant_int r tt) as [[rz []]|err] eqn:Er;
    [|eapply (safe_constant_int (St:=unit)), Er].
  destruct (fixedRange (type_of v)) as [range|]; [|done].
  unfold bind, log_assert. destruct (bool_decide (_ = 0)); simpl; [|done].
  by exists range, lz, rz.
Qed.

End Yields.

Lemma length_sig_of_const c : length (sig_of_const c) = length c.
Proof. unfold sig_of_const. by rewrite length_fmap. Qed.

Lemma length_svint_const v : length (svint_const v) = length (svint_bits v).
Proof. unfold svint_const. by rewrite length_fmap. Qed.

Lemma length_extend_u0 sig w sg : length (extend_u0 sig w sg) = w.
Proof.
  unfold extend_u0. case_decide.
  - rewrite length_take. lia.
  - rewrite length_app, length_replicate. lia.
Qed.

Lemma length_sig_repeat sig n : length (sig_repeat sig n) = n * length sig.
Proof. induction n as [|n IH]; simpl; [done|]. rewrite length_app, IH. lia. Qed.

Lemma stable_wires_declared declared : stable (wires_declared declared) mext.
Proof. intros m m' [Hw _] Hd n w Hn. apply Hd. by rewrite <- Hw. Qed.

Section ModuleYields.

Context (P : Module -> Prop).

Lemma yields_addWire name w : yields P (addWire name w) (fun r => length r = w).
Proof. intros s _. simpl. apply length_sig_of_wire. Qed.

Lemma yields_mod_mux type name a b s :
  yields P (mod_mux type name a b s) (fun r => length r = length a).
Proof. intros m _. simpl. apply length_sig_of_wire. Qed.

End ModuleYields.

Lemma yields_wire_signal declared sym :
  yields (wires_declared declared) (wire_signal sym)
    (fun r => declared (sym_path sym) = Some (length r)).
Proof.
  intros m Hm. unfold wire_signal, bind, wire, net_id. simpl.
  destruct (wires_ m !! Public (sym_path sym)) as [w|] eqn:E; [|done].
  simpl. rewrite length_sig_of_wire. by apply Hm.
Qed.

Ltac ystep R :=
  lazymatch goal with
  | |- yields _ (ret _) _ => apply yields_ret
  | |- yields _ (fail _) _ => apply yields_fail; done
  | |- yields _ (bind _ _) _ =>
      eapply (yields_bind _ R); [eassumption| | |intros ? ?]
  | |- yields _ (if ?b then _ else _) _ => destruct b eqn:?
  | |- yields _ (match ?x with _ => _ end) _ => destruct x eqn:?
  | |- yields _ (let (_, _) := ?x in _) _ => destruct x eqn:?
  end.

Global Hint Resolve trans_NEW_ID_alone : trans.

Lemma yields_NEW_ID {A} (P : Module -> Prop) (k : IdString -> M Module A) Q :
  stable P mext -> (forall n, yields P (k (Auto n)) Q) -> yields P (bind NEW_ID k) Q.
Proof.
  intros HP Hk m Hm. unfold bind, NEW_ID. apply Hk.
  eapply HP; [|done]. eapply trans_NEW_ID_alone. reflexivity.
Qed.

Ltac yields_of c :=
  lazymatch c with
  | require _ => apply yields_require
  | log_assert _ _ => apply yields_log_assert; done
  | addWire _ _ => apply yields_addWire
  | mod_mux _ _ _ _ _ => apply yields_mod_mux
  | extract _ _ _ => apply yields_extract
  | constant_int _ => apply yields_constant_int
  | range_select_bounds _ _ _ _ _ => apply yields_range_select_bounds
  | wire_signal _ => apply yields_wire_signal
  | evaluate_rhs _ _ _ _ => solve [eauto]
  | _ => apply yields_safe; solve [safe_auto]
  end.

Ltac ybind Hst Htrans :=
  unfold mod_ReduceBool, mod_Mux, addLogicNot;
  first
  [ apply (yields_NEW_ID _ _ _ Hst); intros ?
  | eapply (yields_bind _ mext Hst);
    [ solve [trans_auto; eauto using Htrans with trans]
    | lazymatch goal with |- yields _ ?c _ => yields_of c end
    | intros ? ? ] ].

Section LoweringWidth.

Variable declared : nat -> option nat.
Variable subroutines : nat -> option Subroutine.
Variable evalf : Subroutine -> list Expression -> option ProcedureContext -> M Module SigSpec.

Hypothesis evalf_trans : forall subr arguments ctx, trans mext (evalf subr arguments ctx).

Hypothesis evalf_width : forall subr arguments ctx,
  statement_typed declared subroutines (getBody subr) ->
  Forall (well_typed declared subroutines) arguments ->
  Forall2 (fun formal actual =>
             declared (sym_path formal) = Some (getBitstreamWidth (type_of actual)))
          (getArguments subr) arguments ->
  args_declared declared ctx ->
  yields (wires_declared declared) (evalf subr arguments ctx)
    (fun r => forall w, declared (sym_path (returnValVar subr)) = Some w -> length r = w).

Hypothesis bodies_typed : subroutines_typed declared subroutines.

Lemma yields_done ty (r : SigSpec) :
  isFixedSize ty = true -> length r = getBitstreamWidth ty ->
  yields (wires_declared declared)
    (log_assert A_rhs_fixed_size (isFixedSize ty) ;;
     log_assert A_rhs_width (bool_decide (length r = getBitstreamWidth ty)) ;;
     ret r)%fe
    (fun r' => length r' = getBitstreamWidth ty).
Proof.
  intros -> Hr m _. unfold bind, log_assert. simpl.
  by rewrite bool_decide_eq_true_2.
Qed.

Lemma all_well_typed (l : list Expression) :
  (fix all (ops : list Expression) : Prop :=
     match ops with
     | [] => True
     | op :: ops' => well_typed declared subroutines op /\ all ops'
     end) l ->
  Forall (well_typed declared subroutines) l.
Proof. induction l as [|x l IH]; [done|]. intros [Hx Hl]. constructor; auto. Qed.

Local Ltac go Hst :=
  repeat first
    [ apply yields_done; [done|]
    | apply yields_fail; done
    | ybind Hst trans_evaluate_rhs
    | ystep mext ].

Local Ltac lengths :=
  simpl in *; unfold sig_fill in *;
  rewrite ?length_replicate, ?length_sig_of_const, ?length_svint_const, ?length_extend_u0,
    ?length_sig_repeat, ?length_sig_replace, ?length_sig_of_wire, ?length_app in *.

Lemma yields_evaluate_rhs ctx e :
  args_declared declared ctx -> well_typed declared subroutines e ->
  yields (wires_declared declared) (evaluate_rhs subroutines evalf ctx e)
    (fun r => length r = getBitstreamWidth (type_of e)).
Proof.
  intros Hctx. pose proof (stable_wires_declared declared) as Hst.
  induction e as [e IH] using Expression_parts_ind.
  intros He.
  destruct e; destruct He as (Hfix & Hconst & He);
    simpl in *; unfold type_of, constant_of in *; simpl in *.
  all: destruct (constant i) as [cv|] eqn:Hcv.
  all: try (destruct cv; simpl; try (apply yields_fail; done);
            unfold bind at 1; simpl;
            apply yields_done; [done|];
            rewrite length_sig_of_const, length_svint_const; by apply Hconst).
  all: forall_inv; destruct_and?.
  - (* NamedValue *)
    go Hst; lengths.
    + destruct ctx; lengths; congruence.
    + destruct ctx; lengths; congruence.
    + auto.
    + specialize (Hctx _ _ _ eq_refl Heqo0). congruence.
  - (* UnaryOp *)
    go Hst; by lengths.
  - (* BinaryOp *)
    go Hst; by lengths.
  - (* Conversion *)
    go Hst. lengths. auto.
  - (* IntegerLiteral *)
    go Hst. by lengths.
  - (* RangeSelect *)
    go Hst.
    destruct H4 as (range & lz & rz & Hr & Hl & Hrz & [= -> -> -> ->]).
    destruct (H3 _ _ _ Hr Hl Hrz) as [Hdir Hw].
    rewrite H6, Hw. unfold translateIndex, lower, upper, isLittleEndian in *.
    destruct (right range <=? left range)%Z;
      (rewrite Z2Nat.inj_mul by lia); rewrite Nat2Z.id; f_equal; lia.
  - (* ElementSelect *)
    go Hst. by lengths.
  - (* Concatenation *)
    apply all_well_typed in H.
    eapply (yields_bind _ mext Hst _ _
              (fun r => length r = getBitstreamWidth (type i))).
    + clear H H0. generalize (@nil SigBit).
      induction IH as [|op ops Hop _ IHops]; intros acc; trans_auto;
        eauto using trans_evaluate_rhs.
    + rewrite H0. clear H0.
      eapply yields_weaken with
        (Q1 := fun r =>
           length r
           = sum_list ((fun op => getBitstreamWidth (type (info op))) <$> operands)
             + length (@nil SigBit));
        [|simpl; intros; lia].
      revert H. generalize (@nil SigBit).
      induction IH as [|op ops Hop _ IHops]; intros acc Hwt.
      * by apply yields_ret.
      * apply Forall_cons in Hwt as [Hwt1 Hwt2].
        eapply (yields_bind _ mext Hst);
          [eauto using trans_evaluate_rhs|apply (Hop Hwt1)|].
        intros v Hv. eapply yields_weaken; [by apply IHops|].
        intros r Hr. rewrite Hr, length_app, Hv, fmap_cons.
        generalize ((fun op => getBitstreamWidth (type (info op))) <$> ops).
        intros l. simpl. lia.
    + intros r Hr. by apply yields_done.
  - (* ConditionalOp *)
    destruct conditions as [|cond [|]]; try (apply yields_fail; done).
    destruct patterns as [|pattern [|]]; try (apply yields_fail; done).
    simpl in *. forall_inv. destruct_and?.
    go Hst. lengths. congruence.
  - (* Replication *)
    go Hst. lengths. rewrite H5. symmetry. auto.
  - (* MemberAccess *)
    go Hst. simpl in H5. apply bool_decide_eq_true in H5.
    rewrite length_take, length_drop, !Nat2Z.id. lia.
  - (* Call *)
    apply all_well_typed in H. destruct callee as [|f].
    + destruct arguments as [|arg [|]]; forall_inv; go Hst.
      simpl in *.
      match goal with
      | Hn : bool_decide (name = _) = true |- _ =>
          apply bool_decide_eq_true in Hn; rewrite <- (H0 _ Hn eq_refl)
      end. done.
    + destruct (subroutines f) as [subr|] eqn:Hf; [|apply yields_fail; done].
      destruct (H0 subr eq_refl) as [Hret Hargs].
      ybind Hst trans_evaluate_rhs.
      eapply yields_weaken; [apply evalf_width; eauto|].
      intros r Hr. by apply Hr.
  - go Hst.
  - go Hst.
  - go Hst.
  - go Hst.
Qed.

End LoweringWidth.
(** *** The statements evaluate their expressions at the width of their type *)

Lemma stable_visitor_declared declared : stable (visitor_declared declared) vext.
Proof.
  intros v v' (Hm & [_ Ha] & _) [Hw Hargs]. split.
  - by eapply stable_wires_declared.
  - intros c n r [= <-]. rewrite Ha. by apply Hargs.
Qed.

Lemma yields_on_mod declared {A} (c : M Module A) Q :
  yields (wires_declared declared) c Q ->
  yields (visitor_declared declared) (on_mod c) Q.
Proof.
  intros Hc v [Hw _]. specialize (Hc _ Hw). unfold on_mod.
  by destruct (c (mod_ v)) as [[a m]|e].
Qed.

Lemma yields_for_each {St A} (P : St -> Prop) R (l : list A) (body : A -> M St unit) :
  stable P R ->
  Forall (fun x => trans R (body x) /\ yields P (body x) (fun _ => True)) l ->
  yields P (for_each l body) (fun _ => True).
Proof.
  intros HP. induction 1 as [|x l [Ht Hx] _ IH]; simpl.
  - by apply yields_ret.
  - eapply (yields_bind _ R HP); [exact Ht|exact Hx|]. intros _ _. exact IH.
Qed.

Lemma yields_map_M {St A B} (P : St -> Prop) R `{!PreOrder R} (l : list A)
    (f : A -> M St B) :
  stable P R ->
  Forall (fun x => trans R (f x) /\ yields P (f x) (fun _ => True)) l ->
  yields P (map_M f l) (fun _ => True).
Proof.
  intros HP. induction 1 as [|x l [Ht Hx] Hl IH]; simpl.
  - by apply yields_ret.
  - eapply (yields_bind _ R HP); [exact Ht|exact Hx|]. intros y _.
    eapply (yields_bind _ R HP); [|exact IH|].
    + apply trans_map_M; [done|]. intros z Hz.
      by eapply (proj1 (Forall_forall _ _) Hl z).
    + intros ys _. by apply yields_ret.
Qed.

Section ProceduresWidth.

Variable declared : nat -> option nat.
Variable subroutines : nat -> option Subroutine.
Variable evalf : Subroutine -> list Expression -> option ProcedureContext -> M Module SigSpec.

Hypothesis evalf_trans : forall subr arguments ctx, trans mext (evalf subr arguments ctx).

Hypothesis evalf_width : forall subr arguments ctx,
  statement_typed declared subroutines (getBody subr) ->
  Forall (well_typed declared subroutines) arguments ->
  Forall2 (fun formal actual =>
             declared (sym_path formal) = Some (getBitstreamWidth (type_of actual)))
          (getArguments subr) arguments ->
  args_declared declared ctx ->
  yields (wires_declared declared) (evalf subr arguments ctx)
    (fun r => forall w, declared (sym_path (returnValVar subr)) = Some w -> length r = w).

Hypothesis bodies_typed : subroutines_typed declared subroutines.


Lemma yields_translate_index e range ctx :
  args_declared declared ctx -> well_typed declared subroutines e ->
  yields (wires_declared declared)
    (translate_index subroutines evalf e range ctx) (fun _ => True).
Proof.
  intros Ha He. unfold translate_index.
  eapply (yields_bind _ mext (stable_wires_declared declared));
    [by apply trans_evaluate_rhs|by apply yields_evaluate_rhs|].
  intros idx _. apply yields_safe. safe_auto.
Qed.

Local Ltac vyields_of c :=
  lazymatch c with
  | require _ => apply yields_require
  | log_assert _ _ => apply yields_log_assert; done
  | get => apply yields_get
  | on_mod (translate_index _ _ _ _ _) =>
      apply yields_on_mod, yields_translate_index;
      [match goal with H : visitor_declared _ _ |- _ => apply H end | done]
  | _ => first [ solve [eauto] | apply yields_safe; solve [safe_auto] ]
  end.

Local Ltac vybind :=
  eapply (yields_bind _ vext (stable_visitor_declared declared));
  [ solve [vtrans_auto;
           eauto using trans_eval_rhs, trans_etch, trans_display_arg,
             trans_evaluate_lhs, trans_translate_index with trans]
  | lazymatch goal with |- yields _ ?c _ => vyields_of c end
  | intros ? ? ].

Local Ltac vgo :=
  repeat first
    [ apply yields_ret; exact I
    | apply yields_fail; done
    | apply yields_safe; solve [unfold push_action; safe_auto]
    | vybind
    | ystep vext ].

Lemma yields_eval_rhs e :
  well_typed declared subroutines e ->
  yields (visitor_declared declared) (eval_rhs subroutines evalf e)
    (fun r => length r = getBitstreamWidth (type_of e)).
Proof.
  intros He v [Hw Ha]. unfold eval_rhs, bind, get, on_mod.
  pose proof (yields_evaluate_rhs declared subroutines evalf evalf_trans evalf_width
                bodies_typed (Some (ctx v)) e Ha He (mod_ v) Hw) as H.
  by destruct (evaluate_rhs _ _ _ _ _) as [[r m]|err].
Qed.

Lemma yields_display_arg arg :
  well_typed declared subroutines arg -> yields (visitor_declared declared) (display_arg subroutines evalf arg) (fun _ => True).
Proof.
  intros He. pose proof (yields_eval_rhs arg He) as Hev.
  unfold display_arg. destruct arg; vgo.
Qed.

Lemma yields_etch lexpr mask rvalue :
  lvalue_typed declared subroutines lexpr ->
  yields (visitor_declared declared) (etch subroutines evalf lexpr mask rvalue) (fun _ => True).
Proof.
  revert mask rvalue. induction lexpr as [e IH] using Expression_parts_ind.
  intros mask rvalue He.
  destruct e; simpl in *; forall_inv; destruct_and?; vgo; eauto.
Qed.

Lemma yields_handle_ExpressionStatement e :
  expression_statement_typed declared subroutines e ->
  yields (visitor_declared declared)
    (handle_ExpressionStatement subroutines evalf e) (fun _ => True).
Proof.
  intros He. unfold handle_ExpressionStatement.
  destruct e; simpl in He; try (apply yields_fail; done).
  - (* Call *)
    vgo. eapply yields_for_each; [apply stable_visitor_declared|].
    eapply Forall_impl; [exact He|]. intros arg Harg. split.
    + by apply trans_display_arg.
    + by apply yields_display_arg.
  - (* Assignment *)
    destruct He as [Hrhs Hlhs].
    pose proof (yields_eval_rhs _ Hrhs) as Hev.
    pose proof (yields_etch e1) as Het.
    vgo.
Qed.

Lemma yields_branch b cmp f :
  (forall rule, trans vext (f rule)) ->
  (forall rule, yields (visitor_declared declared) (f rule) (fun _ => True)) ->
  yields (visitor_declared declared) (branch b cmp f) (fun _ => True).
Proof.
  intros Ht Hf. unfold branch, push_case, set_compare. vgo.
Qed.

Lemma trans_branch_body b cmp s :
  trans vext (branch b cmp (fun rule =>
    modify (set_current_case rule) ;; visit subroutines evalf s)%fe).
Proof. apply trans_branch. intros rule. vtrans_auto. by apply trans_visit. Qed.

Lemma yields_branch_body b cmp s :
  yields (visitor_declared declared) (visit subroutines evalf s) (fun _ => True) ->
  yields (visitor_declared declared)
    (branch b cmp (fun rule =>
       modify (set_current_case rule) ;; visit subroutines evalf s)%fe)
    (fun _ => True).
Proof.
  intros Hs. apply yields_branch; intros rule.
  - vtrans_auto. by apply trans_visit.
  - vgo. exact Hs.
Qed.

Local Ltac bgo :=
  repeat first
    [ apply yields_ret; exact I
    | apply yields_fail; done
    | apply yields_safe; solve [safe_auto]
    | eapply (yields_bind _ vext (stable_visitor_declared declared));
      [ lazymatch goal with
        | |- trans _ (branch _ _ _) => apply trans_branch_body
        | |- _ => solve [vtrans_auto; eauto using trans_eval_rhs with trans]
        end
      | lazymatch goal with
        | |- yields _ (branch _ _ _) _ => apply yields_branch_body; solve [auto]
        | |- yields _ ?c _ => vyields_of c
        end
      | intros ? ? ] ].

Lemma yields_visit stmt :
  statement_typed declared subroutines stmt ->
  yields (visitor_declared declared) (visit subroutines evalf stmt) (fun _ => True).
Proof.
  induction stmt as [s IH] using Statement_parts_ind. intros Hs.
  destruct s as [ e | sq body | stmts | conds pats ifTrue ifFalse
                | cn ck e items dflt | | | | | ]; simpl in *.
  - by apply yields_handle_ExpressionStatement.
  - forall_inv. vgo. auto.
  - induction IH as [|x l Hx _ IHl]; [by apply yields_ret|].
    destruct Hs as [Hs1 Hs2].
    eapply (yields_bind _ vext (stable_visitor_declared declared));
      [by apply trans_visit|by apply Hx|]. intros _ _. by apply IHl.
  - apply Forall_cons in IH as [HT HF]. destruct Hs as (Hc & HsT & HsF).
    destruct conds as [|c [|]]; try (apply yields_fail; done).
    destruct pats as [|p [|]]; try (apply yields_fail; done).
    apply Forall_cons in Hc as [Hc _].
    pose proof (yields_eval_rhs _ Hc) as Hev.
    destruct ifFalse as [sF|]; simpl in HF; forall_inv; bgo.
  - apply Forall_app in IH as [HD HI]. destruct Hs as (He & Hitems & Hd).
    pose proof (yields_eval_rhs _ He) as Hev.
    bgo.
    eapply (yields_bind _ vext (stable_visitor_declared declared) _ _ (fun _ => True)).
    + clear HI Hitems.
      match goal with |- trans _ (_ items ?b) => generalize b end.
      induction items as [|[exprs s] items IHitems]; intros b; simpl.
      * apply trans_ret; apply _.
      * vtrans_auto; eauto using trans_eval_rhs. apply trans_branch_body.
    + clear HD Hd.
      match goal with |- yields _ (_ items ?b) _ => generalize b end.
      induction items as [|[exprs s] items IHitems]; intros b; simpl in *.
      * by apply yields_ret.
      * destruct Hitems as (Hex & Hs & Hrest). apply Forall_cons in HI as [HIs HI].
        eapply (yields_bind _ vext (stable_visitor_declared declared) _ _
                  (fun _ => True)).
        -- vtrans_auto; eauto using trans_eval_rhs.
        -- apply (yields_map_M _ vext); [apply stable_visitor_declared|].
           eapply Forall_impl; [exact Hex|]. intros x Hx. split.
           ++ vtrans_auto; eauto using trans_eval_rhs.
           ++ pose proof (yields_eval_rhs _ Hx). bgo.
        -- intros compares _. bgo. by apply IHitems.
    + intros b _. destruct dflt; simpl in HD; forall_inv; bgo.
  - apply yields_fail; done.
  - apply yields_fail; done.
  - by apply yields_ret.
  - by apply yields_ret.
  - apply yields_fail; done.
Qed.

End ProceduresWidth.

(** *** Inlined functions return a signal of the width of their result *)

Lemma yields_new_process {A} (P : Module -> Prop) (k : IdString -> M Module A) Q :
  stable P mext -> (forall p, yields P (k p) Q) ->
  yields P (bind NEW_ID (fun name => bind (addProcess name) k)) Q.
Proof.
  intros HP Hk m Hm.
  destruct (bind NEW_ID (fun name => bind (addProcess name) ret) m)
    as [[p m1]|err] eqn:E; [|done].
  assert (mext m m1) as Hext.
  { eapply (trans_new_process (fun p => ret p) (fun p => trans_ret mext p)), E. }
  specialize (Hk p m1 (HP _ _ Hext Hm)).
  unfold bind, NEW_ID, addProcess, new_CaseRule, modify, ret in *. simpl in *.
  by injection E as <- <-.
Qed.

Section FunctionsWidth.

Variable declared : nat -> option nat.
Variable subroutines : nat -> option Subroutine.

Hypothesis bodies_typed : subroutines_typed declared subroutines.


Lemma yields_bind_arguments evalf formals actuals ctx acc :
  (forall subr arguments ctx, trans mext (evalf subr arguments ctx)) ->
  function_width declared subroutines evalf ->
  args_declared declared ctx ->
  Forall (well_typed declared subroutines) actuals ->
  Forall2 (fun formal actual =>
             declared (sym_path formal) = Some (getBitstreamWidth (type_of actual)))
          formals actuals ->
  (forall n r, acc !! n = Some r -> declared n = Some (length r)) ->
  yields (wires_declared declared)
    (bind_arguments subroutines evalf formals actuals ctx acc)
    (fun bound => forall n r, bound !! n = Some r -> declared n = Some (length r)).
Proof.
  intros Ht Hw Hctx Hwt Hargs. revert acc Hwt.
  induction Hargs as [|formal actual formals actuals Hfa _ IH]; intros acc Hwt Hacc;
    simpl.
  - by apply yields_ret.
  - apply Forall_cons in Hwt as [Hwt1 Hwt2].
    eapply (yields_bind _ mext (stable_wires_declared declared));
      [by apply trans_evaluate_rhs|by apply yields_evaluate_rhs|].
    intros r Hr. apply IH; [done|]. intros n r' Hn.
    destruct (decide (n = sym_path formal)) as [->|Hne].
    + rewrite lookup_insert_eq in Hn. injection Hn as <-. by rewrite Hr.
    + rewrite lookup_insert_ne in Hn by done. by apply Hacc.
Qed.

Lemma yields_evaluate_function_body evalf :
  (forall subr arguments ctx, trans mext (evalf subr arguments ctx)) ->
  function_width declared subroutines evalf ->
  function_width declared subroutines (evaluate_function_body subroutines evalf).
Proof.
  intros Ht Hw subr arguments ctx_ Hbody Hwt Hargs Hctx.
  pose proof (stable_wires_declared declared) as Hst.
  unfold evaluate_function_body.
  eapply (yields_bind _ mext Hst);
    [apply trans_log_assert; apply _|by apply yields_log_assert|].
  intros _ _. apply yields_new_process; [done|]. intros p.
  eapply (yields_bind _ mext Hst);
    [apply trans_new_visitor
    |apply yields_safe; unfold new_visitor, push_switch, push_case; safe_auto|].
  intros visitor _.
  eapply (yields_bind _ mext Hst);
    [apply trans_log_assert; apply _|by apply yields_log_assert|].
  intros _ _.
  eapply (yields_bind _ mext Hst);
    [by apply trans_bind_arguments
    |by apply yields_bind_arguments|].
  intros bound Hbound.
  eapply (yields_bind _ mext Hst); [apply trans_get; apply _|apply yields_get|].
  intros m Hm m' Hm'.
  match goal with
  | |- context [visit _ _ _ ?v] => set (v0 := v)
  end.
  assert (visitor_declared declared v0) as Hv0.
  { split; [exact Hm|]. intros c n r [= <-]. simpl. apply Hbound. }
  pose proof (yields_visit declared subroutines evalf Ht Hw bodies_typed
                (getBody subr) Hbody v0 Hv0) as Hvisit.
  destruct (visit subroutines evalf (getBody subr) v0) as [[[] v']|err] eqn:Ev;
    [|done].
  apply (trans_visit subroutines evalf Ht) in Ev.
  pose proof (stable_visitor_declared declared _ _ Ev Hv0) as [Hw' _].
  pose proof (yields_wire_signal declared (returnValVar subr) _ Hw') as Hsig.
  unfold bind. destruct (wire_signal (returnValVar subr) (mod_ v')) as [[r m1]|err];
    [|done].
  simpl. intros w Hdecl. rewrite length_sig_replace. congruence.
Qed.

Lemma yields_evaluate_function fuel :
  function_width declared subroutines (evaluate_function subroutines fuel).
Proof.
  induction fuel as [|fuel IH]; simpl.
  - intros subr arguments ctx _ _ _ _. by apply yields_fail.
  - apply yields_evaluate_function_body; [|done].
    intros. apply trans_evaluate_function.
Qed.

End FunctionsWidth.

(** ** Procedural lowering: the claims *)




(** A visitor starts on the module it is made on, with both pools and the
    staging map empty. *)
Lemma new_visitor_inv p md m v m' :
  new_visitor p md m = Ok (v, m') ->
  mod_ v = m' /\ proc v = p /\
  assigned_blocking v = ∅ /\ assigned_nonblocking v = ∅ /\ staging v = ∅.
Proof.
  unfold new_visitor, bind, get_process. intros H.
  destruct (processes m !! p); [|discriminate H].
  simpl in H. injection H as <- <-. done.
Qed.

Lemma staging_signal_inv (lvalue : SigSpec) v r v' :
  staging_signal lvalue v = Ok (r, v') ->
  r = sig_replace (staging v') lvalue /\
  staging v ⊆ staging v' /\
  dom (staging v') = dom (staging v) ∪ list_to_set lvalue /\
  (forall b s, staging v' !! b = Some s -> staging v !! b = None -> fresh_bit v v' s).
Proof.
  intros H. destruct (forallb is_wire lvalue) eqn:E.
  - assert (Forall (fun b => is_wire b = true) lvalue) as Hwire.
    { apply Forall_forall. intros b Hb. rewrite forallb_forall in E.
      apply E. by apply list_elem_of_In. }
    destruct (staging_signal_run lvalue v Hwire)
      as (v'' & Hrun & _ & _ & _ & _ & _ & Hsub & Hdom & Hfresh).
    rewrite Hrun in H. injection H as <- <-. done.
  - unfold staging_signal in H. rewrite E in H. discriminate H.
Qed.

(** C10.  Within a procedure the staging map only grows: a bit staged by
    one call of [staging_signal] keeps its staging bit through every later
    statement, and a later call whose lvalue covers that bit returns the same
    staging bit at its position, so that the actions emitted for the bit have
    the same target. *)
Theorem staging_signal_is_stable (subroutines : nat -> option Subroutine) (fuel : nat)
    (l1 l2 : SigSpec) (stmt : Statement) (v v1 v2 v3 : ProceduralVisitor)
    (r1 r2 : SigSpec) (i j : nat) (b : SigBit) :
  staging_signal l1 v = Ok (r1, v1) ->
  visit subroutines (evaluate_function subroutines fuel) stmt v1 = Ok (tt, v2) ->
  staging_signal l2 v2 = Ok (r2, v3) ->
  l1 !! i = Some b -> l2 !! j = Some b ->
  exists s, staging v1 !! b = Some s /\ staging v2 !! b = Some s /\
            staging v3 !! b = Some s /\ r1 !! i = Some s /\ r2 !! j = Some s.
Proof.
  intros H1 Hv H2 Hi Hj.
  apply staging_signal_inv in H1 as (-> & _ & Hdom1 & _).
  apply staging_signal_inv in H2 as (-> & Hsub23 & _ & _).
  eapply (trans_visit subroutines _ (trans_evaluate_function subroutines fuel)) in Hv.
  destruct Hv as (_ & _ & Hsub12 & _).
  assert (is_Some (staging v1 !! b)) as [s Hs].
  { apply elem_of_dom. rewrite Hdom1, elem_of_union, elem_of_list_to_set.
    right. eapply list_elem_of_lookup_2, Hi. }
  assert (staging v2 !! b = Some s) as Hs2 by (eapply lookup_weaken; eauto).
  assert (staging v3 !! b = Some s) as Hs3 by (eapply lookup_weaken; eauto).
  exists s. split_and!; try done.
  - by rewrite lookup_sig_replace, Hi; simpl; rewrite Hs.
  - by rewrite lookup_sig_replace, Hj; simpl; rewrite Hs3.
Qed.

Lemma trans_staging_done : trans vext staging_done.
Proof. unfold staging_done. vtrans_auto. Qed.

Lemma trans_with_visitor {A} p md (body : M ProceduralVisitor A) :
  trans vext body -> trans mext (with_visitor p md body).
Proof.
  intros Hb m [a v'] m' H. unfold with_visitor in H.
  apply bind_inv in H as (v & m1 & H1 & H).
  destruct (body v) as [[a' v'']|e] eqn:Hrun; [|done].
  injection H as <- <- <-.
  assert (mod_ v = m1) as <- by (by apply new_visitor_inv in H1 as (? & _)).
  etransitivity; [eapply trans_new_visitor, H1|]. eapply Hb, Hrun.
Qed.

Lemma sync_shape_singleton (l : list SyncRule) t sig :
  sync_shape <$> l = [(t, sig)] ->
  exists acts, l = [mkSyncRule t sig acts].
Proof.
  destruct l as [|[t' sig' acts] [|]]; simpl; intros [=]; subst. eauto.
Qed.

(** C9.  The process made for an [always_comb] block (under the name drawn
    by [NEW_ID]) has exactly one sync rule; its kind is [STa] and its signal
    is empty: no rule of the process is sensitive to an edge. *)
Theorem always_comb_has_one_implicit_sync (subroutines : nat -> option Subroutine)
    (fuel : nat) (body : Statement) (m m' : Module) :
  names_free m ->
  handle_ProceduralBlockSymbol subroutines (evaluate_function subroutines fuel)
    (mkProceduralBlock AlwaysComb body) m = Ok (tt, m') ->
  processes m !! Auto (autoidx m) = None /\
  exists pr acts,
    processes m' !! Auto (autoidx m) = Some pr /\
    syncs pr = [mkSyncRule STa [] acts].
Proof.
  intros Hfree H. split; [by apply Hfree|].
  unfold handle_ProceduralBlockSymbol in H. simpl in H.
  unfold bind at 1 in H. unfold NEW_ID in H.
  unfold bind at 1 in H. unfold addProcess at 1 in H.
  unfold bind at 1 in H. unfold new_CaseRule at 1 in H.
  unfold bind at 1 in H. unfold modify at 1 in H.
  unfold ret at 1 in H.
  unfold bind at 1 in H. unfold push_sync, update_process, modify in H.
  match type of H with
  | bind _ _ ?m3 = _ => set (m3' := m3) in H
  end.
  apply bind_inv in H as (av & m4 & H & Hret). injection Hret as <-.
  assert (names_free m3') as Hfree3.
  { intros n Hn. subst m3'. simpl in *.
    rewrite lookup_alter_ne, lookup_insert_ne by (intros [=]; lia).
    apply Hfree. lia. }
  assert (processes m3' !! Auto (autoidx m)
          = Some (mkProcess (heap_top m) [mkSyncRule STa [] []])) as Hp3.
  { subst m3'. simpl. by rewrite lookup_alter_eq, lookup_insert_eq. }
  eapply trans_with_visitor in H.
  - destruct H as [_ Hk]. destruct (Hk Hfree3) as [_ Hkept].
    destruct (Hkept _ _ Hp3) as (pr & Hpr & _ & Hshape).
    simpl in Hshape. apply sync_shape_singleton in Hshape as [acts Hs].
    eauto.
  - apply trans_bind; [apply _| |intros; apply trans_staging_done].
    apply trans_visit, trans_evaluate_function.
Qed.

(** *** The commit of the staging wires *)




Lemma assigns_chunks (map : gmap SigBit SigBit) (cs : list (list SigBit)) b s :
  b ∈ mjoin cs -> map !! b = Some s ->
  assigns ((fun c => (c, sig_replace map c)) <$> cs) b s /\
  assigns ((fun c => (sig_replace map c, c)) <$> cs) s b.
Proof.
  intros Hb Hs. apply list_elem_of_join in Hb as (c & Hbc & Hc).
  apply list_elem_of_lookup in Hbc as [i Hi].
  assert (sig_replace map c !! i = Some s) as Hr
    by (by rewrite lookup_sig_replace, Hi; simpl; rewrite Hs).
  split.
  - exists c, (sig_replace map c), i. split; [|done].
    apply list_elem_of_fmap. by exists c.
  - exists (sig_replace map c), c, i. split; [|done].
    apply list_elem_of_fmap. by exists c.
Qed.

Lemma assigns_chunks_inv_l (map : gmap SigBit SigBit) (cs : list (list SigBit)) t s :
  (forall b, b ∈ mjoin cs -> is_Some (map !! b)) ->
  assigns ((fun c => (c, sig_replace map c)) <$> cs) t s -> map !! t = Some s.
Proof.
  intros Hdom (lhs & rhs & i & Hin & Hl & Hr).
  apply list_elem_of_fmap in Hin as (c & [= -> ->] & Hc).
  destruct (Hdom t) as [s' Hs'].
  { apply list_elem_of_join. exists c. split; [|done]. eapply list_elem_of_lookup_2, Hl. }
  rewrite lookup_sig_replace, Hl in Hr. simpl in Hr. rewrite Hs' in Hr. simpl in Hr.
  congruence.
Qed.

Lemma assigns_chunks_inv_r (map : gmap SigBit SigBit) (cs : list (list SigBit)) t s :
  (forall b, b ∈ mjoin cs -> is_Some (map !! b)) ->
  assigns ((fun c => (sig_replace map c, c)) <$> cs) t s -> map !! s = Some t.
Proof.
  intros Hdom (lhs & rhs & i & Hin & Hl & Hr).
  apply list_elem_of_fmap in Hin as (c & [= -> ->] & Hc).
  destruct (Hdom s) as [s' Hs'].
  { apply list_elem_of_join. exists c. split; [|done]. eapply list_elem_of_lookup_2, Hr. }
  rewrite lookup_sig_replace, Hr in Hl. simpl in Hl. rewrite Hs' in Hl. simpl in Hl.
  congruence.
Qed.

(** C8.  [staging_done], run on a process whose root case is allocated,
    appends to every sync rule of the process the same actions, and other
    actions to the root case, such that for every bit [b] staged as [s] a
    sync action assigns [s] to [b] and a root action assigns [b] to [s];
    the appended actions pair nothing but a staged bit with its staging
    bit. *)
Theorem staging_done_commits (v : ProceduralVisitor) (pr : Process) (rc : CaseRule) :
  processes (mod_ v) !! proc v = Some pr ->
  case_rules (mod_ v) !! root_case pr = Some rc ->
  exists v' sync_added root_added,
    staging_done v = Ok (tt, v') /\
    processes (mod_ v') !! proc v
      = Some (mkProcess (root_case pr) (add_sync_actions sync_added <$> syncs pr)) /\
    case_rules (mod_ v') !! root_case pr = Some (add_actions root_added rc) /\
    (forall b s, staging v !! b = Some s ->
       assigns sync_added b s /\ assigns root_added s b) /\
    (forall t s, assigns sync_added t s -> staging v !! t = Some s) /\
    (forall t s, assigns root_added t s -> staging v !! s = Some t).
Proof.
  intros Hpr Hrc. unfold staging_done.
  rewrite (bind_Ok _ _ v v v) by done.
  rewrite (bind_Ok _ _ v pr v).
  2:{ unfold on_mod, get_process. rewrite Hpr. by destruct v. }
  set (cs := chunks (sort_and_unify (map_to_list (staging v)).*1)).
  set (body := fun chunk : list SigBit => _).
  pose (sync_of := fun done : list (list SigBit) =>
          (fun c => (c, sig_replace (staging v) c)) <$> done).
  pose (root_of := fun done : list (list SigBit) =>
          (fun c => (sig_replace (staging v) c, c)) <$> done).
  pose (I := fun (done : list (list SigBit)) (s : ProceduralVisitor) =>
    processes (mod_ s) !! proc v
      = Some (mkProcess (root_case pr) (add_sync_actions (sync_of done) <$> syncs pr)) /\
    case_rules (mod_ s) !! root_case pr = Some (add_actions (root_of done) rc)).
  destruct (for_each_run I cs body) with (s := v) as (v' & Hrun & Hp' & Hc').
  - intros done chunk rest s _ [Hp Hc].
    eexists. split; [reflexivity|]. unfold I. simpl. split.
    + rewrite lookup_alter_eq, Hp. simpl. f_equal. f_equal.
      rewrite <- list_fmap_compose. apply list_fmap_ext. intros _ sy _.
      unfold add_sync_actions, sync_of. simpl.
      by rewrite fmap_app, (assoc_L (++)).
    + rewrite lookup_alter_eq, Hc. simpl. f_equal.
      unfold add_actions, root_of. simpl. by rewrite fmap_app, (assoc_L (++)).
  - unfold I. split.
    + rewrite Hpr. f_equal. destruct pr as [root sy]. simpl. f_equal.
      rewrite <- (list_fmap_id sy) at 1. apply list_fmap_ext. intros _ [t sg a] _.
      unfold add_sync_actions. simpl. by rewrite app_nil_r.
    + rewrite Hrc. f_equal. destruct rc. unfold add_actions. simpl. by rewrite app_nil_r.
  - assert (forall b, b ∈ mjoin cs <-> is_Some (staging v !! b)) as Hkeys.
    { intros b. unfold cs. rewrite join_chunks, elem_of_sort_and_unify.
      rewrite list_elem_of_fmap. split.
      - intros ([k x] & -> & Hin). apply elem_of_map_to_list in Hin. eauto.
      - intros [x Hx]. exists (b, x). split; [done|]. by apply elem_of_map_to_list. }
    exists v', (sync_of cs), (root_of cs). split_and!; try done.
    + intros b s Hs. apply assigns_chunks; [|done]. apply Hkeys. eauto.
    + intros t s. apply assigns_chunks_inv_l. intros b. apply Hkeys.
    + intros t s. apply assigns_chunks_inv_r. intros b. apply Hkeys.
Qed.

(** *** SwitchBuilder *)



Global Instance heap_grows_preorder : PreOrder heap_grows.
Proof.
  split.
  - intros m c r Hr. exists []. rewrite Hr. f_equal. destruct r.
    unfold add_actions. simpl. by rewrite app_nil_r.
  - intros m1 m2 m3 H12 H23 c r Hr.
    destruct (H12 c r Hr) as (a1 & H1). destruct (H23 c _ H1) as (a2 & H2).
    exists (a1 ++ a2). rewrite H2. f_equal. unfold add_actions. simpl.
    by rewrite (assoc_L (++)).
Qed.













(** ** Rvalues: the claims *)

(** C3.  For an expression that slang has type-checked, lowered in a module
    whose wires have the widths of their symbols' types: whenever
    [evaluate_rhs] returns, the signal has exactly the bitstream width of
    the expression's type, and when it does not return, the run ended
    elsewhere than on the two assertions that close [evaluate_rhs] (the
    fixed-size one and the width one), in this call or in any call nested in
    it, function bodies included. *)
Theorem evaluate_rhs_has_the_width_of_the_type
    (declared : nat -> option nat) (subroutines : nat -> option Subroutine)
    (fuel : nat) (ctx : option ProcedureContext) (e : Expression) (m : Module) :
  subroutines_typed declared subroutines ->
  wires_declared declared m ->
  args_declared declared ctx ->
  well_typed declared subroutines e ->
  match evaluate_rhs subroutines (evaluate_function subroutines fuel) ctx e m with
  | Ok (r, _) => length r = getBitstreamWidth (type_of e)
  | Fail err =>
      err <> AssertFailed A_rhs_width /\ err <> AssertFailed A_rhs_fixed_size
  end.
Proof.
  intros Hsub Hm Hctx He.
  pose proof (yields_evaluate_rhs declared subroutines
                (evaluate_function subroutines fuel)
                (trans_evaluate_function subroutines fuel)
                (yields_evaluate_function declared subroutines Hsub fuel)
                Hsub ctx e Hctx He m Hm) as H.
  destruct (evaluate_rhs _ _ _ _ _) as [[r m']|err]; [done|].
  destruct err as [|a| |]; try done. by destruct a.
Qed.

Lemma evaluate_rhs_has_the_width_of_the_type_witness :
  exists r m',
    evaluate_rhs Examples.no_subroutines
      (evaluate_function Examples.no_subroutines 0) None Examples.a_not_a
      Examples.module_a = Ok (r, m') /\
    length r = 4.
Proof.
  assert (subroutines_typed Examples.declared_a Examples.no_subroutines) as Hsub.
  { intros f subr H. discriminate H. }
  assert (wires_declared Examples.declared_a Examples.module_a) as Hm.
  { intros n w. unfold Examples.module_a, Examples.declared_a. simpl.
    destruct (decide (n = 7)) as [->|Hne].
    - rewrite lookup_insert_eq. by intros [= <-].
    - rewrite lookup_insert_ne by congruence. by rewrite lookup_empty. }
  assert (args_declared Examples.declared_a None) as Hctx.
  { intros c n r H. discriminate H. }
  assert (well_typed Examples.declared_a Examples.no_subroutines Examples.a_not_a)
    as He.
  { simpl. unfold constant_typed. simpl. repeat split; done. }
  pose proof (evaluate_rhs_has_the_width_of_the_type Examples.declared_a
                Examples.no_subroutines 0 None Examples.a_not_a Examples.module_a
                Hsub Hm Hctx He) as H.
  destruct (evaluate_rhs _ _ _ _ _) as [[r m']|err] eqn:E.
  - exists r, m'. split; [done|exact H].
  - vm_compute in E. discriminate E.
Defined.

(** The single steps of a run on the module. *)
Lemma bind_assoc {St A B C} (c : M St A) (k : A -> M St B) (k' : B -> M St C) s :
  bind (bind c k) k' s = bind c (fun a => bind (k a) k') s.
Proof. unfold bind. by destruct (c s) as [[a s']|e]. Qed.

Lemma NEW_ID_run m : NEW_ID m = Ok (Auto (autoidx m), set_autoidx (S (autoidx m)) m).
Proof. reflexivity. Qed.

Lemma addCell_run name type m :
  addCell name type m
  = Ok (name, set_cells (<[name := mkCell type [] []]> (cells_ m)) m).
Proof. reflexivity. Qed.

Lemma addWire_run name w m :
  addWire name w m
  = Ok (sig_of_wire name w,
        set_wires (<[name := mkWire w false false None]> (wires_ m)) m).
Proof. reflexivity. Qed.

Lemma setPort_run cell port sig m :
  setPort cell port sig m
  = Ok (tt, set_cells
              (alter (fun c => mkCell (cell_type c)
                                 (dict_set port sig (connections c)) (parameters c))
                     cell (cells_ m)) m).
Proof. reflexivity. Qed.

Lemma setParam_run cell p v m :
  setParam cell p v m
  = Ok (tt, set_cells
              (alter (fun c => mkCell (cell_type c) (connections c)
                                 (dict_set p v (parameters c)))
                     cell (cells_ m)) m).
Proof. reflexivity. Qed.

Ltac run_step :=
  lazymatch goal with
  | |- context [bind (bind _ _) _ _] => rewrite bind_assoc
  | |- context [bind NEW_ID _ _] => rewrite (bind_Ok _ _ _ _ _ (NEW_ID_run _))
  | |- context [bind (addCell _ _) _ _] =>
      rewrite (bind_Ok _ _ _ _ _ (addCell_run _ _ _))
  | |- context [bind (addWire _ _) _ _] =>
      rewrite (bind_Ok _ _ _ _ _ (addWire_run _ _ _))
  | |- context [bind (setPort _ _ _) _ _] =>
      rewrite (bind_Ok _ _ _ _ _ (setPort_run _ _ _ _))
  | |- context [bind (setParam _ _ _) _ _] =>
      rewrite (bind_Ok _ _ _ _ _ (setParam_run _ _ _ _))
  | |- context [bind (ret ?a) ?k ?s] => change (bind (ret a) k s) with (k a s)
  | |- context [bind (log_assert ?a true) ?k ?s] =>
      change (bind (log_assert a true) k s) with (k tt s)
  end;
  cbv beta iota delta
    [set_cells set_wires set_autoidx cells_ wires_ autoidx connections_ processes
     case_rules switch_rules heap_top].

(** C4.  What the code does for [~&] and [~|]: once the operand is lowered,
    [evaluate_rhs] emits the reduction cell and then a [$logic_not] cell fed
    by the reduction's output, but the signal it returns is the output of
    the reduction cell, which is the input of the inverter; the inverter's
    own output (a one-bit wire made for it) is a different signal and is
    not returned. *)
Theorem nand_nor_return_the_bare_reduction
    (subroutines : nat -> option Subroutine)
    (evalf : Subroutine -> list Expression -> option ProcedureContext -> M Module SigSpec)
    (ctx : option ProcedureContext) (i : ExprInfo) (op : UnaryOperator)
    (operand : Expression) (m m1 : Module) (left : SigSpec) :
  op = BitwiseNand \/ op = BitwiseNor ->
  constant i = None ->
  isFixedSize (type i) = true ->
  evaluate_rhs subroutines evalf ctx operand m = Ok (left, m1) ->
  let n := autoidx m1 in
  let y := sig_of_wire (Auto (n + 1)) (getBitstreamWidth (type i)) in
  let inverted := sig_of_wire (Auto (n + 2)) 1 in
  exists m2 reduction inverter,
    evaluate_rhs subroutines evalf ctx (UnaryOp i op operand) m = Ok (y, m2) /\
    cells_ m2 !! Auto n = Some reduction /\
    cell_type reduction
      = match op with BitwiseNand => ID_reduce_and | _ => ID_reduce_or end /\
    dict_get P_A (connections reduction) = Some left /\
    dict_get P_Y (connections reduction) = Some y /\
    cells_ m2 !! Auto (n + 3) = Some inverter /\
    cell_type inverter = ID_logic_not /\
    dict_get P_A (connections inverter) = Some y /\
    dict_get P_Y (connections inverter) = Some inverted /\
    y <> inverted.
Proof.
  intros Hop Hc Hfix Hrun n y inverted.
  assert (y <> inverted) as Hne.
  { unfold y, inverted. intros Heq.
    assert (BWire (Auto (n + 2)) 0 ∈ sig_of_wire (Auto (n + 1))
              (getBitstreamWidth (type i))) as Hin.
    { rewrite Heq. simpl. left. }
    apply elem_of_sig_of_wire in Hin as (k & Hk & _). injection Hk. lia. }
  simpl. unfold constant_of. simpl. rewrite Hc.
  rewrite (bind_Ok _ _ _ _ _ Hrun).
  clear Hrun. subst n y inverted.
  destruct m1 as [idx ws cs cn ps cr sr ht]. cbn [autoidx] in *.
  replace (idx + 1) with (S idx) in * by lia.
  replace (idx + 2) with (S (S idx)) in * by lia.
  replace (idx + 3) with (S (S (S idx))) by lia.
  destruct Hop as [-> | ->].
  all: eexists _, _, _; split;
    [ unfold type_of, addLogicNot, add_unary; cbn [unary_type info];
      rewrite Hfix; cbv iota beta; repeat run_step;
      rewrite length_sig_of_wire, bool_decide_eq_true_2 by done;
      repeat run_step; reflexivity |].
  all: cbn [cells_].
  all: rewrite ?lookup_alter_ne, ?lookup_insert_ne by (intros [=]; lia).
  all: rewrite !lookup_alter_eq, !lookup_insert_eq.
  all: simpl; split_and!; try reflexivity; exact Hne.
Qed.

Lemma nand_nor_return_the_bare_reduction_witness :
  exists m2 reduction inverter,
    evaluate_rhs Examples.no_subroutines
      (evaluate_function Examples.no_subroutines 0) None Examples.nand_a
      Examples.module_a = Ok ([BWire (Auto 1) 0], m2) /\
    cells_ m2 !! Auto 0 = Some reduction /\
    cell_type reduction = ID_reduce_and /\
    dict_get P_A (connections reduction) = Some [BWire (Public 7) 0; BWire (Public 7) 1] /\
    dict_get P_Y (connections reduction) = Some [BWire (Auto 1) 0] /\
    cells_ m2 !! Auto 3 = Some inverter /\
    cell_type inverter = ID_logic_not /\
    dict_get P_A (connections inverter) = Some [BWire (Auto 1) 0] /\
    dict_get P_Y (connections inverter) = Some [BWire (Auto 2) 0] /\
    [BWire (Auto 1) 0] <> [BWire (Auto 2) 0].
Proof.
  exact (nand_nor_return_the_bare_reduction Examples.no_subroutines
           (evaluate_function Examples.no_subroutines 0) None
           (mkInfo (Examples.logic 1) None) BitwiseNand Examples.expr_a
           Examples.module_a Examples.module_a
           [BWire (Public 7) 0; BWire (Public 7) 1]
           (or_introl eq_refl) eq_refl eq_refl eq_refl).
Defined.
(** ** The theorems at work on the small designs *)


Lemma staging_signal_is_stable_witness :
  exists s,
    staging Examples.staged_1.2 !! Examples.bit_a0 = Some s /\
    staging Examples.staged_2.2 !! Examples.bit_a0 = Some s /\
    staging Examples.staged_3.2 !! Examples.bit_a0 = Some s /\
    Examples.staged_1.1 !! 0 = Some s /\ Examples.staged_3.1 !! 0 = Some s.
Proof.
  apply (staging_signal_is_stable Examples.no_subroutines 0
           [Examples.bit_a0] [Examples.bit_a0; Examples.bit_a1] Examples.a_gets_01
           Examples.visitor_a Examples.staged_1.2 Examples.staged_2.2
           Examples.staged_3.2 Examples.staged_1.1 Examples.staged_3.1 0 0
           Examples.bit_a0).
  - vm_compute. reflexivity.
  - vm_compute. reflexivity.
  - vm_compute. reflexivity.
  - reflexivity.
  - reflexivity.
Defined.

Lemma always_comb_has_one_implicit_sync_witness :
  processes Examples.module_a !! Auto 0 = None /\
  exists pr acts,
    processes Examples.module_comb !! Auto 0 = Some pr /\
    syncs pr = [mkSyncRule STa [] acts].
Proof.
  apply (always_comb_has_one_implicit_sync Examples.no_subroutines 0
           Examples.a_gets_01 Examples.module_a Examples.module_comb).
  - intros n _. apply lookup_empty.
  - vm_compute. reflexivity.
Defined.

Lemma staging_done_commits_witness :
  exists v' sync_added root_added,
    staging_done Examples.visitor_ff = Ok (tt, v') /\
    processes (mod_ v') !! Auto 0
      = Some (mkProcess 0 [mkSyncRule STp [BWire (Public 8) 0] sync_added]) /\
    case_rules (mod_ v') !! 0 = Some (mkCaseRule [] root_added [1]) /\
    (assigns sync_added Examples.bit_a0 (BWire (Auto 1) 0) /\
     assigns root_added (BWire (Auto 1) 0) Examples.bit_a0) /\
    (forall b s, staging Examples.visitor_ff !! b = Some s ->
       assigns sync_added b s /\ assigns root_added s b) /\
    (forall t s, assigns sync_added t s -> staging Examples.visitor_ff !! t = Some s) /\
    (forall t s, assigns root_added t s -> staging Examples.visitor_ff !! s = Some t).
Proof.
  destruct (staging_done_commits Examples.visitor_ff
              (mkProcess 0 [mkSyncRule STp [BWire (Public 8) 0] []])
              (mkCaseRule [] [] [1]))
    as (v' & sync_added & root_added & Hrun & Hp & Hc & Hall & Hs & Hr).
  - vm_compute. reflexivity.
  - vm_compute. reflexivity.
  - exists v', sync_added, root_added.
    split; [exact Hrun|]. split; [exact Hp|]. split; [exact Hc|].
    split; [|split; [exact Hall|split; [exact Hs|exact Hr]]].
    apply Hall. vm_compute. reflexivity.
Defined.

(** ** More of the builder: shortcuts that emit no cell *)

Module BuilderExtras.

Import RTLILBuilder.

Lemma length_as_const (sig : SigSpec) :
  is_fully_const sig = true -> length (as_const sig) = length sig.
Proof.
  unfold is_fully_const, as_const. induction sig as [|b sig IH]; [done|].
  simpl. intros [Hb Hs]%andb_true_iff. destruct b; [|done].
  cbn. f_equal. by apply IH.
Qed.

Lemma bits_value_bound (c : Const) : (0 <= bits_value c < 2 ^ Z.of_nat (length c))%Z.
Proof.
  induction c as [|s c IH]; [simpl; lia|].
  cbn [bits_value length]. rewrite Nat2Z.inj_succ, Z.pow_succ_r by lia.
  case_bool_decide; lia.
Qed.

(** A constant select of fewer than 24 bits, read unsigned, indexes one of
    the [2 ^ length s] slots. *)
Lemma as_int_select (s : SigSpec) :
  is_fully_const s = true -> length s < 24 ->
  Z.to_nat (as_int s false) < 2 ^ length s.
Proof.
  intros Hs Hlen. unfold as_int, const_as_int. simpl.
  pose proof (length_as_const s Hs) as Hc.
  rewrite take_ge by lia.
  pose proof (bits_value_bound (as_const s)) as Hb. rewrite Hc in Hb.
  assert (2 ^ Z.of_nat (length s) <= 2 ^ 23)%Z as Hp.
  { apply Z.pow_le_mono_r; lia. }
  unfold wrap32. rewrite Z.mod_small by lia.
  replace (bits_value (as_const s) + 2 ^ 31 - 2 ^ 31)%Z
    with (bits_value (as_const s)) by lia.
  apply Nat2Z.inj_lt. rewrite Z2Nat.id by lia.
  rewrite Nat2Z.inj_pow. simpl. lia.
Qed.

Lemma sig_repeat_fill (st : State) (n k : nat) :
  sig_repeat (sig_fill st n) k = replicate (k * n) (BConst st).
Proof.
  unfold sig_fill. induction k as [|k IH]; [done|].
  simpl. by rewrite IH, replicate_add.
Qed.

(** X1.  [Demux] with a fully constant select [s] of fewer than 24 bits
    emits no cell: it returns [2 ^ length s] slots of the width of [a], the
    slot indexed by [s] (read unsigned, x and z bits as 0) holding [a] and
    every other bit being the constant 0.  A select of 24 bits or more ends
    the run on the assertion. *)
Theorem Demux_constant_select (a s : SigSpec) (m : Module) :
  (24 <= length s -> Demux a s m = Fail (AssertFailed A_demux_width)) /\
  (is_fully_const s = true -> length s < 24 ->
   let idx := Z.to_nat (as_int s false) in
   idx < 2 ^ length s /\
   exists r,
     Demux a s m = Ok (r, m) /\
     length r = length a * 2 ^ length s /\
     (forall i, i < length a -> r !! (idx * length a + i) = a !! i) /\
     (forall i, i < length r ->
        ~ (idx * length a <= i < idx * length a + length a) ->
        r !! i = Some (BConst S0))).
Proof.
  split.
  - intros Hlen. unfold Demux.
    rewrite bool_decide_eq_false_2 by lia. reflexivity.
  - intros Hs Hlen idx. pose proof (as_int_select s Hs Hlen) as Hidx.
    fold idx in Hidx. split; [done|].
    unfold Demux. rewrite bool_decide_eq_true_2 by done.
    rewrite (bind_Ok _ _ m tt m) by done. rewrite Hs. fold idx.
    eexists. split; [reflexivity|].
    rewrite !sig_repeat_fill.
    assert (length (replicate (idx * length a) (BConst S0) ++ a ++
                    replicate ((2 ^ length s - 1 - idx) * length a) (BConst S0))
            = length a * 2 ^ length s) as Hlenr.
    { rewrite !length_app, !length_replicate. nia. }
    split_and!.
    + exact Hlenr.
    + intros i Hi.
      rewrite lookup_app_r by (rewrite length_replicate; lia).
      rewrite length_replicate.
      replace (idx * length a + i - idx * length a) with i by lia.
      by rewrite lookup_app_l.
    + intros i Hi Hout. rewrite Hlenr in Hi.
      destruct (decide (i < idx * length a)) as [Hlt|Hge].
      * rewrite lookup_app_l by (rewrite length_replicate; lia).
        by rewrite lookup_replicate_2.
      * rewrite lookup_app_r by (rewrite length_replicate; lia).
        rewrite length_replicate.
        rewrite lookup_app_r by lia.
        apply lookup_replicate_2. nia.
Qed.

Lemma Demux_constant_select_witness :
  Demux [BWire (Public 1) 0; BWire (Public 1) 1] [BConst S1; BConst S0] empty_module
  = Ok ([BConst S0; BConst S0; BWire (Public 1) 0; BWire (Public 1) 1;
         BConst S0; BConst S0; BConst S0; BConst S0], empty_module).
Proof.
  destruct (proj2 (Demux_constant_select
                     [BWire (Public 1) 0; BWire (Public 1) 1]
                     [BConst S1; BConst S0] empty_module) eq_refl)
    as (_ & r & Hr & _).
  - simpl. lia.
  - rewrite Hr. vm_compute in Hr. by injection Hr as <-.
Defined.

(** X2.  [Mux] asserts that its inputs have the same width and that the
    select has one bit; with the select the constant 0 it returns [a], with
    the constant 1 it returns [b], in both cases leaving the netlist alone;
    and whatever it returns has the width of [a]. *)
Theorem Mux_constant_select (a b s : SigSpec) (m : Module) :
  (length a <> length b \/ length s <> 1 ->
     Mux a b s m = Fail (AssertFailed A_size)) /\
  (length a = length b -> s = [BConst S0] -> Mux a b s m = Ok (a, m)) /\
  (length a = length b -> s = [BConst S1] -> Mux a b s m = Ok (b, m)) /\
  (forall r m', Mux a b s m = Ok (r, m') -> length r = length a).
Proof.
  unfold Mux. split_and!.
  - intros [Hab|Hs].
    + by rewrite bool_decide_eq_false_2.
    + destruct (bool_decide (length a = length b)); [|done].
      simpl. unfold bind. simpl. by rewrite bool_decide_eq_false_2.
  - intros Hab ->. by rewrite bool_decide_eq_true_2.
  - intros Hab ->. by rewrite bool_decide_eq_true_2.
  - intros r m' H.
    apply bind_inv in H as ([] & m1 & H1 & H).
    apply bind_inv in H as ([] & m2 & H2 & H).
    unfold log_assert in H1.
    destruct (bool_decide (length a = length b)) eqn:Hab; [|done].
    apply bool_decide_eq_true in Hab.
    destruct (decide (s !!! 0 = BConst S0)); [by injection H as <- _|].
    destruct (decide (s !!! 0 = BConst S1)); [by injection H as <- _|].
    unfold mod_Mux, mod_mux in H.
    apply bind_inv in H as (nm & m3 & _ & H).
    apply bind_inv in H as (nm' & m4 & _ & H).
    apply bind_inv in H as (y & m5 & Hy & H).
    apply bind_inv in H as (c & m6 & _ & H).
    injection H as <- _. injection Hy as <- _. apply length_sig_of_wire.
Qed.

Lemma Mux_constant_select_witness :
  Mux [BWire (Public 1) 0] [BWire (Public 2) 0] [BConst S1] empty_module
  = Ok ([BWire (Public 2) 0], empty_module).
Proof.
  by apply (proj1 (proj2 (proj2 (Mux_constant_select
              [BWire (Public 1) 0] [BWire (Public 2) 0] [BConst S1] empty_module)))).
Defined.

Section WithIR.

Context {ir : IRFold}.

Lemma Biop_cell_width op a b sa sb y_width m r m' :
  Biop_cell op a b sa sb y_width m = Ok (r, m') -> length r = y_width.
Proof.
  intros H. unfold Biop_cell in H.
  do 10 (apply bind_inv in H as (? & ? & _ & H)).
  apply bind_inv in H as (y & ? & Hy & H).
  apply bind_inv in H as (? & ? & _ & H).
  injection H as <- _. injection Hy as <- _. apply length_sig_of_wire.
Qed.

(** X3.  Whatever path [Biop] takes (the IR fold, the three-valued
    comparison, the shortcuts of the logic operators, or a cell), the signal
    it returns has the width [y_width] it was asked for, provided the IR
    fold it calls returns as many bits as it is asked for. *)
Theorem Biop_result_width (op : CellType) (a b : SigSpec) (a_signed b_signed : bool)
    (y_width : nat) (m m' : Module) (r : SigSpec) :
  (is_fully_const a && is_fully_const b && biop_folds op = true ->
   length (const_eval op (as_const a) (as_const b) a_signed b_signed
             (Z.of_nat y_width)) = y_width) ->
  Biop op a b a_signed b_signed y_width m = Ok (r, m') ->
  length r = y_width.
Proof.
  intros Hfold H. unfold Biop in H.
  assert (forall m r m', Biop_logic op a b a_signed b_signed y_width m = Ok (r, m') ->
            length r = y_width) as Hlogic.
  { clear. intros m r m' H. unfold Biop_logic in H.
    destruct (_ && _) in H.
    - injection H as <- _. apply length_replicate.
    - destruct (_ && _) in H.
      + injection H as <- _. apply length_extend_u0.
      + by eapply Biop_cell_width. }
  destruct (is_fully_const a && is_fully_const b && biop_folds op) eqn:Hc.
  - injection H as <- _. unfold fold. rewrite length_sig_of_const. by apply Hfold.
  - destruct (_ && _ && _) in H; [|by eapply Hlogic].
    destruct (_ <? _)%Z in H.
    + injection H as <- _. apply length_replicate.
    + destruct (_ >? _)%Z in H.
      * injection H as <- _. apply length_extend_u0.
      * by eapply Hlogic.
Qed.

End WithIR.

Lemma Biop_result_width_witness :
  exists r m',
    @Biop Calc.reference ID_add [BConst S1; BConst S0] [BConst S1; BConst S1]
      false false 3 empty_module = Ok (r, m') /\
    length r = 3.
Proof.
  eexists _, _. split; [reflexivity|].
  eapply (@Biop_result_width Calc.reference ID_add [BConst S1; BConst S0]
            [BConst S1; BConst S1] false false 3 empty_module).
  - intros _. vm_compute. reflexivity.
  - reflexivity.
Defined.

(** *** [Bmux] after [Demux] *)

Lemma is_fully_def_const (s : SigSpec) :
  is_fully_def s = true -> is_fully_const s = true.
Proof.
  unfold is_fully_def, is_fully_const. rewrite !forallb_forall.
  intros H b Hb. specialize (H b Hb). by destruct b.
Qed.

Lemma as_int_unsigned (s : SigSpec) :
  is_fully_const s = true -> length s < 24 ->
  as_int s false = bits_value (as_const s).
Proof.
  intros Hs Hlen. unfold as_int, const_as_int. simpl.
  pose proof (length_as_const s Hs) as Hc.
  rewrite take_ge by lia.
  pose proof (bits_value_bound (as_const s)) as Hb. rewrite Hc in Hb.
  assert (2 ^ Z.of_nat (length s) <= 2 ^ 23)%Z as Hp.
  { apply Z.pow_le_mono_r; lia. }
  unfold wrap32. rewrite Z.mod_small by lia. lia.
Qed.

(** X14.  [Bmux] undoes [Demux]: for a fully defined select [s] of fewer
    than 24 bits, [Demux a s] emits no cell, and selecting slot [s] of what
    it returns gives back [a], again without a cell.  For an empty [a] the
    demultiplexed signal is empty and [Bmux] ends on its size assertion. *)
Theorem Bmux_of_Demux (a s : SigSpec) (m : Module) :
  is_fully_def s = true -> length s < 24 ->
  exists r,
    Demux a s m = Ok (r, m) /\
    length r = length a * 2 ^ length s /\
    (0 < length a -> Bmux r s m = Ok (a, m)) /\
    (length a = 0 -> Bmux r s m = Fail (AssertFailed A_size)).
Proof.
  intros Hdef Hlen. pose proof (is_fully_def_const s Hdef) as Hs.
  pose proof (as_int_select s Hs Hlen) as Hidx.
  pose proof (as_int_unsigned s Hs Hlen) as Hint.
  pose proof (bits_value_bound (as_const s)) as Hb.
  set (idx := Z.to_nat (as_int s false)) in *.
  assert (0 < 2 ^ length s) as Hpow.
  { apply Nat.neq_0_lt_0, Nat.pow_nonzero. lia. }
  exists (replicate (idx * length a) (BConst S0) ++ a ++
          replicate ((2 ^ length s - 1 - idx) * length a) (BConst S0)).
  assert (length (replicate (idx * length a) (BConst S0) ++ a ++
                  replicate ((2 ^ length s - 1 - idx) * length a) (BConst S0))
          = length a * 2 ^ length s) as Hlenr.
  { rewrite !length_app, !length_replicate. nia. }
  split_and!.
  - unfold Demux. rewrite bool_decide_eq_true_2 by done.
    rewrite (bind_Ok _ _ m tt m) by done. rewrite Hs. fold idx.
    by rewrite !sig_repeat_fill.
  - exact Hlenr.
  - intros Ha. unfold Bmux. rewrite Hlenr.
    rewrite bool_decide_eq_true_2 by apply Nat.Div0.mod_mul.
    rewrite (bind_Ok _ _ m tt m) by done.
    rewrite bool_decide_eq_true_2 by nia.
    rewrite (bind_Ok _ _ m tt m) by done.
    rewrite Hdef. rewrite Nat.div_mul by lia.
    unfold extract.
    rewrite bool_decide_eq_true_2 by lia.
    rewrite (bind_Ok _ _ m tt m) by done.
    rewrite bool_decide_eq_true_2 by lia.
    rewrite (bind_Ok _ _ m tt m) by done.
    rewrite bool_decide_eq_true_2.
    + rewrite (bind_Ok _ _ m tt m) by done.
      unfold ret. do 2 f_equal.
      replace (Z.to_nat (as_int s false * Z.of_nat (length a))) with (idx * length a)
        by (unfold idx; rewrite Z2Nat.inj_mul, Nat2Z.id by lia; done).
      rewrite Nat2Z.id.
      rewrite drop_app_length' by (by rewrite length_replicate).
      by rewrite take_app_length.
    + rewrite Hlenr. unfold idx in Hidx. nia.
  - intros Ha. unfold Bmux. rewrite Hlenr, Ha. simpl.
    rewrite Nat.Div0.mod_0_l.
    rewrite (bind_Ok _ _ m tt m) by done.
    rewrite bool_decide_eq_false_2 by lia. reflexivity.
Qed.

Lemma Bmux_of_Demux_witness :
  exists r,
    Demux [BWire (Public 1) 0; BWire (Public 1) 1] [BConst S1; BConst S0] empty_module
      = Ok (r, empty_module) /\
    Bmux r [BConst S1; BConst S0] empty_module
      = Ok ([BWire (Public 1) 0; BWire (Public 1) 1], empty_module).
Proof.
  destruct (Bmux_of_Demux [BWire (Public 1) 0; BWire (Public 1) 1]
              [BConst S1; BConst S0] empty_module eq_refl)
    as (r & Hr & _ & Hback & _).
  - simpl. lia.
  - exists r. split; [exact Hr|]. apply Hback. simpl. lia.
Defined.

(** *** The width of a unary operator *)

(** One step of a run on a module given field by field. *)
Ltac run_inv H :=
  let H1 := fresh "Hstep" in
  apply bind_inv in H as (? & ? & H1 & H);
  lazymatch type of H1 with
  | NEW_ID _ = _ => rewrite NEW_ID_run in H1
  | addCell _ _ _ = _ => rewrite addCell_run in H1
  | addWire _ _ _ = _ => rewrite addWire_run in H1
  | setPort _ _ _ _ = _ => rewrite setPort_run in H1
  | setParam _ _ _ _ = _ => rewrite setParam_run in H1
  end;
  cbv beta iota delta [set_cells set_wires set_autoidx cells_ wires_ autoidx
                       connections_ processes case_rules switch_rules heap_top] in H1;
  injection H1 as <- <-.

Section UnopWidth.

Context {ir : IRFold}.

(** X15.  [Unop] returns a signal of the width [y_width] it was asked for,
    on the cell path always and on the fold path provided the IR fold
    returns as many bits as it is asked for; on the fold path the netlist
    is left as it was, on the cell path exactly one cell (of type [op]) and
    one wire are added. *)
Theorem Unop_result_width (op : CellType) (a : SigSpec) (a_signed : bool)
    (y_width : nat) (m m' : Module) (r : SigSpec) :
  (is_fully_const a && unop_folds op = true ->
   length (const_eval op (as_const a) (as_const no_arg) a_signed false
             (Z.of_nat y_width)) = y_width) ->
  Unop op a a_signed y_width m = Ok (r, m') ->
  length r = y_width /\
  (is_fully_const a && unop_folds op = true -> m' = m) /\
  (is_fully_const a && unop_folds op = false ->
   autoidx m' = autoidx m + 2 /\
   wires_ m' = <[Auto (autoidx m + 1) := mkWire y_width false false None]> (wires_ m) /\
   exists c, cells_ m' = <[Auto (autoidx m) := c]> (cells_ m) /\ cell_type c = op).
Proof.
  intros Hfold H. unfold Unop in H.
  destruct (is_fully_const a && unop_folds op) eqn:Hc.
  - injection H as <- <-. split_and!; [|done|done].
    unfold fold. rewrite length_sig_of_const. by apply Hfold.
  - destruct m as [ai ws cs cn ps cr sr ht].
    run_inv H. run_inv H. run_inv H. run_inv H. run_inv H.
    run_inv H. run_inv H. run_inv H. run_inv H.
    injection H as <- <-.
    cbv beta iota delta [cells_ wires_ autoidx].
    split_and!; [apply length_sig_of_wire|done|].
    intros _. split_and!; [lia|by rewrite Nat.add_1_r|].
    rewrite !alter_insert_eq. eexists. split; [reflexivity|done].
Qed.

End UnopWidth.

Lemma Unop_result_width_witness :
  exists r m',
    @Unop Calc.reference ID_not [BWire (Public 1) 0; BWire (Public 1) 1] false 2
      empty_module = Ok (r, m') /\
    length r = 2.
Proof.
  eexists _, _. split; [reflexivity|].
  eapply (@Unop_result_width Calc.reference ID_not
            [BWire (Public 1) 0; BWire (Public 1) 1] false 2 empty_module).
  - intros H. discriminate H.
  - reflexivity.
Defined.

End BuilderExtras.
(** ** More of the frontend *)

(** *** Assignment targets are read, not made *)

Section Reads.

Lemma reads_ret {A} (a : A) (Q : A -> Prop) : Q a -> reads (ret a) Q.
Proof. intros Ha m a' m' H. injection H as <- <-. done. Qed.

Lemma reads_fail {A} e (Q : A -> Prop) : reads (fail e) Q.
Proof. intros m a m' H. discriminate H. Qed.

Lemma reads_bind {A B} (c : M Module A) (k : A -> M Module B) (Q1 : A -> Prop) Q :
  reads c Q1 -> (forall a, Q1 a -> reads (k a) Q) -> reads (bind c k) Q.
Proof.
  intros Hc Hk m b m'' H. apply bind_inv in H as (a & m' & H1 & H2).
  apply Hc in H1 as [-> Ha]. by eapply Hk.
Qed.

Lemma reads_weaken {A} (c : M Module A) (Q1 Q : A -> Prop) :
  reads c Q1 -> (forall a, Q1 a -> Q a) -> reads c Q.
Proof. intros Hc HQ m a m' H. apply Hc in H as [-> Ha]. auto. Qed.

Lemma reads_log_assert a b : reads (log_assert a b) (fun _ => b = true).
Proof. intros m x m' H. destruct b; [|done]. by injection H as _ <-. Qed.

Lemma reads_require b : reads (require b) (fun _ => b = true).
Proof. intros m x m' H. destruct b; [|done]. by injection H as _ <-. Qed.

Lemma reads_extract sig off len :
  reads (extract sig off len)
    (fun r => r = take (Z.to_nat len) (drop (Z.to_nat off) sig) /\
              length r = Z.to_nat len).
Proof.
  intros m r m' H. unfold extract in H.
  apply bind_inv in H as ([] & m1 & H1 & H). apply reads_log_assert in H1 as [-> H1].
  apply bind_inv in H as ([] & m2 & H2 & H). apply reads_log_assert in H2 as [-> H2].
  apply bind_inv in H as ([] & m3 & H3 & H). apply reads_log_assert in H3 as [-> H3].
  injection H as <- <-. split; [done|]. split; [done|].
  apply bool_decide_eq_true in H1, H2, H3.
  rewrite length_take, length_drop. lia.
Qed.

Lemma reads_wire_signal sym :
  reads (wire_signal sym)
    (fun r => exists w, r = sig_of_wire (net_id sym) w).
Proof.
  intros m r m' H. unfold wire_signal, bind, wire in H.
  destruct (wires_ m !! net_id sym) as [w|]; [|done].
  injection H as <- <-. split; [done|]. by eexists.
Qed.

Lemma reads_any {A} (c : M Module A) :
  trans (fun s s' : Module => s' = s) c -> reads c (fun _ => True).
Proof. intros Hc m a m' H. split; [|done]. by eapply Hc. Qed.

End Reads.

Lemma Forall_is_wire_sig_of_wire w n :
  Forall (fun b => is_wire b = true) (sig_of_wire w n).
Proof. unfold sig_of_wire. apply Forall_fmap, Forall_forall. done. Qed.

Lemma reads_evaluate_lhs (e : Expression) :
  reads (evaluate_lhs e)
    (fun r => Forall (fun b => is_wire b = true) r /\
              length r = getBitstreamWidth (type_of e)).
Proof.
  induction e as [e IH] using Expression_parts_ind.
  assert (forall (r : SigSpec), Forall (fun b => is_wire b = true) r ->
            reads (log_assert A_lhs_fixed_size (isFixedSize (type_of e)) ;;
                   log_assert A_lhs_width
                     (bool_decide (length r = getBitstreamWidth (type_of e))) ;;
                   ret r)%fe
              (fun r => Forall (fun b => is_wire b = true) r /\
                        length r = getBitstreamWidth (type_of e))) as Hdone.
  { intros r Hr.
    eapply reads_bind; [apply reads_log_assert|]. intros ? _.
    eapply reads_bind; [apply reads_log_assert|]. intros ? Hlen. simpl in Hlen.
    apply reads_ret. by apply bool_decide_eq_true in Hlen. }
  assert (PreOrder (fun s s' : Module => s' = s)) as Hpre.
  { split; [by intros s|]. intros s1 s2 s3 -> ->. done. }
  destruct e; simpl in *; try apply reads_fail; forall_inv.
  - (* NamedValue *)
    eapply reads_bind; [apply reads_wire_signal|].
    intros r [w ->]. apply Hdone, Forall_is_wire_sig_of_wire.
  - (* RangeSelect *)
    eapply reads_bind.
    { apply reads_any. by apply trans_range_select_bounds. }
    intros [[[raw_left raw_right] stride] range] _.
    eapply reads_bind; [eassumption|]. intros v [Hv _].
    eapply reads_bind; [apply reads_extract|]. intros r [-> _].
    apply Hdone. by apply Forall_take, Forall_drop.
  - (* ElementSelect *)
    eapply reads_bind; [apply reads_require|]. intros ? _.
    eapply reads_bind; [apply reads_require|]. intros ? _.
    eapply reads_bind.
    { apply reads_any. by apply trans_constant_int. }
    intros idx ?. destruct (fixedRange _); [|apply reads_fail].
    eapply reads_bind; [eassumption|]. intros v [Hv _].
    eapply reads_bind; [apply reads_extract|]. intros r [-> _].
    apply Hdone. by apply Forall_take, Forall_drop.
  - (* Concatenation *)
    eapply reads_bind with (Q1 := fun r => Forall (fun b => is_wire b = true) r).
    + clear Hdone.
      assert (Forall (fun b => is_wire b = true) (@nil SigBit)) as Hacc by constructor.
      revert Hacc. generalize (@nil SigBit).
      induction IH as [|op ops Hop _ IHops]; intros acc Hacc.
      * by apply reads_ret.
      * eapply reads_bind; [exact Hop|]. intros v [Hv _].
        apply IHops. by apply Forall_app.
    + intros r Hr. by apply Hdone.
  - (* MemberAccess *)
    eapply reads_bind; [apply reads_require|]. intros ? _.
    eapply reads_bind; [apply reads_require|]. intros ? _.
    eapply reads_bind; [eassumption|]. intros v [Hv _].
    eapply reads_weaken; [apply reads_extract|].
    intros r [-> Hlen]. split; [by apply Forall_take, Forall_drop|].
    unfold type_of in *. simpl in *. by rewrite Hlen, Nat2Z.id.
Qed.


(** X4.  [evaluate_lhs] only reads the netlist: when it returns, the module
    is the one it was given, every bit of the signal is a bit of a wire
    (never a constant), and the signal has the bitstream width of the
    expression's type. *)
Theorem evaluate_lhs_reads_wires (e : Expression) (m m' : Module) (r : SigSpec) :
  evaluate_lhs e m = Ok (r, m') ->
  m' = m /\
  Forall (fun b => is_wire b = true) r /\
  length r = getBitstreamWidth (type_of e).
Proof. intros H. by apply reads_evaluate_lhs in H. Qed.

Lemma evaluate_lhs_reads_wires_witness :
  evaluate_lhs Examples.expr_a Examples.module_a
  = Ok ([Examples.bit_a0; Examples.bit_a1], Examples.module_a) /\
  Forall (fun b => is_wire b = true) [Examples.bit_a0; Examples.bit_a1].
Proof.
  assert (evaluate_lhs Examples.expr_a Examples.module_a
          = Ok ([Examples.bit_a0; Examples.bit_a1], Examples.module_a)) as Hrun.
  { vm_compute. reflexivity. }
  split; [exact Hrun|].
  exact (proj1 (proj2 (evaluate_lhs_reads_wires _ _ _ _ Hrun))).
Defined.

(** *** What lowering leaves alone *)

(** X5.  Lowering a statement never touches a wire with a public name (a
    wire made for a symbol of the design): every such wire is, after the
    statement, exactly what it was before; the visitor stays on its
    process; and, when the names [NEW_ID] will draw are free, every process
    that was in the module is still there with the same root case and,
    rule by rule, the same sync kinds and signals (only actions may have
    been added). *)
Theorem lowering_keeps_the_design (subroutines : nat -> option Subroutine) (fuel : nat)
    (stmt : Statement) (v v' : ProceduralVisitor) :
  visit subroutines (evaluate_function subroutines fuel) stmt v = Ok (tt, v') ->
  (forall n, wires_ (mod_ v') !! Public n = wires_ (mod_ v) !! Public n) /\
  proc v' = proc v /\
  (names_free (mod_ v) ->
   names_free (mod_ v') /\
   forall p pr, processes (mod_ v) !! p = Some pr ->
     exists pr', processes (mod_ v') !! p = Some pr' /\
       root_case pr' = root_case pr /\
       sync_shape <$> syncs pr' = sync_shape <$> syncs pr).
Proof.
  intros H.
  apply (trans_visit subroutines _ (trans_evaluate_function subroutines fuel)) in H.
  destruct H as ([Hw Hp] & [Hproc _] & _). split_and!; [exact Hw|exact Hproc|].
  intros Hfree. destruct (Hp Hfree) as [Hfree' Hkept]. split; [done|].
  intros p pr Hpr. destruct (Hkept p pr Hpr) as (pr' & Hpr' & Hroot & Hsync).
  by exists pr'.
Qed.

Lemma lowering_keeps_the_design_witness :
  wires_ (mod_ Examples.staged_2.2) !! Public 7
  = wires_ (mod_ Examples.staged_1.2) !! Public 7.
Proof.
  apply (lowering_keeps_the_design Examples.no_subroutines 0 Examples.a_gets_01
           Examples.staged_1.2 Examples.staged_2.2).
  vm_compute. reflexivity.
Defined.

(** X6.  An expression that slang has folded to an integer constant is
    lowered to the bits of that constant and nothing is added to the
    netlist, whatever the kind of the expression; the two closing
    assertions are still made, and a constant that is not an integer ends
    the run. *)
Theorem constants_emit_nothing (subroutines : nat -> option Subroutine)
    (evalf : Subroutine -> list Expression -> option ProcedureContext -> M Module SigSpec)
    (ctx : option ProcedureContext) (e : Expression) (cv : ConstantValue) (m : Module) :
  constant_of e = Some cv ->
  evaluate_rhs subroutines evalf ctx e m =
    match cv with
    | CV_Integer v =>
        if isFixedSize (type_of e) then
          if bool_decide (length (svint_bits v) = getBitstreamWidth (type_of e))
          then Ok (sig_of_const (svint_const v), m)
          else Fail (AssertFailed A_rhs_width)
        else Fail (AssertFailed A_rhs_fixed_size)
    | _ => Fail Exception
    end.
Proof.
  intros Hc.
  assert (evaluate_rhs subroutines evalf ctx e m
          = (v <- integer cv ;;
             log_assert A_rhs_fixed_size (isFixedSize (type_of e)) ;;
             log_assert A_rhs_width
               (bool_decide (length (sig_of_const (svint_const v))
                             = getBitstreamWidth (type_of e))) ;;
             ret (sig_of_const (svint_const v)))%fe m) as ->.
  { destruct e; unfold constant_of in Hc; cbn [info] in Hc; simpl;
      unfold constant_of; cbn [info]; by rewrite Hc. }
  destruct cv; try done. simpl. unfold bind at 1. simpl.
  rewrite length_sig_of_const, length_svint_const.
  destruct (isFixedSize (type_of e)); [|done]. simpl.
  unfold bind. simpl. by destruct (bool_decide _).
Qed.

Lemma constants_emit_nothing_witness :
  evaluate_rhs Examples.no_subroutines
    (evaluate_function Examples.no_subroutines 0) None
    (BinaryOp (mkInfo (Examples.logic 2) (Some (CV_Integer (mkSVInt false [L1; L0]))))
       Add Examples.literal_01 Examples.literal_01)
    Examples.module_a
  = Ok ([BConst S1; BConst S0], Examples.module_a).
Proof.
  by rewrite (constants_emit_nothing _ _ _ _ (CV_Integer (mkSVInt false [L1; L0]))).
Defined.

(** *** Staging and substitution *)

Lemma filter_unstaged_nil (st : gmap SigBit SigBit) (l : SigSpec) :
  Forall (fun b => is_Some (st !! b)) l ->
  filter (fun bit => st !! bit = None) l = [].
Proof.
  induction 1 as [|b l [s Hb] _ IH]; [done|].
  rewrite filter_cons_False; [done|]. by rewrite Hb.
Qed.

(** X7.  [staging_signal] refuses an lvalue with a constant bit (the run
    ends on its assertion), and it is idempotent: called again on the same
    lvalue, from the state the first call left, it returns the same
    staging signal and changes nothing, so no second wire is made for a bit
    that is already staged. *)
Theorem staging_signal_is_idempotent (lvalue : SigSpec) (v : ProceduralVisitor) :
  ((exists s, BConst s ∈ lvalue) ->
     staging_signal lvalue v = Fail (AssertFailed A_staging_wire)) /\
  (forall r v1, staging_signal lvalue v = Ok (r, v1) ->
     staging_signal lvalue v1 = Ok (r, v1)).
Proof.
  split.
  - intros (s & Hs). unfold staging_signal.
    assert (forallb is_wire lvalue = false) as ->; [|done].
    apply not_true_is_false. rewrite forallb_forall. intros Hall.
    apply list_elem_of_In in Hs. by apply Hall in Hs.
  - intros r v1 H.
    destruct (staging_signal_inv _ _ _ _ H) as (-> & _ & Hdom & _).
    unfold staging_signal in *.
    destruct (forallb is_wire lvalue); [|done].
    rewrite (bind_Ok _ _ v1 tt v1) by done.
    rewrite (bind_Ok _ _ v1 v1 v1) by done.
    rewrite filter_unstaged_nil.
    + reflexivity.
    + apply Forall_forall. intros b Hb. apply elem_of_dom. rewrite Hdom.
      apply elem_of_union_r. by apply elem_of_list_to_set.
Qed.

Lemma staging_signal_is_idempotent_witness :
  staging_signal [Examples.bit_a0] Examples.staged_1.2
  = Ok (Examples.staged_1.1, Examples.staged_1.2).
Proof.
  apply (proj2 (staging_signal_is_idempotent [Examples.bit_a0] Examples.visitor_a)).
  vm_compute. reflexivity.
Defined.

(** X8.  A switch none of whose branches has changed a substitution has
    nothing to merge: [finish] returns at once and leaves the visitor and
    the netlist exactly as they were (no wire, no action). *)
Theorem finish_without_updates_is_a_no_op (b : SwitchBuilder) (v : ProceduralVisitor) :
  Forall (fun br => br.2.1 = []) (branch_updates b) ->
  finish b v = Ok (tt, v).
Proof.
  intros Hempty. unfold finish.
  assert (mjoin ((fun br => br.2.1) <$> branch_updates b) = []) as ->.
  { induction Hempty as [|br brs Hbr _ IH]; [done|].
    rewrite fmap_cons. cbn [mjoin list_join]. rewrite Hbr. exact IH. }
  change (chunks (sort_and_unify [])) with (@nil SigSpec). simpl.
  unfold bind. simpl.
  induction Hempty as [|br brs Hbr _ IH]; [done|].
  simpl. rewrite Hbr. simpl. unfold bind in *. simpl. exact IH.
Qed.

Lemma finish_without_updates_is_a_no_op_witness :
  branch_updates Examples.switch_2.1 = [(4, ([], []))] /\
  finish Examples.switch_2.1 Examples.switch_2.2 = Ok (tt, Examples.switch_2.2).
Proof.
  split; [vm_compute; reflexivity|].
  apply finish_without_updates_is_a_no_op.
  apply (bool_decide_unpack _). vm_compute. exact I.
Defined.

Lemma staging_signal_keeps_ctx lvalue v r v' :
  staging_signal lvalue v = Ok (r, v') -> ctx v' = ctx v.
Proof.
  intros H. destruct (forallb is_wire lvalue) eqn:E.
  - assert (Forall (fun b => is_wire b = true) lvalue) as Hwire.
    { apply Forall_forall. intros b Hb. rewrite forallb_forall in E.
      apply E. by apply list_elem_of_In. }
    destruct (staging_signal_run lvalue v Hwire) as (v'' & Hrun & Hframe & _).
    rewrite Hrun in H. injection H as _ <-. apply Hframe.
  - unfold staging_signal in H. rewrite E in H. discriminate H.
Qed.

Lemma assign_substitution (blocking : bool)
    (lvalue masked_rvalue : SigSpec) (v v' : ProceduralVisitor) :
  assign blocking lvalue masked_rvalue v = Ok (tt, v') ->
  length lvalue = length masked_rvalue /\
  (blocking = false -> rvalue_subs (ctx v') = rvalue_subs (ctx v)) /\
  (blocking = true ->
     (forall b, b ∉ lvalue ->
        rvalue_subs (ctx v') !! b = rvalue_subs (ctx v) !! b) /\
     (NoDup lvalue -> forall i b, lvalue !! i = Some b ->
        rvalue_subs (ctx v') !! b = masked_rvalue !! i)).
Proof.
  intros H. unfold assign in H.
  apply bind_inv in H as ([] & v0 & H0 & H).
  unfold log_assert in H0. case_bool_decide as Hlen; [|done]. injection H0 as <-.
  apply bind_inv in H as (vg & v1 & Hg & H). injection Hg as <- <-.
  apply bind_inv in H as ([] & v2 & Hpool & H).
  apply bind_inv in H as (target & v3 & Hst & H).
  apply bind_inv in H as (vg & v4 & Hg & H). injection Hg as <- <-.
  apply on_mod_inv in H as (m' & _ & ->).
  apply staging_signal_keeps_ctx in Hst. simpl. rewrite Hst.
  split; [done|]. destruct blocking.
  - apply bind_inv in Hpool as ([] & v5 & Hmod & Hpool). injection Hmod as <-.
    apply bind_inv in Hpool as ([] & v6 & Hchk & Hpool).
    unfold log_assert in Hchk. destruct (negb _); [|done]. injection Hchk as <-.
    injection Hpool as <-. simpl.
    split; [done|]. intros _. split.
    + intros b Hb. by apply lookup_assign_bits_notin.
    + intros Hnd i b Hi. by eapply lookup_assign_bits_in.
  - apply bind_inv in Hpool as ([] & v5 & Hchk & Hpool).
    unfold log_assert in Hchk. destruct (negb _); [|done]. injection Hchk as <-.
    injection Hpool as <-. simpl. split; [done|]. done.
Qed.


(** X9.  What an assignment does to the substitution the later reads of the
    procedure go through: a non-blocking assignment leaves it as it was; a
    blocking assignment binds every bit of the lvalue to the bit of the
    value at the same position (for an lvalue without repeated bits) and
    leaves the binding of every other bit alone.  In both cases lvalue and
    value have the same width, or the run ends before. *)
Theorem blocking_assignments_update_the_substitution (blocking : bool)
    (lvalue masked_rvalue : SigSpec) (v v' : ProceduralVisitor) :
  assign blocking lvalue masked_rvalue v = Ok (tt, v') ->
  length lvalue = length masked_rvalue /\
  (blocking = false -> rvalue_subs (ctx v') = rvalue_subs (ctx v)) /\
  (blocking = true ->
     (forall b, b ∉ lvalue ->
        rvalue_subs (ctx v') !! b = rvalue_subs (ctx v) !! b) /\
     (NoDup lvalue -> forall i b, lvalue !! i = Some b ->
        rvalue_subs (ctx v') !! b = masked_rvalue !! i)).
Proof. apply assign_substitution. Qed.

Lemma blocking_assignments_update_the_substitution_witness :
  rvalue_subs (ctx Examples.staged_2.2) !! Examples.bit_a0 = Some (BConst S1).
Proof.
  assert (assign true [Examples.bit_a0; Examples.bit_a1] [BConst S1; BConst S0]
            Examples.staged_1.2 = Ok (tt, Examples.staged_2.2)) as Hrun.
  { vm_compute. reflexivity. }
  destruct (blocking_assignments_update_the_substitution _ _ _ _ _ Hrun)
    as (_ & _ & Hb).
  destruct (Hb eq_refl) as [_ Hin].
  assert (NoDup [Examples.bit_a0; Examples.bit_a1]) as Hnd.
  { apply NoDup_cons. split; [|apply NoDup_singleton].
    intros H. apply list_elem_of_singleton in H. discriminate H. }
  exact (Hin Hnd 0 Examples.bit_a0 eq_refl).
Defined.

(** *** Masks *)

Lemma crop_zero_mask_from_spec (mask : SigSpec) (i : nat) (t rest : SigSpec) :
  i <= length mask -> length t = i ->
  crop_zero_mask_from i mask (t ++ rest) = unmasked (take i mask) t ++ rest.
Proof.
  revert t rest. induction i as [|i IH]; intros t rest Hi Ht.
  - destruct t; [|done]. by rewrite take_0.
  - destruct (lookup_lt_is_Some_2 mask i) as [mk Hmk]; [lia|].
    destruct (lookup_lt_is_Some_2 t i) as [x Hx]; [lia|].
    assert (t = take i t ++ [x]) as Ht'.
    { rewrite <- (take_drop i t) at 1. f_equal.
      rewrite (drop_S _ _ _ Hx). rewrite drop_ge by lia. done. }
    assert (length (take i t) = i) as Hlen by (rewrite length_take; lia).
    rewrite (take_S_r _ _ _ Hmk). rewrite Ht' at 2.
    unfold unmasked. rewrite zip_with_app by (rewrite length_take; lia).
    rewrite filter_app, fmap_app. simpl.
    rewrite (list_lookup_total_correct _ _ _ Hmk).
    destruct (decide (mk = BConst S0)) as [->|Hne].
    + rewrite filter_cons_False by (simpl; tauto). rewrite filter_nil. simpl.
      rewrite app_nil_r.
      assert (sig_remove (t ++ rest) i 1 = take i t ++ rest) as ->.
      { unfold sig_remove. rewrite Ht' at 1 2. rewrite <- !app_assoc.
        rewrite take_app_length' by done. f_equal.
        rewrite drop_app_ge by lia. rewrite Hlen.
        by replace (i + 1 - i) with 1 by lia. }
      rewrite IH by (done || lia). done.
    + rewrite filter_cons_True by done. rewrite filter_nil. simpl.
      rewrite Ht' at 1. rewrite <- !app_assoc. simpl.
      rewrite IH by (done || lia). done.
Qed.

(** X10.  [crop_zero_mask] removes from [target] exactly the positions at
    which the mask is the constant 0: what is left are the bits of [target]
    at the other positions of the mask, in their order, followed by the bits
    of [target] beyond the width of the mask. *)
Theorem crop_zero_mask_keeps_the_unmasked (mask target : SigSpec) :
  length mask <= length target ->
  crop_zero_mask mask target
  = unmasked mask (take (length mask) target) ++ drop (length mask) target.
Proof.
  intros Hlen. unfold crop_zero_mask.
  rewrite <- (take_drop (length mask) target) at 1.
  rewrite crop_zero_mask_from_spec; [|done|rewrite length_take; lia].
  by rewrite take_ge by done.
Qed.

Lemma crop_zero_mask_keeps_the_unmasked_witness :
  crop_zero_mask [BConst S0; BConst S1; BConst S0; BConst S1]
    [Examples.bit_a0; Examples.bit_a1; BConst Sx; BConst Sz]
  = [Examples.bit_a1; BConst Sz].
Proof.
  rewrite crop_zero_mask_keeps_the_unmasked by (simpl; lia).
  vm_compute. reflexivity.
Defined.

(** *** Reading what a blocking assignment wrote *)

(** X13.  Blocking assignments take effect at once for the rest of the
    procedure: after a blocking assignment of [rvalue] to all of a variable
    (or net) of the design, an rvalue read of that variable lowers to
    [rvalue] itself, and the read adds nothing to the netlist. *)
Theorem a_read_sees_the_blocking_write (subroutines : nat -> option Subroutine)
    (evalf : Subroutine -> list Expression -> option ProcedureContext -> M Module SigSpec)
    (i : ExprInfo) (sym : Symbol) (w : Wire) (rvalue : SigSpec)
    (v v' : ProceduralVisitor) :
  wires_ (mod_ v) !! net_id sym = Some w ->
  assign true (sig_of_wire (net_id sym) (width w)) rvalue v = Ok (tt, v') ->
  constant i = None ->
  sym_kind sym = SK_Variable \/ sym_kind sym = SK_Net ->
  sym_parent_kind sym = SK_InstanceBody ->
  isFixedSize (type i) = true ->
  getBitstreamWidth (type i) = width w ->
  eval_rhs subroutines evalf (NamedValue i sym) v' = Ok (rvalue, v').
Proof.
  intros Hw Hassign Hc Hkind Hparent Hfix Hwidth.
  destruct (assign_substitution _ _ _ _ _ Hassign) as (Hlen & _ & Hsub).
  destruct (Hsub eq_refl) as [_ Hin]. specialize (Hin (NoDup_sig_of_wire _ _)).
  rewrite length_sig_of_wire in Hlen.
  assert (wires_ (mod_ v') !! net_id sym = Some w) as Hw'.
  { apply trans_assign in Hassign as ([Hpub _] & _). unfold net_id in *.
    by rewrite Hpub. }
  assert (sig_replace (rvalue_subs (ctx v')) (sig_of_wire (net_id sym) (width w))
          = rvalue) as Hread.
  { apply list_eq. intros k. rewrite lookup_sig_replace.
    destruct (decide (k < width w)) as [Hk|Hk].
    - rewrite lookup_sig_of_wire by done. simpl.
      rewrite (Hin k (BWire (net_id sym) k)) by (by apply lookup_sig_of_wire).
      destruct (lookup_lt_is_Some_2 rvalue k) as [x Hx]; [lia|]. by rewrite Hx.
    - rewrite (lookup_ge_None_2 (sig_of_wire _ _)) by (rewrite length_sig_of_wire; lia).
      rewrite lookup_ge_None_2 by lia. done. }
  assert (evaluate_rhs subroutines evalf (Some (ctx v')) (NamedValue i sym) (mod_ v')
          = Ok (rvalue, mod_ v')) as Hrun.
  { simpl. unfold constant_of. simpl. rewrite Hc.
    assert ((require (bool_decide (sym_parent_kind sym = SK_InstanceBody)) ;;
             r <- wire_signal sym ;;
             log_assert A_rhs_fixed_size
               (isFixedSize (type_of (NamedValue i sym))) ;;
             log_assert A_rhs_width
               (bool_decide
                  (length (sig_replace (rvalue_subs (ctx v')) r)
                   = getBitstreamWidth (type_of (NamedValue i sym)))) ;;
             ret (sig_replace (rvalue_subs (ctx v')) r))%fe (mod_ v')
            = Ok (rvalue, mod_ v')) as Hrun.
    { rewrite Hparent. rewrite bool_decide_eq_true_2 by done.
      rewrite (bind_Ok _ _ (mod_ v') tt (mod_ v')) by done.
      rewrite (bind_Ok _ _ (mod_ v') (sig_of_wire (net_id sym) (width w)) (mod_ v')).
      - unfold type_of. simpl. rewrite Hfix.
        rewrite (bind_Ok _ _ (mod_ v') tt (mod_ v')) by done.
        rewrite Hread. rewrite bool_decide_eq_true_2 by lia.
        by rewrite (bind_Ok _ _ (mod_ v') tt (mod_ v')).
      - unfold wire_signal, bind, wire. by rewrite Hw'. }
    destruct Hkind as [-> | ->]; exact Hrun. }
  unfold eval_rhs. rewrite (bind_Ok _ _ v' v' v') by done.
  rewrite (on_mod_Ok _ v' rvalue (mod_ v') Hrun). by destruct v'.
Qed.

Lemma a_read_sees_the_blocking_write_witness :
  eval_rhs Examples.no_subroutines (evaluate_function Examples.no_subroutines 0)
    Examples.expr_a Examples.staged_2.2
  = Ok ([BConst S1; BConst S0], Examples.staged_2.2).
Proof.
  apply (a_read_sees_the_blocking_write Examples.no_subroutines
           (evaluate_function Examples.no_subroutines 0)
           (mkInfo (Examples.logic 2) None) Examples.sym_a
           (mkWire 2 false false None) [BConst S1; BConst S0]
           Examples.staged_1.2 Examples.staged_2.2).
  - vm_compute. reflexivity.
  - vm_compute. reflexivity.
  - reflexivity.
  - by left.
  - reflexivity.
  - reflexivity.
  - reflexivity.
Defined.
(** ** More of the frontend: the wires and connections of a module *)

Lemma declared_by_None symbols n :
  n ∉ (fun s => sym_path (value_symbol s)) <$> symbols -> declared_by symbols n = None.
Proof.
  induction symbols as [|s rest IH]; [done|].
  rewrite fmap_cons, not_elem_of_cons. intros [Hne Hn]. simpl.
  rewrite decide_False by done. by apply IH.
Qed.

Lemma WireAddingVisitor_run (symbols : list ValueSymbol) (m : Module) :
  NoDup ((fun s => sym_path (value_symbol s)) <$> symbols) ->
  Forall (fun s => isFixedSize (value_type s) = true) symbols ->
  exists m',
    WireAddingVisitor symbols m = Ok (tt, m') /\
    (forall n, wires_ m' !! Public n =
       match declared_by symbols n with
       | Some w => Some (mkWire w false false None)
       | None => wires_ m !! Public n
       end) /\
    (forall k, wires_ m' !! Auto k = wires_ m !! Auto k) /\
    m' = set_wires (wires_ m') m.
Proof.
  unfold WireAddingVisitor. intros Hnd Hfix. revert m.
  induction Hfix as [|s rest Hs _ IH]; intros m.
  - exists m. split_and!; try done. by destruct m.
  - rewrite fmap_cons in Hnd. apply NoDup_cons in Hnd as [Hp Hnd].
    specialize (IH Hnd).
    set (m1 := set_wires (<[net_id (value_symbol s) :=
                              mkWire (getBitstreamWidth (value_type s)) false false None]>
                            (wires_ m)) m).
    destruct (IH m1) as (m' & Hrun & Hpub & Hauto & Hrest).
    exists m'. split_and!.
    + simpl. unfold bind at 1. unfold add_wire_of. rewrite Hs. simpl.
      unfold bind at 1. simpl. exact Hrun.
    + intros n. rewrite Hpub. simpl. unfold m1, net_id. simpl.
      destruct (decide (sym_path (value_symbol s) = n)) as [<-|Hne].
      * rewrite declared_by_None by done. by rewrite lookup_insert_eq.
      * destruct (declared_by rest n); [done|].
        rewrite lookup_insert_ne; [done|]. congruence.
    + intros k. rewrite Hauto. unfold m1, net_id. simpl.
      by rewrite lookup_insert_ne.
    + rewrite Hrest at 1. by destruct m.
Qed.

(** X11.  [WireAddingVisitor], run on a module without public wires over
    value symbols of distinct paths and fixed-size types, gives every
    symbol a wire of the bitstream width of its type, not a port and without
    init value, makes no other public wire, and leaves the rest of the
    module alone: the module then has exactly the wires that the lowering of
    expressions relies on.  A symbol whose type is not of fixed size ends
    the run as unimplemented. *)
Theorem WireAddingVisitor_declares_the_wires (symbols : list ValueSymbol) (m : Module) :
  NoDup ((fun s => sym_path (value_symbol s)) <$> symbols) ->
  (forall n, wires_ m !! Public n = None) ->
  (Forall (fun s => isFixedSize (value_type s) = true) symbols ->
   exists m',
     WireAddingVisitor symbols m = Ok (tt, m') /\
     (forall s, s ∈ symbols ->
        wires_ m' !! net_id (value_symbol s)
        = Some (mkWire (getBitstreamWidth (value_type s)) false false None)) /\
     (forall n w, wires_ m' !! Public n = Some w ->
        exists s, s ∈ symbols /\ sym_path (value_symbol s) = n) /\
     wires_declared (declared_by symbols) m' /\
     cells_ m' = cells_ m /\ processes m' = processes m /\
     connections_ m' = connections_ m /\ autoidx m' = autoidx m) /\
  (Exists (fun s => isFixedSize (value_type s) = false) symbols ->
   WireAddingVisitor symbols m = Fail Unimplemented).
Proof.
  intros Hnd Hfresh. split.
  - intros Hfix.
    destruct (WireAddingVisitor_run symbols m Hnd Hfix)
      as (m' & Hrun & Hpub & _ & Hrest).
    assert (forall s, s ∈ symbols ->
              declared_by symbols (sym_path (value_symbol s))
              = Some (getBitstreamWidth (value_type s))) as Hdecl.
    { clear -Hnd. induction symbols as [|s0 rest IH]; intros s Hs.
      - by apply elem_of_nil in Hs.
      - rewrite fmap_cons in Hnd. apply NoDup_cons in Hnd as [Hp Hnd].
        simpl. apply elem_of_cons in Hs as [->|Hs].
        + by rewrite decide_True.
        + rewrite decide_False; [by apply IH|].
          intros Heq. apply Hp. rewrite Heq.
          by apply (list_elem_of_fmap_2 (fun s => sym_path (value_symbol s))). }
    assert (forall n w, declared_by symbols n = Some w ->
              exists s, s ∈ symbols /\ sym_path (value_symbol s) = n) as Hsome.
    { clear. induction symbols as [|s0 rest IH]; intros n w H; [done|].
      simpl in H. destruct (decide _) as [Heq|Hne].
      - exists s0. split; [left|done].
      - destruct (IH n w H) as (s & Hs & Hn). exists s. split; [by right|done]. }
    exists m'. split_and!.
    + exact Hrun.
    + intros s Hs. unfold net_id. rewrite Hpub. by rewrite (Hdecl s Hs).
    + intros n w Hw. rewrite Hpub in Hw.
      destruct (declared_by symbols n) as [w'|] eqn:E.
      * by eapply Hsome.
      * by rewrite Hfresh in Hw.
    + intros n w Hw. rewrite Hpub in Hw.
      destruct (declared_by symbols n) as [w'|] eqn:E.
      * by injection Hw as <-.
      * by rewrite Hfresh in Hw.
    + by rewrite Hrest.
    + by rewrite Hrest.
    + by rewrite Hrest.
    + by rewrite Hrest.
  - intros Hex. unfold WireAddingVisitor. clear Hnd Hfresh. revert m.
    induction Hex as [s rest Hs|s rest _ IH]; intros m; simpl.
    + unfold bind, add_wire_of, bind. by rewrite Hs.
    + unfold bind at 1. unfold add_wire_of.
      destruct (isFixedSize (value_type s)); [|done]. simpl.
      unfold bind at 1. simpl. apply IH.
Qed.

Lemma WireAddingVisitor_declares_the_wires_witness :
  wires_ Examples.module_ab !! Public 7 = Some (mkWire 2 false false None) /\
  wires_ Examples.module_ab !! Public 8 = Some (mkWire 1 false false None).
Proof.
  assert (NoDup ((fun s => sym_path (value_symbol s)) <$> Examples.values_ab)) as Hnd.
  { apply NoDup_cons. split; [|apply NoDup_singleton].
    intros H. apply list_elem_of_singleton in H. discriminate H. }
  destruct (proj1 (WireAddingVisitor_declares_the_wires Examples.values_ab
                     empty_module Hnd (fun n => lookup_empty _)))
    as (m' & Hrun & Hall & _).
  - by repeat constructor.
  - assert (m' = Examples.module_ab) as ->.
    { unfold Examples.module_ab. by rewrite Hrun. }
    split; [apply (Hall (mkValueSymbol Examples.sym_a (Examples.logic 2))); by left|].
    apply (Hall (mkValueSymbol Examples.sym_b (Examples.logic 1))). right. by left.
Defined.

(** *** Continuous assignments *)

Section Transfers.

Variables m m1 : Module.

Lemma transfers_ret {A} (a : A) : transfers (ret a) m m1.
Proof. intros a' m' H. injection H as <- <-. done. Qed.

Lemma transfers_fail {A} e : transfers (@fail Module A e) m m1.
Proof. intros a m' H. discriminate H. Qed.

Lemma transfers_bind {A B} (c : M Module A) (k : A -> M Module B) :
  transfers c m m1 -> (forall a, transfers (k a) m m1) -> transfers (bind c k) m m1.
Proof.
  intros Hc Hk b m'' H. apply bind_inv in H as (a & m' & H1 & H2).
  apply Hc in H1 as [-> H1]. apply Hk in H2 as [-> H2].
  split; [done|]. by rewrite (bind_Ok _ _ _ _ _ H1).
Qed.

Lemma transfers_log_assert a b : transfers (log_assert a b) m m1.
Proof. destruct b; [apply transfers_ret|apply transfers_fail]. Qed.

Lemma transfers_require b : transfers (require b) m m1.
Proof. destruct b; [apply transfers_ret|apply transfers_fail]. Qed.

End Transfers.

Ltac transfers_step :=
  lazymatch goal with
  | |- transfers (ret _) _ _ => apply transfers_ret
  | |- transfers (fail _) _ _ => apply transfers_fail
  | |- transfers (log_assert _ _) _ _ => apply transfers_log_assert
  | |- transfers (require _) _ _ => apply transfers_require
  | |- transfers (bind _ _) _ _ => apply transfers_bind; [|intros ?]
  | |- transfers (if ?b then _ else _) _ _ => destruct b
  | |- transfers (match ?x with _ => _ end) _ _ => destruct x
  | |- transfers (let (_, _) := ?x in _) _ _ => destruct x
  | |- _ => solve [eauto]
  end.

(** [evaluate_lhs] looks at nothing but the public wires. *)
Lemma transfers_evaluate_lhs (e : Expression) (m m1 : Module) :
  (forall n, wires_ m1 !! Public n = wires_ m !! Public n) ->
  transfers (evaluate_lhs e) m m1.
Proof.
  intros Hpub.
  assert (forall sym, transfers (wire_signal sym) m m1) as Hwire.
  { intros sym a m' H. unfold wire_signal, bind, wire, net_id in *.
    rewrite Hpub. destruct (wires_ m !! Public (sym_path sym)); [|done].
    by injection H as <- <-. }
  induction e as [e IH] using Expression_parts_ind.
  destruct e; simpl in *; forall_inv;
    unfold range_select_bounds, extract, constant_int, integer, svint_as_int;
    repeat transfers_step.
  generalize (@nil SigBit).
  induction IH as [|op ops Hop _ IHops]; intros acc; repeat transfers_step.
Qed.

(** X12.  A continuous assignment lowers to the same netlist whichever of
    the two arguments of [connect] the compiler evaluates first.  When it
    lowers, the rvalue is lowered in the module as it stands, the lvalue is
    read off the wires of that module (every bit the bit of a wire, at the
    bitstream width of the lvalue's type), and one connection of the two is
    appended to the connections of the module, everything else being as the
    lowering of the rvalue left it. *)
Theorem continuous_assign_order_is_immaterial (subroutines : nat -> option Subroutine)
    (fuel : nat) (left_ right_ : Expression) (m m' : Module) :
  (handle_ContinuousAssign_left_first subroutines fuel left_ right_ m = Ok (tt, m') <->
   handle_ContinuousAssign_right_first subroutines fuel left_ right_ m = Ok (tt, m')) /\
  (handle_ContinuousAssign_left_first subroutines fuel left_ right_ m = Ok (tt, m') ->
   exists l r m1,
     evaluate_lhs left_ m = Ok (l, m) /\
     evaluate_rhs subroutines (evaluate_function subroutines fuel) None right_ m
       = Ok (r, m1) /\
     m' = set_connections (connections_ m1 ++ [(l, r)]) m1 /\
     Forall (fun b => is_wire b = true) l /\
     length l = getBitstreamWidth (type_of left_)).
Proof.
  assert (forall r m1,
            evaluate_rhs subroutines (evaluate_function subroutines fuel) None right_ m
              = Ok (r, m1) ->
            forall n, wires_ m1 !! Public n = wires_ m !! Public n) as Hkept.
  { intros r m1 H.
    by apply (trans_evaluate_rhs subroutines _
                (trans_evaluate_function subroutines fuel)) in H as [Hw _]. }
  assert (handle_ContinuousAssign_left_first subroutines fuel left_ right_ m
            = Ok (tt, m') ->
          exists l r m1,
            evaluate_lhs left_ m = Ok (l, m) /\
            evaluate_rhs subroutines (evaluate_function subroutines fuel) None right_ m
              = Ok (r, m1) /\
            m' = set_connections (connections_ m1 ++ [(l, r)]) m1 /\
            Forall (fun b => is_wire b = true) l /\
            length l = getBitstreamWidth (type_of left_)) as Hshape.
  { intros H. unfold handle_ContinuousAssign_left_first in H.
    apply bind_inv in H as (l & m0 & Hl & H).
    destruct (reads_evaluate_lhs _ _ _ _ Hl) as (-> & Hwires & Hlen).
    apply bind_inv in H as (r & m1 & Hr & H). injection H as <-.
    by exists l, r, m1. }
  split; [|exact Hshape]. split.
  - intros H. destruct (Hshape H) as (l & r & m1 & Hl & Hr & -> & _).
    unfold handle_ContinuousAssign_right_first.
    rewrite (bind_Ok _ _ _ _ _ Hr).
    apply (transfers_evaluate_lhs left_ m m1 (Hkept r m1 Hr)) in Hl as [_ Hl].
    by rewrite (bind_Ok _ _ _ _ _ Hl).
  - intros H. unfold handle_ContinuousAssign_right_first in H.
    apply bind_inv in H as (r & m1 & Hr & H).
    apply bind_inv in H as (l & m2 & Hl & H).
    assert (forall n, wires_ m !! Public n = wires_ m1 !! Public n) as Hback.
    { intros n. symmetry. by eapply Hkept. }
    apply (transfers_evaluate_lhs left_ m1 m Hback) in Hl as [-> Hl].
    unfold handle_ContinuousAssign_left_first.
    rewrite (bind_Ok _ _ _ _ _ Hl), (bind_Ok _ _ _ _ _ Hr). exact H.
Qed.

Lemma continuous_assign_order_is_immaterial_witness :
  exists m',
    handle_ContinuousAssign_left_first Examples.no_subroutines 0
      Examples.expr_b Examples.nand_a Examples.module_ab = Ok (tt, m') /\
    handle_ContinuousAssign_right_first Examples.no_subroutines 0
      Examples.expr_b Examples.nand_a Examples.module_ab = Ok (tt, m').
Proof.
  destruct (handle_ContinuousAssign_left_first Examples.no_subroutines 0
              Examples.expr_b Examples.nand_a Examples.module_ab)
    as [[[] m']|err] eqn:E.
  - exists m'. split; [done|].
    by apply (proj1 (continuous_assign_order_is_immaterial _ _ _ _ _ _)).
  - vm_compute in E. discriminate E.
Defined.
(** ** The sensitivity list of a procedural block *)

Lemma TimingControl_parts_ind (P : TimingControl -> Prop) :
  (forall e edge iff_, P (SignalEvent e edge iff_)) ->
  P ImplicitEvent ->
  (forall events, Forall P events -> P (EventList events)) ->
  P OtherTiming ->
  forall t, P t.
Proof.
  intros H1 H2 H3 H4. fix IH 1.
  intros [e edge i| |events|]; [apply H1|apply H2| |apply H4].
  apply H3. revert events. fix IHl 1. intros [|ev evs]; constructor; [apply IH|apply IHl].
Qed.

Lemma push_sync_run (p : IdString) (rule : SyncRule) (m m' : Module) (pr : Process) :
  names_free m -> processes m !! p = Some pr ->
  push_sync p rule m = Ok (tt, m') ->
  names_free m' /\
  processes m' !! p = Some (mkProcess (root_case pr) (syncs pr ++ [rule])).
Proof.
  intros Hfree Hp H. injection H as <-. split.
  - intros n Hn. simpl. apply lookup_alter_None. by apply Hfree.
  - simpl. by rewrite lookup_alter_eq, Hp.
Qed.

Section Sensitivity.

Variable subroutines : nat -> option Subroutine.
Variable evalf : Subroutine -> list Expression -> option ProcedureContext -> M Module SigSpec.
Hypothesis evalf_trans : forall subr arguments ctx, trans mext (evalf subr arguments ctx).

Lemma populate_sync_syncs (timing : TimingControl) :
  forall p m ok m' pr,
    names_free m -> processes m !! p = Some pr ->
    populate_sync subroutines evalf p timing m = Ok (ok, m') ->
    names_free m' /\
    exists pr' new,
      processes m' !! p = Some pr' /\
      sync_shape <$> syncs pr' = (sync_shape <$> syncs pr) ++ new /\
      (ok = true -> Forall2 event_sync (events_of timing) new).
Proof.
  induction timing as [e edge iff_| |events IH|] using TimingControl_parts_ind;
    intros p m ok m' pr Hfree Hp H.
  - simpl in H.
    apply bind_inv in H as (sig & m1 & H1 & H).
    apply (trans_evaluate_rhs subroutines evalf evalf_trans) in H1 as [_ Hk].
    destruct (Hk Hfree) as [Hfree1 Hkept].
    destruct (Hkept p pr Hp) as (pr1 & Hp1 & _ & Hshape).
    apply bind_inv in H as ([] & m2 & H2 & H).
    destruct iff_; [discriminate H2|]. injection H2 as <-.
    apply bind_inv in H as ([] & m3 & H3 & H). injection H as <- <-.
    assert (exists rule,
              push_sync p rule m1 = Ok (tt, m3) /\
              event_sync (SignalEvent e edge false) (sync_shape rule)) as (rule & Hpush & Hev).
    { destruct edge.
      - eexists. split; [exact H3|]. reflexivity.
      - apply bind_inv in H3 as ([] & m4 & H4 & H3).
        unfold require in H4. case_bool_decide as Hlen; [|discriminate H4].
        injection H4 as <-. eexists. split; [exact H3|]. by split.
      - apply bind_inv in H3 as ([] & m4 & H4 & H3).
        unfold require in H4. case_bool_decide as Hlen; [|discriminate H4].
        injection H4 as <-. eexists. split; [exact H3|]. by split.
      - apply bind_inv in H3 as ([] & m4 & H4 & H3).
        unfold require in H4. case_bool_decide as Hlen; [|discriminate H4].
        injection H4 as <-. eexists. split; [exact H3|]. by split. }
    destruct (push_sync_run _ _ _ _ _ Hfree1 Hp1 Hpush) as [Hfree3 Hp3].
    split; [done|]. eexists _, [sync_shape rule]. split_and!; [exact Hp3| |].
    + simpl. by rewrite fmap_app, Hshape.
    + intros _. simpl. by repeat constructor.
  - simpl in H.
    apply bind_inv in H as ([] & m1 & H1 & H). injection H as <- <-.
    destruct (push_sync_run _ _ _ _ _ Hfree Hp H1) as [Hfree1 Hp1].
    split; [done|]. eexists _, [(STa, [])]. split_and!; [exact Hp1| |].
    + simpl. by rewrite fmap_app.
    + intros _. simpl. by repeat constructor.
  - simpl in H. revert m pr Hfree Hp H.
    induction IH as [|ev evs Hev _ IHevs]; intros m pr Hfree Hp H.
    + injection H as <- <-. split; [done|]. exists pr, []. split_and!; [done| |].
      * by rewrite app_nil_r.
      * intros _. constructor.
    + apply bind_inv in H as (ok1 & m1 & H1 & H).
      destruct (Hev p m ok1 m1 pr Hfree Hp H1)
        as (Hfree1 & pr1 & new1 & Hp1 & Hshape1 & Hall1).
      destruct ok1.
      * destruct (IHevs m1 pr1 Hfree1 Hp1 H)
          as (Hfree2 & pr2 & new2 & Hp2 & Hshape2 & Hall2).
        split; [done|]. exists pr2, (new1 ++ new2). split_and!; [done| |].
        -- by rewrite Hshape2, Hshape1, app_assoc.
        -- intros Hok. apply Forall2_app; [by apply Hall1|by apply Hall2].
      * injection H as <- <-. split; [done|]. exists pr1, new1.
        split_and!; [done|done|]. intros Hok. discriminate Hok.
  - injection H as <- <-. split; [done|]. exists pr, []. split_and!; [done| |].
    + by rewrite app_nil_r.
    + intros Hok. discriminate Hok.
Qed.

End Sensitivity.

(** X16.  The process made for an [always] or [always_ff] block (under the
    name drawn by [NEW_ID]) gets one sync rule for each event of the block's
    timing control, in the order of the event list, and lowering the body
    adds, removes or changes none: an edge event gives a rule of that edge
    on a one-bit signal, an event without an edge and the implicit event
    [@*] give an [STa] rule without signal.  So a block that lowers has no
    event with an [iff] condition, no timing control other than events, and
    no edge on a signal wider than one bit. *)
Theorem always_syncs_follow_the_event_list (subroutines : nat -> option Subroutine)
    (fuel : nat) (kind : ProceduralBlockKind) (timing : TimingControl)
    (stmt : Statement) (m m' : Module) :
  kind = Always \/ kind = AlwaysFF ->
  names_free m ->
  handle_ProceduralBlockSymbol subroutines (evaluate_function subroutines fuel)
    (mkProceduralBlock kind (TimedStatement timing stmt)) m = Ok (tt, m') ->
  exists pr,
    processes m' !! Auto (autoidx m) = Some pr /\
    Forall2 event_sync (events_of timing) (sync_shape <$> syncs pr).
Proof.
  intros Hkind Hfree H.
  assert ((name <- NEW_ID ;;
           p <- addProcess name ;;
           ok <- populate_sync subroutines (evaluate_function subroutines fuel) p timing ;;
           require ok ;;
           with_visitor p ALWAYS
             (visit subroutines (evaluate_function subroutines fuel) stmt ;;
              staging_done) ;;
           ret tt)%fe m = Ok (tt, m')) as Hrun.
  { destruct Hkind as [-> | ->]; exact H. }
  clear H.
  unfold bind at 1 in Hrun. unfold NEW_ID in Hrun.
  unfold bind at 1 in Hrun. unfold addProcess at 1 in Hrun.
  unfold bind at 1 in Hrun. unfold new_CaseRule at 1 in Hrun.
  unfold bind at 1 in Hrun. unfold modify at 1 in Hrun.
  unfold ret at 1 in Hrun.
  match type of Hrun with
  | bind _ _ ?m3 = _ => set (m3' := m3) in Hrun
  end.
  assert (names_free m3') as Hfree3.
  { intros n Hn. subst m3'. simpl in *.
    rewrite lookup_insert_ne by (intros [=]; lia).
    apply Hfree. lia. }
  assert (processes m3' !! Auto (autoidx m) = Some (mkProcess (heap_top m) [])) as Hp3.
  { subst m3'. simpl. by rewrite lookup_insert_eq. }
  apply bind_inv in Hrun as (ok & m4 & Hpop & Hrun).
  destruct (populate_sync_syncs subroutines _ (trans_evaluate_function subroutines fuel)
              timing _ _ _ _ _ Hfree3 Hp3 Hpop)
    as (Hfree4 & pr4 & new & Hp4 & Hshape4 & Hall).
  apply bind_inv in Hrun as ([] & m5 & Hreq & Hrun).
  destruct ok; [|discriminate Hreq]. injection Hreq as <-.
  apply bind_inv in Hrun as (av & m6 & Hv & Hret). injection Hret as <-.
  eapply trans_with_visitor in Hv.
  - destruct Hv as [_ Hk]. destruct (Hk Hfree4) as [_ Hkept].
    destruct (Hkept _ _ Hp4) as (pr & Hpr & _ & Hshape).
    exists pr. split; [exact Hpr|]. rewrite Hshape, Hshape4. simpl. by apply Hall.
  - apply trans_bind; [apply _| |intros; apply trans_staging_done].
    apply trans_visit, trans_evaluate_function.
Qed.

Lemma always_syncs_follow_the_event_list_witness :
  exists m' pr,
    handle_ProceduralBlockSymbol Examples.no_subroutines
      (evaluate_function Examples.no_subroutines 0)
      Examples.always_ff_b Examples.module_ab = Ok (tt, m') /\
    processes m' !! Auto 0 = Some pr /\
    Forall2 event_sync [SignalEvent Examples.expr_b PosEdge false]
      (sync_shape <$> syncs pr).
Proof.
  destruct (handle_ProceduralBlockSymbol Examples.no_subroutines
              (evaluate_function Examples.no_subroutines 0)
              Examples.always_ff_b Examples.module_ab) as [[[] m']|err] eqn:E.
  - destruct (always_syncs_follow_the_event_list Examples.no_subroutines 0 AlwaysFF
                (SignalEvent Examples.expr_b PosEdge false) Examples.a_gets_01
                Examples.module_ab m') as (pr & Hpr & Hall).
    + by right.
    + intros n _. vm_compute. reflexivity.
    + exact E.
    + by exists m', pr.
  - vm_compute in E. discriminate E.
Defined.
